(** * braingeneers.analysis: spike-train analysis engine

    A shallow embedding of [src/braingeneers/analysis/analysis.py]
    (class [SpikeData] and the module-level statistics helpers), with the
    theorems that settle the specification's claims about it.

    Modelling conventions.
    - Spike times, the recording length, bin sizes and tolerances are
      float64 numbers in the source.  A float64 is a rational, so they
      are values of [Q]; the results of float64 computations are values
      of [fl]: rationals extended with [+inf], [-inf] and [NaN], with
      the IEEE rules for them (signed zeros are not distinguished).
    - Where the outcome depends on how float64 rounds (binning, the
      sparse formulas of [fano_factors] and [pearson]) every operation
      is rounded through the interface [Float64], of which [binary64]
      is IEEE 754 double precision and [exact_arith] the idealisation
      that rounds nothing.  Comparisons, selections and subtractions of
      spike times elsewhere are modelled without rounding.
    - Python exceptions are modelled by the [Err] constructor of [result].
    - A scipy CSR array is modelled by its three arrays and its shape; the
      scipy operations on it act on the matrix it represents, in which
      duplicate entries add up.
    - The store is its trains and its length.  Raw traces and per-neuron
      attributes are separate values ([RawData], an attribute list),
      passed to the methods whose outcome depends on them ([append],
      [subset]); metadata and [neuron_data] are carried through by the
      source unchanged and are left out.

    The repository also keeps [src/braingeneers/analysis.py], the older
    single-file module that the package replaces.  Where its behaviour
    differs in a way that matters here ([spike_time_tiling] on empty
    trains, [subtime], the loop of [avalanches]) it is modelled in
    [Legacy], for comparison. *)

From Stdlib Require Import List ZArith QArith Qround Qabs Lia Lqa Bool.
From Stdlib Require Import PeanoNat Permutation.
Import ListNotations.

Local Open Scope Z_scope.
Local Open Scope Q_scope.

(** ** Python exceptions *)

Inductive pyerror : Type :=
| ValueError
| IndexError
| TypeError
| ZeroDivisionError
| OverflowError
| AssertionError
| FitFailure.

Inductive result (A : Type) : Type :=
| Ok (a : A)
| Err (e : pyerror).

Arguments Ok {A} a.
Arguments Err {A} e.

Definition bind {A B : Type} (r : result A) (k : A -> result B) : result B :=
  match r with
  | Ok a => k a
  | Err e => Err e
  end.

Notation "x <- r ;; k" := (bind r (fun x => k))
  (at level 61, r at next level, right associativity).

Definition is_ok {A : Type} (r : result A) : bool :=
  match r with Ok _ => true | Err _ => false end.

(** ** Extended rationals: the values a float64 computation can produce *)

Inductive fl : Type :=
| Fin (q : Q)
| PInf
| NInf
| NaN.

Definition Qeqb (a b : Q) : bool := Qeq_bool a b.
Definition Qleb (a b : Q) : bool := Qle_bool a b.
Definition Qltb (a b : Q) : bool := negb (Qle_bool b a).

Module Fl.

Definition of_Z (z : Z) : fl := Fin (inject_Z z).
Definition of_nat (n : nat) : fl := Fin (inject_Z (Z.of_nat n)).

Definition neg (x : fl) : fl :=
  match x with
  | Fin q => Fin (- q)
  | PInf => NInf
  | NInf => PInf
  | NaN => NaN
  end.

Definition add (x y : fl) : fl :=
  match x, y with
  | NaN, _ | _, NaN => NaN
  | Fin a, Fin b => Fin (a + b)
  | PInf, NInf | NInf, PInf => NaN
  | PInf, _ | _, PInf => PInf
  | NInf, _ | _, NInf => NInf
  end.

Definition sub (x y : fl) : fl := add x (neg y).

(** The sign of a finite factor decides the product with an infinity;
    [0 * inf] is NaN. *)
Definition scale_inf (pos : bool) (a : Q) : fl :=
  if Qeqb a 0 then NaN
  else if Qltb 0 a then (if pos then PInf else NInf)
       else (if pos then NInf else PInf).

Definition mul (x y : fl) : fl :=
  match x, y with
  | NaN, _ | _, NaN => NaN
  | Fin a, Fin b => Fin (a * b)
  | Fin a, PInf | PInf, Fin a => scale_inf true a
  | Fin a, NInf | NInf, Fin a => scale_inf false a
  | PInf, PInf | NInf, NInf => PInf
  | PInf, NInf | NInf, PInf => NInf
  end.

(** numpy division: a finite number over zero is an infinity (NaN for
    [0/0]); a finite number over an infinity is zero. *)
Definition div (x y : fl) : fl :=
  match x, y with
  | NaN, _ | _, NaN => NaN
  | Fin a, Fin b =>
      if Qeqb b 0 then
        (if Qeqb a 0 then NaN else if Qltb 0 a then PInf else NInf)
      else Fin (a / b)
  | Fin _, PInf | Fin _, NInf => Fin 0
  | PInf, Fin b => if Qltb b 0 then NInf else PInf
  | NInf, Fin b => if Qltb b 0 then PInf else NInf
  | PInf, PInf | PInf, NInf | NInf, PInf | NInf, NInf => NaN
  end.

(** Comparisons: every comparison with NaN is false. *)
Definition eqb (x y : fl) : bool :=
  match x, y with
  | Fin a, Fin b => Qeqb a b
  | PInf, PInf | NInf, NInf => true
  | _, _ => false
  end.

Definition ltb (x y : fl) : bool :=
  match x, y with
  | NaN, _ | _, NaN => false
  | Fin a, Fin b => Qltb a b
  | NInf, NInf | PInf, _ => false
  | NInf, _ | _, PInf => true
  | Fin _, NInf => false
  end.

Definition leb (x y : fl) : bool :=
  match x, y with
  | NaN, _ | _, NaN => false
  | Fin a, Fin b => Qleb a b
  | NInf, _ | _, PInf => true
  | PInf, _ | Fin _, NInf => false
  end.

Definition abs (x : fl) : fl :=
  match x with
  | Fin q => Fin (Qabs q)
  | PInf | NInf => PInf
  | NaN => NaN
  end.

Definition is_nan (x : fl) : bool :=
  match x with NaN => true | _ => false end.

Definition is_fin (x : fl) : bool :=
  match x with Fin _ => true | _ => false end.

End Fl.

(** Two values of [fl] that denote the same number. *)
Definition fl_same (x y : fl) : Prop :=
  match x, y with
  | Fin a, Fin b => a == b
  | PInf, PInf | NInf, NInf | NaN, NaN => True
  | _, _ => False
  end.

(** ** Float64 arithmetic *)

(** Where the outcome of the source depends on how float64 rounds, the
    model does not idealise: it takes the float64 primitives as an
    interface.
    - [rnd q] is the float64 that an operation returns when its exact
      result is [q]: the nearest representable number, an infinity when
      [q] is too large.  IEEE addition, subtraction, multiplication and
      division are the exact operation followed by [rnd].
    - [np_sqrt] is [np.sqrt].
    - [astype_int] is [x.astype(int)] on a float array, the C conversion
      to int64, whose result for a value outside int64 depends on the
      platform.
    - [length_over] is the quotient [self.length / bin_size]: Python
      raises ZeroDivisionError for a zero divisor when the length is a
      Python number, numpy returns an infinity or NaN when it is a numpy
      scalar; for a non-zero divisor both round the exact quotient. *)
Class Float64 : Type := {
  rnd : Q -> fl;
  np_sqrt : fl -> fl;
  astype_int : fl -> Z;
  length_over : Q -> Q -> result fl
}.

(** scipy's [mean(axis=1)] of a row of a sparse integer array with [n]
    columns, given the values stored for the row: their sum, each value
    first multiplied by the float64 [1.0 / n].  The order in which scipy
    adds is left open.  (A value of zero adds nothing, so it does not
    matter whether zeros are listed.) *)
Class SparseMean : Type := {
  sparse_mean : nat -> list Z -> fl
}.

(** The result of an operation whose exact result is [x]. *)
Definition fround {F : Float64} (x : fl) : fl :=
  match x with
  | Fin q => rnd q
  | _ => x
  end.

Module Fp.

Definition add {F : Float64} (x y : fl) : fl := fround (Fl.add x y).
Definition sub {F : Float64} (x y : fl) : fl := fround (Fl.sub x y).
Definition mul {F : Float64} (x y : fl) : fl := fround (Fl.mul x y).
Definition div {F : Float64} (x y : fl) : fl := fround (Fl.div x y).

End Fp.

(** [np.ceil]: exact, the ceiling of a float64 is a float64. *)
Definition np_ceil (x : fl) : fl :=
  match x with
  | Fin q => Fin (inject_Z (Qceiling q))
  | _ => x
  end.

(** Truncation towards zero. *)
Definition py_trunc (q : Q) : Z := if Qltb q 0 then Qceiling q else Qfloor q.

(** Python's [int(x)] on a float: OverflowError for an infinity,
    ValueError for NaN. *)
Definition py_int (x : fl) : result Z :=
  match x with
  | Fin q => Ok (py_trunc q)
  | PInf | NInf => Err OverflowError
  | NaN => Err ValueError
  end.

(** What the theorems assume of float64: rounding depends on the number
    only, keeps the integers up to [2^53] and does not overflow on
    numbers of magnitude at most 1; the square root of zero is zero and
    no square root is negative; the conversion to int64 is exact on the
    integers of int64; a quotient by a non-zero divisor is the rounded
    exact quotient. *)
Record IEEE (F : Float64) : Prop := {
  rnd_proper : forall q q' : Q, q == q' -> fl_same (rnd q) (rnd q');
  rnd_int : forall z : Z,
      (Z.abs z <= 2 ^ 53)%Z -> fl_same (rnd (inject_Z z)) (Fin (inject_Z z));
  rnd_unit : forall q : Q, Qabs q <= 1 -> exists v : Q, rnd q = Fin v;
  sqrt_zero : forall x : fl,
      Fl.eqb x (Fin 0) = true -> Fl.eqb (np_sqrt x) (Fin 0) = true;
  sqrt_range : forall x : fl,
      np_sqrt x = NaN \/ Fl.leb (Fin 0) (np_sqrt x) = true;
  astype_int_exact : forall (z : Z) (q : Q),
      (- 2 ^ 63 <= z < 2 ^ 63)%Z -> q == inject_Z z -> astype_int (Fin q) = z;
  length_over_quotient : forall a b : Q,
      ~ b == 0 -> length_over a b = Ok (rnd (a / b))
}.

(** What they assume of scipy's mean: the mean of a row in which no
    value other than zero is stored is zero. *)
Record MeanLaws (M : SparseMean) : Prop := {
  mean_zero : forall (n : nat) (row : list Z),
      n <> 0%nat -> Forall (fun x => x = 0%Z) row ->
      Fl.eqb (sparse_mean n row) (Fin 0) = true
}.

(** ** numpy and Python primitives used by the source *)

Definition np_clip (x lo hi : Z) : Z := Z.min (Z.max x lo) hi.

Section Sorting.
Context {A : Type} (le : A -> A -> bool).

Fixpoint insert_sorted (x : A) (l : list A) : list A :=
  match l with
  | [] => [x]
  | y :: l' => if le x y then x :: l else y :: insert_sorted x l'
  end.

Definition sort_by (l : list A) : list A := fold_right insert_sorted [] l.
End Sorting.

(** [np.sort] on a one-dimensional array: a sorted copy. *)
Definition np_sort (l : list Q) : list Q := sort_by Qleb l.
Definition np_sort_int (l : list Z) : list Z := sort_by Z.leb l.

(** Python's [max] over a non-empty sequence: keep the running maximum,
    replace it when a later item is greater. *)
Definition py_max (x : Q) (xs : list Q) : Q :=
  fold_left (fun m y => if Qltb m y then y else m) xs x.

(** [a[mask]] for a boolean mask: IndexError unless the lengths agree. *)
Fixpoint mask_select {A : Type} (mask : list bool) (a : list A) : result (list A) :=
  match mask, a with
  | [], [] => Ok []
  | b :: mask', x :: a' =>
      r <- mask_select mask' a' ;;
      Ok (if b then x :: r else r)
  | _, _ => Err IndexError
  end.

(** [range(n)] for a Python integer [n]. *)
Definition py_range (n : Z) : list Z := map Z.of_nat (seq 0 (Z.to_nat n)).

Fixpoint mapM {A B : Type} (f : A -> result B) (l : list A) : result (list B) :=
  match l with
  | [] => Ok []
  | x :: l' => y <- f x ;; ys <- mapM f l' ;; Ok (y :: ys)
  end.

(** ** The spike-train store *)

(** [self.train] and [self.length]; [self.N] is always [len(self.train)].
    The raw traces of a store are a [RawData], its [neuron_attributes] a
    list; both are defined with the methods that read them. *)
Record SpikeData : Type := mkSpikeData {
  train : list (list Q);
  length : Q
}.

Definition N (sd : SpikeData) : nat := List.length (train sd).

(** The array of unit indices handed to [_train_from_i_t_list]: integers
    when the caller gave indices, floats when the constructor took them
    from the first entries of two-element trains of float spike times. *)
Inductive index_array : Type :=
| IntIdx (idces : list Z)
| FloatIdx (idces : list Q).

(** [idces == i] *)
Definition idx_mask (ix : index_array) (i : Z) : list bool :=
  match ix with
  | IntIdx l => map (fun k => Z.eqb k i) l
  | FloatIdx l => map (fun k => Qeqb k (inject_Z i)) l
  end.

(** [idces.max() + 1] followed by [range(N)]: numpy's max raises
    ValueError on an empty array, and [range] raises TypeError on a
    float. *)
Definition idx_count (ix : index_array) : result Z :=
  match ix with
  | IntIdx [] | FloatIdx [] => Err ValueError
  | IntIdx (k :: l) => Ok (fold_left Z.max l k + 1)%Z
  | FloatIdx _ => Err TypeError
  end.

(** The values of [times] are only moved around; the function is the
    same for any kind of time value. *)
Definition _train_from_i_t_list {T : Type} (idces : index_array)
    (times : list T) (N : option Z) : result (list (list T)) :=
  n <- match N with Some n => Ok n | None => idx_count idces end ;;
  mapM (fun i => mask_select (idx_mask idces i) times) (py_range n).

(** The argument shapes of [SpikeData(...)] over plain Python data.
    Spike times are floats, as the trains of every store are once numpy
    has sorted float input.  (Trains of Python integers, of which numpy
    makes integer arrays whose first entries [range] accepts as unit
    indices, are not modelled; nor are the NEST recorder and
    Neuron-object inputs, which are external objects.) *)
Inductive ctor_arg : Type :=
| IdcesTimes (idces : list Z) (times : list Q)
| Pairs (events : list (Z * Q))
| Trains (trains : list (list Q)).

Definition all_len_2 (trains : list (list Q)) : bool :=
  forallb (fun ts => Nat.eqb (List.length ts) 2) trains.

(** The first half of [__init__]: turn the argument into per-unit
    trains.  A list whose elements all have length two is read as
    (index, time) pairs, whatever the caller meant by it. *)
Definition parse_arg (arg : ctor_arg) (N : option Z) : result (list (list Q)) :=
  match arg with
  | IdcesTimes idces times => _train_from_i_t_list (IntIdx idces) times N
  | Pairs [] => Ok []
  | Pairs events =>
      _train_from_i_t_list (IntIdx (map fst events)) (map snd events) N
  | Trains [] => Ok []
  | Trains trains =>
      if all_len_2 trains then
        _train_from_i_t_list (FloatIdx (map (fun ts => nth 0 ts 0) trains))
                             (map (fun ts => nth 1 ts 0) trains) N
      else Ok trains
  end.

(** [t[-1]] of every non-empty train. *)
Definition last_spikes (trains : list (list Q)) : list Q :=
  flat_map (fun t => match t with [] => [] | _ => [last t 0] end) trains.

(** [max((t[-1] for t in self.train if len(t) > 0))] *)
Definition default_length (trains : list (list Q)) : result Q :=
  match last_spikes trains with
  | [] => Err ValueError
  | x :: xs => Ok (py_max x xs)
  end.

(** Pad with empty trains up to the declared unit count. *)
Definition pad_units (trains : list (list Q)) (N : option Z) : list (list Q) :=
  match N with
  | Some n => trains ++ repeat [] (Z.to_nat n - List.length trains)%nat
  | None => trains
  end.

(** [SpikeData.__init__(arg1, arg2, N=..., length=...)] *)
Definition SpikeData_init (arg : ctor_arg) (N : option Z) (len : option Q)
    : result SpikeData :=
  raw <- parse_arg arg N ;;
  let sorted := map np_sort raw in
  l <- match len with Some l => Ok l | None => default_length sorted end ;;
  Ok (mkSpikeData (pad_units sorted N) l).

(** [subtime]'s bounds: [None] stands for None or Ellipsis. *)
Definition norm_start (sd : SpikeData) (start : option Q) : Q :=
  match start with
  | None => 0
  | Some s => if Qltb s 0 then s + length sd else s
  end.

Definition norm_end (sd : SpikeData) (stop : option Q) : Q :=
  match stop with
  | None => length sd
  | Some e => if Qltb e 0 then e + length sd
              else if Qltb (length sd) e then length sd else e
  end.

(** [lower = start if start > 0 else -np.inf] *)
Definition lower_bound (start : Q) : fl :=
  if Qltb 0 start then Fin start else NInf.

(** [t[(t > lower) & (t <= end)] - start] *)
Definition slice_train (lower : fl) (start stop : Q) (ts : list Q) : list Q :=
  map (fun t => t - start)
      (filter (fun t => Fl.ltb lower (Fin t) && Qleb t stop) ts).

Definition subtime (sd : SpikeData) (start stop : option Q) : result SpikeData :=
  let s := norm_start sd start in
  let e := norm_end sd stop in
  let lower := lower_bound s in
  SpikeData_init (Trains (map (slice_train lower s e) (train sd)))
                 (Some (Z.of_nat (N sd))) (Some (e - s)).

(** Raw traces ride along with the spikes.  Of [raw_data] only the
    shape decides what the methods below do; the constructor keeps its
    last axis as long as [raw_time], so the shape is [raw_dims] followed
    by the number of raw times. *)
Record RawData : Type := mkRawData {
  raw_dims : list nat;
  raw_time : list Q
}.


(** A store built without raw data: [np.zeros((0, 0))] and
    [np.zeros((0,))]. *)
Definition no_raw : RawData := mkRawData [0%nat] [].




(** ** Rasters *)

(** A scipy CSR array: [data], [indices], [indptr] and the shape. *)
Record csr : Type := mkCsr {
  data : list Z;
  indices : list Z;
  indptr : list nat;
  n_rows : nat;
  n_cols : nat
}.

Fixpoint cumsum_from (acc : nat) (l : list nat) : list nat :=
  match l with
  | [] => []
  | x :: l' => (acc + x)%nat :: cumsum_from (acc + x)%nat l'
  end.

Definition np_cumsum (l : list nat) : list nat := cumsum_from 0 l.

(** [(np.ceil(t / bin_size) - 1).astype(int)]: the float64 quotient, its
    ceiling, a float64 subtraction, the conversion to int64. *)
Definition raw_bin {F : Float64} (bin_size t : Q) : Z :=
  astype_int (Fp.sub (np_ceil (Fp.div (Fin t) (Fin bin_size))) (Fin 1)).

(** [int(np.ceil(self.length / bin_size))] *)
Definition bin_count {F : Float64} (sd : SpikeData) (bin_size : Q) : result Z :=
  q <- length_over (length sd) bin_size ;; py_int (np_ceil q).

(** [sparse_raster].  [np.hstack] refuses an empty list of arrays; the
    bin count is computed after the indices and can raise; scipy refuses
    a negative dimension.  scipy does not inspect the column indices. *)
Definition sparse_raster {F : Float64} (sd : SpikeData) (bin_size : Q)
    : result csr :=
  match train sd with
  | [] => Err ValueError
  | _ =>
      let idx := concat (map (map (raw_bin bin_size)) (train sd)) in
      let units := 0%nat :: map (@List.length Q) (train sd) in
      let ptr := np_cumsum units in
      let values := map (fun _ => 1%Z) idx in
      len <- bin_count sd bin_size ;;
      if (len <? 0)%Z then Err ValueError
      else Ok (mkCsr values (map (fun x => np_clip x 0 (len - 1)) idx) ptr
                     (N sd) (Z.to_nat len))
  end.

(** The stored (column, value) entries of row [i]. *)
Definition row_entries (r : csr) (i : nat) : list (Z * Z) :=
  let lo := nth i (indptr r) 0%nat in
  let hi := nth (S i) (indptr r) 0%nat in
  firstn (hi - lo) (skipn lo (combine (indices r) (data r))).

Definition sumZ (l : list Z) : Z := fold_right Z.add 0%Z l.

(** Entry [(i, j)] of the represented matrix: duplicates add up. *)
Definition cell (entries : list (Z * Z)) (j : nat) : Z :=
  sumZ (map snd (filter (fun e => Z.eqb (fst e) (Z.of_nat j)) entries)).

(** [toarray]: the dense matrix a CSR array represents. *)
Definition toarray (r : csr) : list (list Z) :=
  map (fun i => map (cell (row_entries r i)) (seq 0 (n_cols r)))
      (seq 0 (n_rows r)).

(** [raster]: the dense unit-by-bin count matrix. *)
Definition raster {F : Float64} (sd : SpikeData) (bin_size : Q)
    : result (list (list Z)) :=
  r <- sparse_raster sd bin_size ;; Ok (toarray r).

(** [m.sum(0)]: column sums of a matrix with [w] columns. *)
Definition column_sums (w : nat) (m : list (list Z)) : list Z :=
  map (fun j => sumZ (map (fun row => nth j row 0%Z) m)) (seq 0 w).

(** [binned]: events per bin over all units. *)
Definition binned {F : Float64} (sd : SpikeData) (bin_size : Q)
    : result (list Z) :=
  r <- sparse_raster sd bin_size ;; Ok (column_sums (n_cols r) (toarray r)).

(** ** Avalanches *)

(** [np.diff] of a boolean array: exclusive or of neighbours. *)
Fixpoint np_diff_bool (a : list bool) : list bool :=
  match a with
  | x :: ((y :: _) as a') => xorb y x :: np_diff_bool a'
  | _ => []
  end.

(** [np.where(mask)[0]]: the positions that hold [True], counted from [i]. *)
Fixpoint np_where_from (i : nat) (mask : list bool) : list nat :=
  match mask with
  | [] => []
  | b :: mask' =>
      if b then i :: np_where_from (S i) mask' else np_where_from (S i) mask'
  end.

Definition np_where (mask : list bool) : list nat := np_where_from 0 mask.

(** [a[k::2]] for [k] = 0, 1, 2 *)
Fixpoint stride2 {A : Type} (l : list A) : list A :=
  match l with
  | x :: _ :: l' => x :: stride2 l'
  | [x] => [x]
  | [] => []
  end.

(** [a[lo:hi]] for in-range, non-negative bounds. *)
Definition py_slice {A : Type} (lo hi : nat) (a : list A) : list A :=
  skipn lo (firstn hi a).

(** [counts > thresh] *)
Definition is_active (thresh : fl) (count : Z) : bool :=
  Fl.ltb thresh (Fl.of_Z count).

(** The body of [avalanches] after binning.  [active[0]] raises
    IndexError when there is no bin at all. *)
Definition avalanches_of_counts (thresh : fl) (counts : list Z)
    : result (list (list Z)) :=
  let active := map (is_active thresh) counts in
  let toggles := np_where (np_diff_bool active) in
  match active with
  | [] => Err IndexError
  | a0 :: _ =>
      let ups := if a0 then stride2 (skipn 1 toggles) else stride2 toggles in
      let downs := if a0 then stride2 (skipn 2 toggles)
                   else stride2 (skipn 1 toggles) in
      Ok (map (fun ud => py_slice (fst ud + 1) (snd ud + 1) counts)
              (combine ups downs))
  end.

Definition avalanches {F : Float64} (sd : SpikeData) (thresh : fl)
    (bin_size : Q) : result (list (list Z)) :=
  counts <- binned sd bin_size ;; avalanches_of_counts thresh counts.

(** [avalanche_duration_size]: (durations, sizes). *)
Definition avalanche_duration_size {F : Float64} (sd : SpikeData)
    (thresh : fl) (bin_size : Q) : result (list Z * list Z) :=
  avs <- avalanches sd thresh bin_size ;;
  Ok (map (fun av => Z.of_nat (List.length av)) avs, map sumZ avs).

(** ** Spike time tiling *)

(** [np.diff] of a float array. *)
Fixpoint np_diff (a : list Q) : list Q :=
  match a with
  | x :: ((y :: _) as a') => (y - x) :: np_diff a'
  | _ => []
  end.

Definition sumQ (l : list Q) : Q := fold_right Qplus 0 l.

Definition Qmin' (a b : Q) : Q := if Qleb a b then a else b.

(** [_sttc_ta]: total time within [delt] of a spike of [tA]. *)
Definition _sttc_ta (tA : list Q) (delt tmax : Q) : Q :=
  match tA with
  | [] => 0
  | t0 :: _ =>
      let base := Qmin' delt t0 + Qmin' delt (tmax - last tA 0) in
      base + sumQ (map (fun d => Qmin' d (2 * delt)) (np_diff tA))
  end.

(** [np.searchsorted(tB, a)] on a sorted array: the first position whose
    entry is not below [a]. *)
Fixpoint np_searchsorted (tB : list Q) (a : Q) : nat :=
  match tB with
  | [] => 0
  | b :: tB' => if Qltb b a then S (np_searchsorted tB' a) else 0
  end.

(** [a[i]] with Python's wrap-around for negative [i]. *)
Definition py_index (a : list Q) (i : Z) : Q :=
  if (i <? 0)%Z then nth (Z.to_nat (Z.of_nat (List.length a) + i)) a 0
  else nth (Z.to_nat i) a 0.

(** [_sttc_na]: how many spikes of [tA] lie within [delt] of a spike of
    [tB]. *)
Definition _sttc_na (tA tB : list Q) (delt : Q) : nat :=
  match tB with
  | [] => 0
  | _ =>
      List.length
        (filter
           (fun a =>
              let iB := np_clip (Z.of_nat (np_searchsorted tB a)) 1
                                (Z.of_nat (List.length tB) - 1) in
              let dt_left := Qabs (py_index tB iB - a) in
              let dt_right := Qabs (py_index tB (iB - 1) - a) in
              Qleb (Qmin' dt_left dt_right) delt)
           tA)
  end.

(** One term of the coefficient: [(P - T) / (1 - P*T) if P*T != 1 else 0]. *)
Definition sttc_term (P T : fl) : fl :=
  if negb (Fl.eqb (Fl.mul P T) (Fin 1))
  then Fl.div (Fl.sub P T) (Fl.sub (Fin 1) (Fl.mul P T))
  else Fin 0.

(** [self.train[i]] for a position [i]. *)
Definition get_train (sd : SpikeData) (i : nat) : result (list Q) :=
  match nth_error (train sd) i with
  | Some t => Ok t
  | None => Err IndexError
  end.

Definition is_empty {A : Type} (l : list A) : bool :=
  match l with [] => true | _ => false end.

Definition spike_time_tiling (sd : SpikeData) (i j : nat) (delt : Q)
    : result fl :=
  tA <- get_train sd i ;;
  tB <- get_train sd j ;;
  if is_empty tA || is_empty tB then Ok (Fin 0)
  else
    let TA := Fl.div (Fin (_sttc_ta tA delt (length sd))) (Fin (length sd)) in
    let TB := Fl.div (Fin (_sttc_ta tB delt (length sd))) (Fin (length sd)) in
    let PA := Fl.div (Fl.of_nat (_sttc_na tA tB delt))
                     (Fl.of_nat (List.length tA)) in
    let PB := Fl.div (Fl.of_nat (_sttc_na tB tA delt))
                     (Fl.of_nat (List.length tB)) in
    let aa := sttc_term PA TB in
    let bb := sttc_term PB TA in
    Ok (Fl.div (Fl.add aa bb) (Fin 2)).

(** [spike_time_tilings]: ones on the diagonal, the coefficient of the
    unordered pair elsewhere. *)
Definition spike_time_tilings (sd : SpikeData) (delt : Q)
    : result (list (list fl)) :=
  mapM (fun i =>
          mapM (fun j =>
                  if Nat.eqb i j then Ok (Fin 1)
                  else spike_time_tiling sd (Nat.min i j) (Nat.max i j) delt)
               (seq 0 (N sd)))
       (seq 0 (N sd)).

(** ** Fano factors *)

Inductive raster_arg : Type :=
| SparseRaster (r : csr)
| DenseRaster (m : list (list Z)).

(** [x[mask] = v] on an array, for a mask as long as the array. *)
Definition assign_where (mask : list bool) (v : fl) (x : list fl) : list fl :=
  map (fun p : bool * fl => if fst p then v else snd p) (combine mask x).

Definition eq_zero_mask (x : list fl) : list bool :=
  map (fun v => Fl.eqb v (Fin 0)) x.

Definition zip_with {A B C : Type} (f : A -> B -> C) (a : list A) (b : list B)
    : list C :=
  map (fun p => f (fst p) (snd p)) (combine a b).

(** Row means of a dense array with [w] columns, as numpy computes them:
    the sum over the count (NaN when there is no column). *)
Definition np_row_mean (w : nat) (row : list Z) : fl :=
  Fl.div (Fl.of_Z (sumZ row)) (Fl.of_nat w).

Definition np_row_var (w : nat) (row : list Z) : fl :=
  let mu := np_row_mean w row in
  let dev2 := map (fun x => let d := Fl.sub (Fl.of_Z x) mu in Fl.mul d d) row in
  Fl.div (fold_right Fl.add (Fin 0) dev2) (Fl.of_nat w).

Definition row_width (m : list (list Z)) : nat :=
  match m with
  | [] => 0
  | row :: _ => List.length row
  end.

(** The values stored for each row of a CSR array, in storage order.
    In a raster every spike is a stored 1: a bin with three spikes holds
    three of them. *)
Definition stored_values (r : csr) : list (list Z) :=
  map (fun i => map snd (row_entries r i)) (seq 0 (n_rows r)).

(** scipy's [mean(axis=1)] multiplies by [1.0 / shape[1]]: a
    ZeroDivisionError when there is no column.  [values] are the values
    stored for each row. *)
Definition sparse_row_means {M : SparseMean} (r : csr)
    (values : list (list Z)) : result (list fl) :=
  if Nat.eqb (n_cols r) 0 then Err ZeroDivisionError
  else Ok (map (sparse_mean (n_cols r)) values).

(** The values of [raster.multiply(raster)] and of [spikes**2]: scipy
    adds up the entries stored for the same cell before it squares. *)
Definition square_rows (m : list (list Z)) : list (list Z) :=
  map (map (fun x => (x * x)%Z)) m.

Definition fano_factors {F : Float64} {M : SparseMean} (raster : raster_arg)
    : result (list fl) :=
  match raster with
  | SparseRaster r =>
      mean <- sparse_row_means r (stored_values r) ;;
      moment <- sparse_row_means r (square_rows (toarray r)) ;;
      (* moment[mean == 0] = 2 ; mean[mean == 0] = 1 *)
      let moment := assign_where (eq_zero_mask mean) (Fin 2) moment in
      let mean := assign_where (eq_zero_mask mean) (Fin 1) mean in
      Ok (zip_with (fun mo me => Fp.sub (Fp.div mo me) me) moment mean)
  | DenseRaster m =>
      let w := row_width m in
      let mean := map (np_row_mean w) m in
      let var := map (np_row_var w) m in
      (* mean[mean == 0] = var[mean == 0] = 1.0 : the targets are
         assigned from left to right, each mask evaluated in its turn *)
      let mean := assign_where (eq_zero_mask mean) (Fin 1) mean in
      let var := assign_where (eq_zero_mask mean) (Fin 1) var in
      Ok (zip_with Fl.div var mean)
  end.

(** ** Pearson correlation *)

Definition dotZ (a b : list Z) : Z := sumZ (zip_with Z.mul a b).

Definition sumF (l : list fl) : fl := fold_right Fl.add (Fin 0) l.

Definition dotF (a b : list fl) : fl := sumF (zip_with Fl.mul a b).

(** [np.multiply.outer(a, b)] *)
Definition outer {F : Float64} (a b : list fl) : list (list fl) :=
  map (fun x => map (fun y => Fp.mul x y) b) a.

Fixpoint set_nth (i : nat) (v : fl) (row : list fl) : list fl :=
  match row, i with
  | [], _ => []
  | _ :: row', O => v :: row'
  | x :: row', S i' => x :: set_nth i' v row'
  end.

Fixpoint fill_diagonal_from (i : nat) (v : fl) (m : list (list fl))
    : list (list fl) :=
  match m with
  | [] => []
  | row :: m' => set_nth i v row :: fill_diagonal_from (S i) v m'
  end.

(** [np.fill_diagonal(m, v)] *)
Definition fill_diagonal (v : fl) (m : list (list fl)) : list (list fl) :=
  fill_diagonal_from 0 v m.

(** [np.clip(x, -1, 1)] on floats; NaN passes through. *)
Definition clip_unit (x : fl) : fl :=
  if Fl.is_nan x then NaN
  else if Fl.ltb x (Fin (-1)) then Fin (-1)
  else if Fl.ltb (Fin 1) x then Fin 1
  else x.

Section Pearson.

Context {F : Float64} {M : SparseMean}.

(** [np.cov] with its defaults (rows are variables, [ddof = 1]). *)
Definition np_cov (m : list (list Z)) : list (list fl) :=
  let w := row_width m in
  let fact := if (w <=? 1)%nat then Fin 0 else Fl.of_nat (w - 1) in
  let X := map (fun row =>
                  map (fun x => Fl.sub (Fl.of_Z x) (np_row_mean w row)) row) m in
  map (fun ri => map (fun rj => Fl.mul (dotF ri rj) (Fl.div (Fin 1) fact)) X) X.

(** [np.corrcoef]: the covariance matrix divided by the standard
    deviations of its row and of its column, clipped to [-1, 1].  For a
    single row numpy returns the scalar [c / c]; it is kept here as a
    one-by-one matrix. *)
Definition np_corrcoef (m : list (list Z)) : list (list fl) :=
  let c := np_cov m in
  match c with
  | [[c00]] => [[Fl.div c00 c00]]
  | _ =>
      let stddev := map np_sqrt (map (fun p => nth (fst p) (snd p) NaN)
                                     (combine (seq 0 (List.length c)) c)) in
      let c1 := zip_with (fun row s => map (fun x => Fl.div x s) row) c stddev in
      let c2 := map (fun row => zip_with Fl.div row stddev) c1 in
      map (map clip_unit) c2
  end.

(** The sparse-friendly formula of [pearson].  scipy divides a sparse
    array by a scalar by multiplying it with the float64 [1. / scalar],
    which Python refuses to compute for 0. *)
Definition pearson_sparse (r : csr) : result (list (list fl)) :=
  let m := toarray r in
  if Nat.eqb (n_cols r) 0 then Err ZeroDivisionError
  else
    let inv := Fp.div (Fin 1) (Fl.of_nat (n_cols r)) in
    let Exy := map (fun ri =>
                      map (fun rj => Fp.mul (Fl.of_Z (dotZ ri rj)) inv) m) m in
    Ex <- sparse_row_means r (stored_values r) ;;
    Ex2 <- sparse_row_means r (square_rows m) ;;
    let sx := map np_sqrt
                  (zip_with Fp.sub Ex2 (map (fun e => Fp.mul e e) Ex)) in
    (* sx[sx == 0] = np.inf *)
    let sx := assign_where (eq_zero_mask sx) PInf sx in
    let Exx := outer Ex Ex in
    let sxx := outer sx sx in
    let corr := zip_with (zip_with Fp.div)
                         (zip_with (zip_with Fp.sub) Exy Exx) sxx in
    Ok (fill_diagonal (Fin 1) corr).

Definition pearson (spikes : raster_arg) : result (list (list fl)) :=
  match spikes with
  | DenseRaster m => Ok (np_corrcoef m)
  | SparseRaster r => pearson_sparse r
  end.

End Pearson.

(** ** Deviation from criticality *)

Record DCCResult : Type := mkDCCResult {
  dcc : fl;
  p_size : fl;
  p_duration : fl
}.

(** [np.quantile(a, q)] with linear interpolation: ValueError for [q]
    outside [0, 1], NaN for an empty array. *)
Definition np_quantile (a : list Z) (q : Q) : result fl :=
  if Qltb q 0 || Qltb 1 q then Err ValueError
  else
    match a with
    | [] => Ok NaN
    | _ =>
        let s := np_sort_int a in
        let n := Z.of_nat (List.length a) in
        let h := q * inject_Z (n - 1) in
        let lo := Qfloor h in
        let hi := Z.min (lo + 1) (n - 1) in
        let g := h - inject_Z lo in
        let vlo := nth (Z.to_nat lo) s 0%Z in
        let vhi := nth (Z.to_nat hi) s 0%Z in
        Ok (Fin (inject_Z vlo + g * inject_Z (vhi - vlo)))
    end.

Section Criticality.

Context {F : Float64}.

(** The power-law fit [_p_and_alpha(data, N, pval_truncated)] (package
    [powerlaw], with random surrogates) and the log-log least-squares
    slope [np.polyfit(np.log(durations), np.log(sizes), 1)[0]] are
    external numerics. *)
Variable _p_and_alpha : list Z -> nat -> Q -> result (fl * fl).
Variable loglog_slope : list Z -> list Z -> result fl.

Definition deviation_from_criticality (sd : SpikeData) (quantile bin_size : Q)
    (Nsur : nat) (pval_truncated : Q) : result DCCResult :=
  counts <- binned sd bin_size ;;
  thresh <- np_quantile counts quantile ;;
  ds <- avalanche_duration_size sd thresh bin_size ;;
  let durations := fst ds in
  let sizes := snd ds in
  if Nat.eqb (List.length durations) 0
  then Ok (mkDCCResult PInf (Fin 1) (Fin 1))
  else
    ps <- _p_and_alpha sizes Nsur pval_truncated ;;
    pd <- _p_and_alpha durations Nsur pval_truncated ;;
    tau_fit <- loglog_slope durations sizes ;;
    let tau_pred := Fl.div (Fl.sub (snd pd) (Fin 1)) (Fl.sub (snd ps) (Fin 1)) in
    Ok (mkDCCResult (Fl.abs (Fl.sub tau_pred tau_fit)) (fst ps) (fst pd)).

End Criticality.

(** A computable square root for the idealised arithmetic: exact where
    the argument is the square of a rational, rounded down to a multiple
    of the argument's denominator otherwise; it follows IEEE on the
    special values. *)
Definition sqrt_model (x : fl) : fl :=
  match x with
  | Fin q =>
      if Qltb q 0 then NaN
      else Fin (Z.sqrt (Qnum q * Zpos (Qden q)) # Qden q)
  | PInf => PInf
  | NInf => NaN
  | NaN => NaN
  end.

(** ** Two arithmetics *)

(** Idealised arithmetic: nothing is rounded, no integer wraps, and the
    length is a Python number.  It is the arithmetic of every statement
    below that names no other. *)
#[global] Instance exact_arith : Float64 := {|
  rnd := Fin;
  np_sqrt := sqrt_model;
  astype_int := fun x => match x with
                         | Fin q => py_trunc q
                         | _ => (- 2 ^ 63)%Z
                         end;
  length_over := fun a b => if Qeqb b 0 then Err ZeroDivisionError
                            else Ok (Fin (a / b))
|}.

#[global] Instance exact_mean : SparseMean := {|
  sparse_mean := fun n row => Fl.div (Fl.of_Z (sumZ row)) (Fl.of_nat n)
|}.

(** IEEE 754 binary64, round to nearest, ties to even. *)

(** [num / den] rounded to the nearest integer, ties to even, for
    [num >= 0] and [den > 0]. *)
Definition div_half_even (num den : Z) : Z :=
  let q := (num / den)%Z in
  let r := (num mod den)%Z in
  if (2 * r <? den)%Z then q
  else if (den <? 2 * r)%Z then (q + 1)%Z
  else if Z.even q then q else (q + 1)%Z.

(** The integer part of the binary logarithm of [n / d], for positive
    [n] and [d]. *)
Definition log2_ratio (n d : Z) : Z :=
  let e := (Z.log2 n - Z.log2 d)%Z in
  let below := if (0 <=? e)%Z then (n <? d * 2 ^ e)%Z
               else (n * 2 ^ (- e) <? d)%Z in
  if below then (e - 1)%Z else e.

(** [m * 2^E] *)
Definition scaled (m E : Z) : Q :=
  if (0 <=? E)%Z then inject_Z (m * 2 ^ E)
  else Qmake m (Z.to_pos (2 ^ (- E))).

(** The binary64 nearest to [q]: 53 significant bits, exponents down to
    the subnormals (a unit in the last place of at least [2^-1074]), an
    infinity from [2^1024] on. *)
Definition round_b64 (q : Q) : fl :=
  let n := Z.abs (Qnum q) in
  let d := Zpos (Qden q) in
  if (n =? 0)%Z then Fin 0
  else
    let E := Z.max (log2_ratio n d - 52) (-1074) in
    let m := if (0 <=? E)%Z then div_half_even n (d * 2 ^ E)
             else div_half_even (n * 2 ^ (- E)) d in
    if (2 ^ 1024 <=? (if (0 <=? E)%Z then m * 2 ^ E else 0))%Z
    then (if (Qnum q <? 0)%Z then NInf else PInf)
    else Fin (scaled (Z.sgn (Qnum q) * m) E).

(** The correctly rounded square root. *)
Definition sqrt_b64 (x : fl) : fl :=
  match x with
  | Fin q =>
      let n := Qnum q in
      let d := Zpos (Qden q) in
      if (n <? 0)%Z then NaN
      else if (n =? 0)%Z then Fin 0
      else
        let E := (log2_ratio n d / 2 - 52)%Z in
        let num := if (0 <=? E)%Z then n else (n * 4 ^ (- E))%Z in
        let den := if (0 <=? E)%Z then (d * 4 ^ E)%Z else d in
        let s := Z.sqrt (num / den) in
        let up := ((4 * s * s + 4 * s + 1) * den)%Z in
        let m := if (up <? 4 * num)%Z then (s + 1)%Z
                 else if (4 * num <? up)%Z then s
                 else if Z.even s then s else (s + 1)%Z in
        Fin (scaled m E)
  | PInf => PInf
  | NInf => NaN
  | NaN => NaN
  end.

(** The conversion to int64 as x86-64 performs it: a value outside
    int64, an infinity or NaN becomes [-2^63]. *)
Definition int64_of (x : fl) : Z :=
  match x with
  | Fin q =>
      let z := py_trunc q in
      if ((- 2 ^ 63 <=? z) && (z <? 2 ^ 63))%Z then z else (- 2 ^ 63)%Z
  | _ => (- 2 ^ 63)%Z
  end.

(** binary64 with the length held as a Python float.  The exact result
    of an operation is brought to lowest terms before it is rounded. *)
Definition binary64 : Float64 := {|
  rnd := fun q => round_b64 (Qred q);
  np_sqrt := sqrt_b64;
  astype_int := int64_of;
  length_over := fun a b => if Qeqb b 0 then Err ZeroDivisionError
                            else Ok (round_b64 (Qred (a / b)))
|}.

(** A mean that adds the scaled entries from left to right. *)
Definition mean_in_row_order (F : Float64) : SparseMean := {|
  sparse_mean := fun n row =>
    let inv := Fp.div (Fin 1) (Fl.of_nat n) in
    fold_left (fun acc x => Fp.add acc (Fp.mul (Fl.of_Z x) inv)) row (Fin 0)
|}.

(** The float64 that a decimal literal denotes. *)
Definition f64 (q : Q) : Q :=
  match round_b64 (Qred q) with
  | Fin v => Qred v
  | _ => 0
  end.

(** ** Merged views of a store *)

Section Merge.
Context {A : Type} (key : A -> Q).

(** One step of [heapq.merge]: among the heads of the iterables that are
    not exhausted, the one with the smallest key, the earliest iterable
    winning ties; with the position of its iterable. *)
Fixpoint min_head (its : list (list A)) : option (nat * A) :=
  match its with
  | [] => None
  | it :: rest =>
      match it, min_head rest with
      | [], None => None
      | [], Some (k, y) => Some (S k, y)
      | x :: _, None => Some (0%nat, x)
      | x :: _, Some (k, y) =>
          if Qleb (key x) (key y) then Some (0%nat, x) else Some (S k, y)
      end
  end.

(** Advance the [k]-th iterable. *)
Fixpoint pop_head (k : nat) (its : list (list A)) : list (list A) :=
  match its, k with
  | [], _ => []
  | it :: rest, O => tl it :: rest
  | it :: rest, S k' => it :: pop_head k' rest
  end.

Fixpoint merge_steps (fuel : nat) (its : list (list A)) : list A :=
  match fuel with
  | O => []
  | S fuel' =>
      match min_head its with
      | None => []
      | Some (k, x) => x :: merge_steps fuel' (pop_head k its)
      end
  end.

(** [heapq.merge] of the iterables [its] under [key], run until every
    iterable is exhausted: one step per item. *)
Definition heapq_merge (its : list (list A)) : list A :=
  merge_steps (List.length (concat its)) its.

End Merge.

(** [times]: all spike times, merged. *)
Definition times (sd : SpikeData) : list Q :=
  heapq_merge (fun t => t) (train sd).

(** [events]: (index, time) pairs of all units, merged by time. *)
Definition events (sd : SpikeData) : list (Z * Q) :=
  heapq_merge (fun e : Z * Q => snd e)
              (map (fun it : nat * list Q =>
                      map (fun t => (Z.of_nat (fst it), t)) (snd it))
                   (combine (seq 0 (N sd)) (train sd))).

(** [idces_times]: the events as two parallel arrays. *)
Definition idces_times (sd : SpikeData) : list Z * list Q :=
  (map fst (events sd), map snd (events sd)).

(** ** Selecting units *)

(** [subset(units)] with [by=None] on a store without per-neuron
    attributes: the store built from the units whose position is in
    [units].  On a store with attributes the method is
    [subset_attributed] below. *)
Definition subset (sd : SpikeData) (units : list Z) : result SpikeData :=
  let kept :=
    map snd
        (filter (fun it : nat * list Q =>
                   existsb (Z.eqb (Z.of_nat (fst it))) units)
                (combine (seq 0 (N sd)) (train sd))) in
  SpikeData_init (Trains kept) (Some (Z.of_nat (List.length kept)))
                 (Some (length sd)).

(** [l[i]] on a Python list: a negative index counts from the end. *)
Definition py_list_index {A : Type} (l : list A) (i : Z) : result A :=
  let n := Z.of_nat (List.length l) in
  let k := if (i <? 0)%Z then (n + i)%Z else i in
  if ((0 <=? k) && (k <? n))%Z
  then match nth_error l (Z.to_nat k) with
       | Some x => Ok x
       | None => Err IndexError
       end
  else Err IndexError.

(** The attribute list of [subset(units)]: taken by index when the
    store has at least as many attributes as units are asked for, empty
    otherwise. *)
Definition subset_attributes {A : Type} (neuron_attributes : list A)
    (units : list Z) : result (list A) :=
  if (List.length units <=? List.length neuron_attributes)%nat
  then mapM (py_list_index neuron_attributes) units
  else Ok [].

(** [subset(units)] on a store with per-neuron attributes: the
    attributes are picked before the new store is constructed. *)
Definition subset_attributed {A : Type} (sd : SpikeData)
    (neuron_attributes : list A) (units : list Z)
    : result (SpikeData * list A) :=
  attrs <- subset_attributes neuron_attributes units ;;
  sd' <- subset sd units ;;
  Ok (sd', attrs).

(** [interspike_intervals] *)
Definition interspike_intervals (sd : SpikeData) : list (list Q) :=
  map np_diff (train sd).

(** ** Latencies *)

(** [np.argmin]: the first position of the smallest entry. *)
Fixpoint np_argmin (l : list Q) : nat :=
  match l with
  | [] => 0
  | x :: l' =>
      match l' with
      | [] => 0
      | _ => if Qleb x (nth (np_argmin l') l' 0) then 0 else S (np_argmin l')
      end
  end.

(** The latency from [time] to the nearest spike of a non-empty train,
    kept when it is within the window. *)
Definition nearest_latency (tr : list Q) (window_ms time : Q) : list Q :=
  let latency := map (fun s => s - time) tr in
  let abs_diff_ind := np_argmin (map Qabs latency) in
  let lat := nth abs_diff_ind latency 0 in
  if Qleb (Qabs lat) window_ms then [lat] else [].

(** [latencies(times, window_ms)] *)
Definition latencies (sd : SpikeData) (times : list Q) (window_ms : Q)
    : list (list Q) :=
  match times with
  | [] => []
  | _ =>
      map (fun tr =>
             match tr with
             | [] => []
             | _ => flat_map (nearest_latency tr window_ms) times
             end)
          (train sd)
  end.

(** [latencies_to_index(i, window_ms)] *)
Definition latencies_to_index (sd : SpikeData) (i : nat) (window_ms : Q)
    : result (list (list Q)) :=
  tr <- get_train sd i ;; Ok (latencies sd tr window_ms).

(** ** Histogram helpers and burst detection *)

(** The inner loop of [cumulative_moving_average]:
    [cma = (cma * i + h[i]) / (i + 1)]. *)
Fixpoint cma_from (i : nat) (cma : Q) (h : list Q) : list Q :=
  match h with
  | [] => []
  | x :: h' =>
      let c := (cma * inject_Z (Z.of_nat i) + x) / inject_Z (Z.of_nat i + 1) in
      c :: cma_from (S i) c h'
  end.

Definition cumulative_moving_average (hist : list (list Q)) : list (list Q) :=
  map (cma_from 0 0) hist.

(** The first loop of [burst_detection], at position [i] with
    [spike_num_burst = cur]: the list of [start, count] entries. *)
Fixpoint burst_loop (burst_threshold : Q) (spike_num_thr : Z)
    (i cur : Z) (spike_times : list Q) : list (Z * Z) :=
  match spike_times with
  | t0 :: ((t1 :: _) as rest) =>
      if Qleb (t1 - t0) burst_threshold
      then burst_loop burst_threshold spike_num_thr (i + 1) (cur + 1) rest
      else if (spike_num_thr <=? cur)%Z
           then (i - cur + 1, cur)%Z
                :: burst_loop burst_threshold spike_num_thr (i + 1) 1 rest
           else burst_loop burst_threshold spike_num_thr (i + 1) 1 rest
  | _ => []
  end.

(** [burst_detection]: the burst entries and the spike times they cover. *)
Definition burst_detection (spike_times : list Q) (burst_threshold : Q)
    (spike_num_thr : Z) : list (Z * Z) * list Q :=
  let spike_num_list :=
    burst_loop burst_threshold spike_num_thr 0 1 spike_times in
  let burst_set :=
    flat_map (fun loc : Z * Z =>
                map (fun k => py_index spike_times (fst loc + k))
                    (py_range (snd loc)))
             spike_num_list in
  (spike_num_list, burst_set).

(** ** Burstiness *)



(** ** The older module *)

Module Legacy.

(** [spike_time_tiling] of [braingeneers/analysis.py]: no early return;
    the proportion of an empty train is taken to be 1.0. *)
Definition spike_time_tiling (sd : SpikeData) (i j : nat) (delt : Q)
    : result fl :=
  tA <- get_train sd i ;;
  tB <- get_train sd j ;;
  let TA := Fl.div (Fin (_sttc_ta tA delt (length sd))) (Fin (length sd)) in
  let TB := Fl.div (Fin (_sttc_ta tB delt (length sd))) (Fin (length sd)) in
  let PA := if is_empty tA then Fin 1
            else Fl.div (Fl.of_nat (_sttc_na tA tB delt))
                        (Fl.of_nat (List.length tA)) in
  let PB := if is_empty tB then Fin 1
            else Fl.div (Fl.of_nat (_sttc_na tB tA delt))
                        (Fl.of_nat (List.length tB)) in
  let aa := sttc_term PA TB in
  let bb := sttc_term PB TA in
  Ok (Fl.div (Fl.add aa bb) (Fin 2)).

(** The constructor of [braingeneers/analysis.py] is the package's
    without the [N] keyword: the same parsing, the same two-element
    sniffing, the same sort and default length, and no padding. *)
Definition SpikeData_init (arg : ctor_arg) (len : option Q) : result SpikeData :=
  SpikeData_init arg None len.

(** [t[(t >= start) & (t < end)] - start] *)
Definition slice_train (start stop : Q) (ts : list Q) : list Q :=
  map (fun t => t - start)
      (filter (fun t => Qleb start t && Qltb t stop) ts).

(** [subtime(start, end)] of the older module: no default bounds, no
    counting from the end, no clipping. *)
Definition subtime (sd : SpikeData) (start stop : Q) : result SpikeData :=
  SpikeData_init (Trains (map (slice_train start stop) (train sd)))
                 (Some (stop - start)).

(** The loop of the older [avalanches] over the bin counts, with
    [this_av] the run collected so far: a run is yielded when an inactive
    bin follows it, and once more when the counts end. *)
Fixpoint avalanches_loop (thresh : fl) (this_av : list Z) (counts : list Z)
    : list (list Z) :=
  match counts with
  | [] => match this_av with [] => [] | _ => [this_av] end
  | count :: counts' =>
      if is_active thresh count
      then avalanches_loop thresh (this_av ++ [count]) counts'
      else match this_av with
           | [] => avalanches_loop thresh [] counts'
           | _ => this_av :: avalanches_loop thresh [] counts'
           end
  end.

Definition avalanches_of_counts (thresh : fl) (counts : list Z)
    : list (list Z) :=
  avalanches_loop thresh [] counts.

End Legacy.

(** ** The specification's formulations, for comparison with the code *)

(** §4.2: [bin_index = ceil(t / bin_size) - 1], except that [t = 0] is
    assigned to bin 0. *)
Definition spec_bin_index (bin_size t : Q) : Z :=
  if Qeqb t 0 then 0%Z else (Qceiling (t / bin_size) - 1)%Z.

(** §4.1: the kept range is [(start, end]] unless [start == 0], in which
    case it is [[0, end]]. *)
Definition spec_in_slice (start stop t : Q) : bool :=
  if Qeqb start 0 then Qleb 0 t && Qleb t stop
  else Qltb start t && Qleb t stop.

(** How often the time [x] occurs in a train. *)
Definition count_time (x : Q) (ts : list Q) : nat :=
  List.length (filter (Qeqb x) ts).

(** §4.4: the two-state segmenter.  An active state remembers the counts
    of its run and whether its onset was observed. *)
Inductive seg_state : Type :=
| INACTIVE
| ACTIVE (onset_observed : bool) (run : list Z).

Definition seg_first (thresh : fl) (count : Z) : seg_state :=
  if is_active thresh count then ACTIVE false [count] else INACTIVE.

(** One bin: the next state and the avalanche emitted, if any. *)
Definition seg_step (thresh : fl) (s : seg_state) (count : Z)
    : seg_state * list (list Z) :=
  if is_active thresh count then
    match s with
    | INACTIVE => (ACTIVE true [count], [])
    | ACTIVE seen run => (ACTIVE seen (run ++ [count]), [])
    end
  else
    match s with
    | ACTIVE true run => (INACTIVE, [run])
    | _ => (INACTIVE, [])
    end.

Fixpoint seg_run (thresh : fl) (s : seg_state) (counts : list Z)
    : list (list Z) :=
  match counts with
  | [] => []
  | c :: counts' =>
      snd (seg_step thresh s c) ++ seg_run thresh (fst (seg_step thresh s c)) counts'
  end.

(** A run still open when the sequence ends is dropped. *)
Definition spec_segmenter (thresh : fl) (counts : list Z) : list (list Z) :=
  match counts with
  | [] => []
  | c :: counts' => seg_run thresh (seg_first thresh c) counts'
  end.

Definition entry (m : list (list fl)) (i j : nat) : option fl :=
  match nth_error m i with
  | Some row => nth_error row j
  | None => None
  end.

(** The values stored for unit [i] of a sparse raster, and its row of
    counts. *)
Definition unit_values (r : csr) (i : nat) : list Z :=
  map snd (row_entries r i).

Definition unit_row (r : csr) (i : nat) : list Z :=
  map (cell (row_entries r i)) (seq 0 (n_cols r)).

(** A unit's mean count as the sparse formulas compute it. *)
Definition unit_mean {M : SparseMean} (r : csr) (i : nat) : fl :=
  sparse_mean (n_cols r) (unit_values r i).

(** A unit's standard deviation as [pearson] uses it: the square root
    of the float64 difference [Ex2 - Ex**2], replaced by [inf] when it
    is zero. *)
Definition sigma_or_inf {F : Float64} {M : SparseMean} (r : csr) (i : nat)
    : fl :=
  let ex := unit_mean r i in
  let ex2 := sparse_mean (n_cols r)
                         (map (fun x => (x * x)%Z) (unit_row r i)) in
  let s := np_sqrt (Fp.sub ex2 (Fp.mul ex ex)) in
  if Fl.eqb s (Fin 0) then PInf else s.

(** The pieces of [avalanches], named for the proofs: the toggles of a
    count sequence, the (up, down) pairs taken from them, and the slices
    of counts they cut out. *)
Definition toggles (thresh : fl) (counts : list Z) : list nat :=
  np_where (np_diff_bool (map (is_active thresh) counts)).

Definition toggle_pairs (T : list nat) : list (nat * nat) :=
  combine (stride2 T) (stride2 (skipn 1 T)).

Definition cut_runs (counts : list Z) (pairs : list (nat * nat))
    : list (list Z) :=
  map (fun ud => py_slice (fst ud + 1) (snd ud + 1) counts) pairs.

Definition code_runs (thresh : fl) (counts : list Z) : list (list Z) :=
  match counts with
  | [] => []
  | c :: _ =>
      cut_runs counts
               (toggle_pairs (if is_active thresh c
                              then skipn 1 (toggles thresh counts)
                              else toggles thresh counts))
  end.

(** Whether the per-unit selection succeeds, and how many spikes each
    unit receives, depends on the number of times only. *)
Definition same_shape (r r' : result (list (list Q))) : Prop :=
  match r, r' with
  | Ok l, Ok l' => map (@List.length Q) l = map (@List.length Q) l'
  | Err e, Err e' => e = e'
  | _, _ => False
  end.

(** A train in non-decreasing order. *)
Inductive ascending : list Q -> Prop :=
| ascending_nil : ascending []
| ascending_cons x l :
    (forall y, In y l -> x <= y) -> ascending l -> ascending (x :: l).

(** The definition of an avalanche in §3, said directly: [run] is a
    non-empty stretch of bins above the threshold, with a bin at or below
    the threshold immediately before it and immediately after it. *)
Definition bounded_run (thresh : fl) (counts run : list Z) : Prop :=
  exists (pre post : list Z) (x y : Z),
    counts = pre ++ x :: run ++ y :: post
    /\ is_active thresh x = false
    /\ is_active thresh y = false
    /\ run <> []
    /\ Forall (fun c => is_active thresh c = true) run.

(** [counts] begins with the whole of [run], closed by an inactive bin. *)
Definition leading_run (thresh : fl) (counts run : list Z) : Prop :=
  exists (y : Z) (post : list Z),
    counts = run ++ y :: post
    /\ is_active thresh y = false
    /\ run <> []
    /\ Forall (fun c => is_active thresh c = true) run.

(** The run [open] continues with active bins of [counts] up to an
    inactive bin, and [run] is the whole of it. *)
Definition closing_run (thresh : fl) (counts open run : list Z) : Prop :=
  exists (p : list Z) (y : Z) (post : list Z),
    counts = p ++ y :: post
    /\ Forall (fun c => is_active thresh c = true) p
    /\ is_active thresh y = false
    /\ run = open ++ p.

(** * Properties *)

(** ** Comparisons on rationals *)

Lemma Qeqb_true (a b : Q) : Qeqb a b = true <-> a == b.
Proof. apply Qeq_bool_iff. Qed.

Lemma Qleb_true (a b : Q) : Qleb a b = true <-> a <= b.
Proof. apply Qle_bool_iff. Qed.

Lemma Qltb_true (a b : Q) : Qltb a b = true <-> a < b.
Proof.
  unfold Qltb. rewrite negb_true_iff.
  split; intro H.
  - apply Qnot_le_lt. intro Hle. apply Qle_bool_iff in Hle. congruence.
  - destruct (Qle_bool b a) eqn:E; [|reflexivity].
    apply Qle_bool_iff in E. exfalso. lra.
Qed.

Lemma Qeqb_false (a b : Q) : Qeqb a b = false <-> ~ a == b.
Proof.
  rewrite <- Qeqb_true. destruct (Qeqb a b); split; intros; congruence.
Qed.

Lemma Qleb_false (a b : Q) : Qleb a b = false <-> b < a.
Proof.
  rewrite <- Qltb_true. unfold Qltb, Qleb.
  destruct (Qle_bool a b); simpl; split; intros; congruence.
Qed.

Lemma Qltb_false (a b : Q) : Qltb a b = false <-> b <= a.
Proof.
  rewrite <- Qleb_true. unfold Qltb, Qleb.
  destruct (Qle_bool b a); simpl; split; intros; congruence.
Qed.

Ltac qbool :=
  repeat match goal with
    | H : Qeqb _ _ = true |- _ => apply Qeqb_true in H
    | H : Qeqb _ _ = false |- _ => apply Qeqb_false in H
    | H : Qleb _ _ = true |- _ => apply Qleb_true in H
    | H : Qleb _ _ = false |- _ => apply Qleb_false in H
    | H : Qltb _ _ = true |- _ => apply Qltb_true in H
    | H : Qltb _ _ = false |- _ => apply Qltb_false in H
    | |- Qeqb _ _ = true => apply Qeqb_true
    | |- Qeqb _ _ = false => apply Qeqb_false
    | |- Qleb _ _ = true => apply Qleb_true
    | |- Qleb _ _ = false => apply Qleb_false
    | |- Qltb _ _ = true => apply Qltb_true
    | |- Qltb _ _ = false => apply Qltb_false
    end.

(** ** Spike time tiling on empty trains *)

(** C3: for a pair of units one of whose trains is empty, the spike time
    tiling coefficient is exactly [0.0], returned as a value. *)
Theorem spike_time_tiling_empty_train :
  forall (sd : SpikeData) (i j : nat) (delt : Q) (tA tB : list Q),
    nth_error (train sd) i = Some tA ->
    nth_error (train sd) j = Some tB ->
    tA = [] \/ tB = [] ->
    spike_time_tiling sd i j delt = Ok (Fin 0).
Proof.
  intros sd i j delt tA tB HA HB Hempty.
  unfold spike_time_tiling, get_train.
  rewrite HA, HB. simpl.
  destruct Hempty as [-> | ->]; simpl.
  - reflexivity.
  - rewrite orb_true_r. reflexivity.
Qed.

Lemma spike_time_tiling_empty_train_witness :
  spike_time_tiling (mkSpikeData [[1; 2; 3]; []] 10) 0 1 20 = Ok (Fin 0).
Proof.
  apply (spike_time_tiling_empty_train
           (mkSpikeData [[1; 2; 3]; []] 10) 0 1 20 [1; 2; 3] []).
  - reflexivity.
  - reflexivity.
  - right. reflexivity.
Defined.

Lemma mapM_ok {A B : Type} (f : A -> result B) (l : list A) :
  (forall x, In x l -> exists y, f x = Ok y) ->
  exists r : list B,
    mapM f l = Ok r
    /\ forall i x, nth_error l i = Some x ->
                   exists y, f x = Ok y /\ nth_error r i = Some y.
Proof.
  induction l as [|a l IH]; intro Hall.
  - exists []. split; [reflexivity|]. intros [|i] x H; discriminate.
  - destruct (Hall a (or_introl eq_refl)) as [y Hy].
    destruct IH as [r [Hr Hnth]].
    { intros x Hx. apply Hall. right. exact Hx. }
    exists (y :: r). split.
    + simpl. rewrite Hy. simpl. rewrite Hr. reflexivity.
    + intros [|i] x Hx; simpl in Hx.
      * injection Hx as <-. exists y. split; [exact Hy|reflexivity].
      * apply Hnth. exact Hx.
Qed.

Lemma spike_time_tiling_total (sd : SpikeData) (i j : nat) (delt : Q) :
  (i < N sd)%nat -> (j < N sd)%nat ->
  exists v, spike_time_tiling sd i j delt = Ok v.
Proof.
  intros Hi Hj. unfold spike_time_tiling, get_train, N in *.
  destruct (nth_error (train sd) i) as [tA|] eqn:EA;
    [|apply nth_error_None in EA; lia].
  destruct (nth_error (train sd) j) as [tB|] eqn:EB;
    [|apply nth_error_None in EB; lia].
  simpl. destruct (is_empty tA || is_empty tB); eexists; reflexivity.
Qed.

(** In the full matrix, too, the cell of a pair with an empty train is 0
    off the diagonal, and building the matrix never raises. *)
Lemma spike_time_tilings_empty_train (sd : SpikeData) (delt : Q) :
  exists M : list (list fl),
    spike_time_tilings sd delt = Ok M
    /\ forall (i j : nat) (tA tB : list Q),
        i <> j ->
        nth_error (train sd) i = Some tA ->
        nth_error (train sd) j = Some tB ->
        tA = [] \/ tB = [] ->
        entry M i j = Some (Fin 0).
Proof.
  unfold spike_time_tilings.
  set (cellf := fun i j => if Nat.eqb i j then Ok (Fin 1)
                           else spike_time_tiling sd (Nat.min i j)
                                                  (Nat.max i j) delt).
  destruct (mapM_ok (fun i => mapM (cellf i) (seq 0 (N sd))) (seq 0 (N sd)))
    as [M [HM Hrows]].
  { intros i Hi. apply in_seq in Hi.
    destruct (mapM_ok (cellf i) (seq 0 (N sd))) as [row [Hrow _]].
    - intros j Hj. apply in_seq in Hj. unfold cellf.
      destruct (Nat.eqb i j); [eexists; reflexivity|].
      apply spike_time_tiling_total; lia.
    - exists row. exact Hrow. }
  exists M. split; [exact HM|].
  intros i j tA tB Hij HA HB Hempty.
  assert (Hi : (i < N sd)%nat) by (apply nth_error_Some; congruence).
  assert (Hj : (j < N sd)%nat) by (apply nth_error_Some; congruence).
  assert (Hseq : forall k, (k < N sd)%nat -> nth_error (seq 0 (N sd)) k = Some k).
  { intros k Hk. rewrite nth_error_seq.
    destruct (Nat.ltb_spec k (N sd)); [reflexivity|lia]. }
  destruct (Hrows i i (Hseq i Hi)) as [row [Hrow Hnth]].
  unfold entry. rewrite Hnth.
  destruct (mapM_ok (cellf i) (seq 0 (N sd))) as [row' [Hrow' Hcells]].
  { intros k Hk. apply in_seq in Hk. unfold cellf.
    destruct (Nat.eqb i k); [eexists; reflexivity|].
    apply spike_time_tiling_total; lia. }
  assert (row' = row) by congruence. subst row'.
  destruct (Hcells j j (Hseq j Hj)) as [v [Hv Hvnth]].
  rewrite Hvnth. f_equal. unfold cellf in Hv.
  assert (Hne : Nat.eqb i j = false) by (apply Nat.eqb_neq; exact Hij).
  rewrite Hne in Hv.
  assert (H0 : spike_time_tiling sd (Nat.min i j) (Nat.max i j) delt
               = Ok (Fin 0)).
  { unfold spike_time_tiling, get_train.
    destruct (Nat.le_ge_cases i j) as [Hle | Hge].
    - rewrite (Nat.min_l i j Hle), (Nat.max_r i j Hle), HA, HB. simpl.
      destruct Hempty as [-> | ->]; simpl;
        [reflexivity|rewrite orb_true_r; reflexivity].
    - rewrite (Nat.min_r i j Hge), (Nat.max_l i j Hge), HA, HB. simpl.
      destruct Hempty as [-> | ->]; simpl;
        [rewrite orb_true_r; reflexivity|reflexivity]. }
  congruence.
Qed.

(** The older module does not return 0 there: an empty train against a
    train that does not tile the whole recording gives one half. *)
Lemma legacy_spike_time_tiling_empty_train :
  exists v : fl,
    Legacy.spike_time_tiling (mkSpikeData [[1; 2; 3]; []] 10) 0 1 1 = Ok v
    /\ Fl.eqb v (Fin (1 # 2)) = true.
Proof. eexists. split; [vm_compute; reflexivity|reflexivity]. Qed.

(** ** The criticality estimator without avalanches *)

(** C7: when the avalanche extraction at the quantile threshold yields no
    avalanche, the estimator returns [DCCResult(inf, 1.0, 1.0)] as a
    value, whatever the power-law fit would do: the result is the same
    for every fitting procedure, also for one that always fails. *)
Theorem dcc_no_avalanches :
  forall (F : Float64)
         (fit : list Z -> nat -> Q -> result (fl * fl))
         (slope : list Z -> list Z -> result fl)
         (sd : SpikeData) (quantile bin_size : Q) (Nsur : nat) (pval : Q)
         (counts : list Z) (thresh : fl),
    binned sd bin_size = Ok counts ->
    np_quantile counts quantile = Ok thresh ->
    avalanches sd thresh bin_size = Ok [] ->
    deviation_from_criticality fit slope sd quantile bin_size Nsur pval
    = Ok (mkDCCResult PInf (Fin 1) (Fin 1)).
Proof.
  intros F fit slope sd quantile bin_size Nsur pval counts thresh Hb Hq Hav.
  unfold deviation_from_criticality, avalanche_duration_size.
  rewrite Hb. simpl. rewrite Hq. simpl. rewrite Hav. reflexivity.
Qed.

Lemma dcc_no_avalanches_witness :
  @deviation_from_criticality binary64
    (fun _ _ _ => Err FitFailure) (fun _ _ => Err FitFailure)
    (mkSpikeData [[1]] 10) (35 # 100) 40 1000 (5 # 100)
  = Ok (mkDCCResult PInf (Fin 1) (Fin 1)).
Proof.
  eapply (dcc_no_avalanches binary64 _ _
            (mkSpikeData [[1]] 10) (35 # 100) 40 1000 (5 # 100)).
  - vm_compute. reflexivity.
  - vm_compute. reflexivity.
  - vm_compute. reflexivity.
Defined.

(** ** Construction from index and time sequences *)

Lemma mask_select_length_mismatch {A : Type} (mask : list bool) (a : list A) :
  List.length mask <> List.length a -> mask_select mask a = Err IndexError.
Proof.
  revert a. induction mask as [|b mask IH]; intros [|x a] Hlen; simpl in *;
    try reflexivity; try congruence.
  rewrite IH by congruence. reflexivity.
Qed.

Lemma mask_select_length_match {A : Type} (mask : list bool) (a : list A) :
  List.length mask = List.length a ->
  mask_select mask a = Ok (map snd (filter fst (combine mask a))).
Proof.
  revert a. induction mask as [|b mask IH]; intros [|x a] Hlen; simpl in *;
    try reflexivity; try congruence.
  rewrite IH by congruence. simpl. destruct b; reflexivity.
Qed.

Lemma fold_max_ge_start (l : list Z) (k : Z) : (k <= fold_left Z.max l k)%Z.
Proof.
  revert k. induction l as [|x l IH]; intro k; simpl; [lia|].
  specialize (IH (Z.max k x)). lia.
Qed.

Lemma fold_max_ge_elem (l : list Z) (k x : Z) :
  In x l -> (x <= fold_left Z.max l k)%Z.
Proof.
  revert k. induction l as [|y l IH]; intros k Hin; simpl in *; [tauto|].
  destruct Hin as [-> | Hin].
  - pose proof (fold_max_ge_start l (Z.max k x)). lia.
  - apply IH. exact Hin.
Qed.

Lemma py_range_pos (n : Z) :
  (0 < n)%Z -> exists rest, py_range n = 0%Z :: rest.
Proof.
  intro Hn. unfold py_range.
  destruct (Z.to_nat n) as [|m] eqn:E; [lia|].
  simpl. eexists. reflexivity.
Qed.

Lemma train_from_mismatch (idces : list Z) (times : list Q) (n : Z) :
  List.length idces <> List.length times ->
  (0 < n)%Z ->
  mapM (fun i => mask_select (idx_mask (IntIdx idces) i) times) (py_range n)
  = Err IndexError.
Proof.
  intros Hlen Hn.
  destruct (py_range_pos n Hn) as [rest ->].
  simpl. rewrite mask_select_length_mismatch.
  - reflexivity.
  - rewrite length_map. exact Hlen.
Qed.

Lemma train_from_i_t_mismatch (idces : list Z) (times : list Q) (N : option Z) :
  List.length idces <> List.length times ->
  match N with
  | Some n => (0 < n)%Z
  | None => exists k, In k idces /\ (0 <= k)%Z
  end ->
  _train_from_i_t_list (IntIdx idces) times N = Err IndexError.
Proof.
  intros Hlen Hunits. unfold _train_from_i_t_list.
  destruct N as [n|].
  - unfold bind. apply train_from_mismatch; assumption.
  - destruct Hunits as [k [Hin Hk]].
    destruct idces as [|k0 idces]; [destruct Hin|].
    unfold idx_count, bind. apply train_from_mismatch; [exact Hlen|].
    assert (k <= fold_left Z.max idces k0)%Z; [|lia].
    destruct Hin as [-> | Hin].
    + apply fold_max_ge_start.
    + apply fold_max_ge_elem. exact Hin.
Qed.

Lemma mask_select_same_shape (mask : list bool) (a a' : list Q) :
  List.length a = List.length a' ->
  match mask_select mask a, mask_select mask a' with
  | Ok l, Ok l' => List.length l = List.length l'
  | Err e, Err e' => e = e'
  | _, _ => False
  end.
Proof.
  revert a a'. induction mask as [|b mask IH]; intros [|x a] [|x' a'] Hlen;
    simpl in *; try congruence; try reflexivity.
  specialize (IH a a' ltac:(congruence)).
  destruct (mask_select mask a), (mask_select mask a'); simpl; try tauto.
  destruct b; simpl; congruence.
Qed.

Lemma mapM_mask_same_shape (ix : index_array) (a a' : list Q) (l : list Z) :
  List.length a = List.length a' ->
  same_shape (mapM (fun i => mask_select (idx_mask ix i) a) l)
             (mapM (fun i => mask_select (idx_mask ix i) a') l).
Proof.
  intro Hlen. induction l as [|i l IH]; simpl; [reflexivity|].
  pose proof (mask_select_same_shape (idx_mask ix i) a a' Hlen) as Hm.
  destruct (mask_select (idx_mask ix i) a), (mask_select (idx_mask ix i) a');
    simpl; try tauto.
  unfold same_shape in IH.
  destruct (mapM _ l), (mapM _ l); simpl in *; try tauto.
  congruence.
Qed.

Lemma train_from_same_shape (ix : index_array) (a a' : list Q) (N : option Z) :
  List.length a = List.length a' ->
  same_shape (_train_from_i_t_list ix a N) (_train_from_i_t_list ix a' N).
Proof.
  intro Hlen. unfold _train_from_i_t_list.
  destruct (match N with Some n => Ok n | None => idx_count ix end); simpl.
  - apply mapM_mask_same_shape. exact Hlen.
  - reflexivity.
Qed.

(** ** Sorting *)

Section SortingFacts.
Context {A : Type} (le : A -> A -> bool).

Lemma insert_sorted_perm (x : A) (l : list A) :
  Permutation (insert_sorted le x l) (x :: l).
Proof.
  induction l as [|y l IH]; simpl.
  - apply Permutation_refl.
  - destruct (le x y).
    + apply Permutation_refl.
    + apply perm_trans with (y :: x :: l).
      * apply perm_skip. exact IH.
      * apply perm_swap.
Qed.

Lemma sort_by_perm (l : list A) : Permutation (sort_by le l) l.
Proof.
  induction l as [|x l IH]; simpl.
  - apply perm_nil.
  - apply perm_trans with (x :: sort_by le l).
    + apply insert_sorted_perm.
    + apply perm_skip. exact IH.
Qed.

Lemma sort_by_length (l : list A) :
  List.length (sort_by le l) = List.length l.
Proof. apply Permutation_length. apply sort_by_perm. Qed.

Lemma sort_by_In (x : A) (l : list A) : In x (sort_by le l) <-> In x l.
Proof.
  split; apply Permutation_in.
  - apply sort_by_perm.
  - apply Permutation_sym. apply sort_by_perm.
Qed.

Lemma sort_by_nil_iff (l : list A) : sort_by le l = [] <-> l = [].
Proof.
  split; intro H.
  - apply length_zero_iff_nil. rewrite <- sort_by_length, H. reflexivity.
  - subst. reflexivity.
Qed.
End SortingFacts.

Lemma insert_sorted_ascending (x : Q) (l : list Q) :
  ascending l -> ascending (insert_sorted Qleb x l).
Proof.
  induction 1 as [|y l Hy Hl IH]; simpl.
  - constructor; [intros ? []|constructor].
  - destruct (Qleb x y) eqn:E; qbool.
    + constructor; [|constructor; assumption].
      intros z [<- | Hz]; [exact E|].
      specialize (Hy z Hz). lra.
    + constructor; [|exact IH].
      intros z Hz.
      apply (Permutation_in _ (insert_sorted_perm Qleb x l)) in Hz.
      destruct Hz as [<- | Hz]; [lra|auto].
Qed.

Lemma np_sort_ascending (l : list Q) : ascending (np_sort l).
Proof.
  unfold np_sort. induction l as [|x l IH]; simpl.
  - constructor.
  - apply insert_sorted_ascending. exact IH.
Qed.

Lemma last_In (l : list Q) (d : Q) : l <> [] -> In (last l d) l.
Proof.
  induction l as [|x l IH]; intro Hne; [congruence|].
  destruct l as [|y l]; [left; reflexivity|].
  right. apply IH. discriminate.
Qed.

Lemma ascending_last (l : list Q) (d t : Q) :
  ascending l -> In t l -> t <= last l d.
Proof.
  induction 1 as [|x l Hx Hl IH]; intro Hin; [destruct Hin|].
  destruct l as [|y l].
  - destruct Hin as [<- | []]. simpl. lra.
  - destruct Hin as [<- | Hin].
    + apply Hx. apply (last_In (y :: l) d). discriminate.
    + apply IH. exact Hin.
Qed.

Lemma py_max_spec (xs : list Q) (x : Q) :
  In (py_max x xs) (x :: xs) /\ forall y, In y (x :: xs) -> y <= py_max x xs.
Proof.
  unfold py_max. revert x. induction xs as [|z xs IH]; intro x; simpl.
  - split; [left; reflexivity|]. intros y [<- | []]. lra.
  - destruct (Qltb x z) eqn:E; qbool;
      destruct (IH (if Qltb x z then z else x)) as [Hin Hub];
      [ assert (Hc : Qltb x z = true) by (qbool; exact E)
      | assert (Hc : Qltb x z = false) by (qbool; exact E) ];
      rewrite Hc in Hin, Hub; simpl in Hin, Hub.
    + split.
      * destruct Hin as [Hin | Hin]; [right; left; exact Hin|right; right; exact Hin].
      * intros y [<- | [<- | Hy]].
        -- specialize (Hub z (or_introl eq_refl)). lra.
        -- apply Hub. left. reflexivity.
        -- apply Hub. right. exact Hy.
    + split.
      * destruct Hin as [Hin | Hin]; [left; exact Hin|right; right; exact Hin].
      * intros y [<- | [<- | Hy]].
        -- apply Hub. left. reflexivity.
        -- specialize (Hub x (or_introl eq_refl)). lra.
        -- apply Hub. right. exact Hy.
Qed.

(** ** The default length *)

Lemma last_spikes_nil (trains : list (list Q)) :
  last_spikes trains = [] <-> Forall (fun t => t = []) trains.
Proof.
  unfold last_spikes. induction trains as [|t trains IH]; simpl.
  - split; [constructor|reflexivity].
  - destruct t as [|x t]; simpl.
    + rewrite IH. split; intro H; [constructor; [reflexivity|exact H]|].
      inversion H; assumption.
    + split; [discriminate|]. intro H. inversion H. discriminate.
Qed.

Lemma last_spikes_In (trains : list (list Q)) (x : Q) :
  In x (last_spikes trains) <->
  exists t, In t trains /\ t <> [] /\ x = last t 0.
Proof.
  unfold last_spikes. rewrite in_flat_map. split.
  - intros [t [Ht Hx]]. exists t. split; [exact Ht|].
    destruct t as [|y t]; [destruct Hx|].
    destruct Hx as [<- | []]. split; [discriminate|reflexivity].
  - intros [t [Ht [Hne ->]]]. exists t. split; [exact Ht|].
    destruct t as [|y t]; [congruence|]. left. reflexivity.
Qed.

Lemma Forall_nil_map_sort (raw : list (list Q)) :
  Forall (fun t => t = []) (map np_sort raw) <-> Forall (fun t => t = []) raw.
Proof.
  rewrite Forall_map. split; intro H; eapply Forall_impl; try exact H;
    intros t Ht; apply (sort_by_nil_iff Qleb); exact Ht.
Qed.

Lemma default_length_ok_iff (trains : list (list Q)) :
  is_ok (default_length trains) = true <-> ~ Forall (fun t => t = []) trains.
Proof.
  unfold default_length. rewrite <- last_spikes_nil.
  destruct (last_spikes trains); simpl; split; intro H; congruence.
Qed.

Lemma Forall_nil_same_lengths (a b : list (list Q)) :
  map (@List.length Q) a = map (@List.length Q) b ->
  Forall (fun t => t = []) a -> Forall (fun t => t = []) b.
Proof.
  revert b. induction a as [|x a IH]; intros [|y b] Hlen Ha; simpl in *;
    try congruence; constructor.
  - inversion Ha; subst. injection Hlen as Hy _.
    destruct y; [reflexivity|discriminate].
  - inversion Ha; subst. injection Hlen as _ Hrest. apply IH; assumption.
Qed.

Lemma default_length_same_shape (a b : list (list Q)) :
  map (@List.length Q) a = map (@List.length Q) b ->
  is_ok (default_length (map np_sort a)) = is_ok (default_length (map np_sort b)).
Proof.
  intro Hlen.
  destruct (is_ok (default_length (map np_sort a))) eqn:Ea;
    destruct (is_ok (default_length (map np_sort b))) eqn:Eb; try reflexivity.
  - apply default_length_ok_iff in Ea. exfalso. apply Ea.
    apply Forall_nil_map_sort.
    apply (Forall_nil_same_lengths b a); [congruence|].
    apply Forall_nil_map_sort.
    destruct (default_length (map np_sort b)) eqn:Ed; [discriminate|].
    unfold default_length in Ed.
    destruct (last_spikes (map np_sort b)) eqn:El; [|discriminate].
    apply last_spikes_nil. exact El.
  - apply default_length_ok_iff in Eb. exfalso. apply Eb.
    apply Forall_nil_map_sort.
    apply (Forall_nil_same_lengths a b); [congruence|].
    apply Forall_nil_map_sort.
    destruct (default_length (map np_sort a)) eqn:Ed; [discriminate|].
    unfold default_length in Ed.
    destruct (last_spikes (map np_sort a)) eqn:El; [|discriminate].
    apply last_spikes_nil. exact El.
Qed.

(** C8, as the code has it: construction from parallel index/time
    sequences raises (numpy's IndexError, at construction) whenever the
    two sequences differ in length and at least one unit is built, that
    is, for a positive declared unit count, or without a declared count
    when some index is non-negative.  The time values are never
    inspected: whether construction fails is the same for any two time
    sequences of equal length. *)
Theorem ctor_checks_lengths_only :
  forall (idces : list Z) (times : list Q) (N : option Z) (len : option Q),
    (List.length idces <> List.length times ->
     match N with
     | Some n => (0 < n)%Z
     | None => exists k, In k idces /\ (0 <= k)%Z
     end ->
     SpikeData_init (IdcesTimes idces times) N len = Err IndexError)
    /\
    (forall times' : list Q,
        List.length times' = List.length times ->
        is_ok (SpikeData_init (IdcesTimes idces times') N len)
        = is_ok (SpikeData_init (IdcesTimes idces times) N len)).
Proof.
  intros idces times N len. split.
  - intros Hlen Hunits.
    unfold SpikeData_init, parse_arg.
    rewrite train_from_i_t_mismatch by assumption. reflexivity.
  - intros times' Hlen.
    unfold SpikeData_init, parse_arg.
    pose proof (train_from_same_shape (IntIdx idces) times' times N Hlen) as Hs.
    unfold same_shape in Hs.
    destruct (_train_from_i_t_list (IntIdx idces) times' N) as [raw'|e'],
             (_train_from_i_t_list (IntIdx idces) times N) as [raw|e];
      simpl; try tauto.
    destruct len as [l|]; simpl; [reflexivity|].
    pose proof (default_length_same_shape raw' raw Hs) as Hd.
    destruct (default_length (map np_sort raw')),
             (default_length (map np_sort raw)); simpl in *; congruence.
Qed.

Lemma ctor_checks_lengths_only_witness :
  SpikeData_init (IdcesTimes [0; 1]%Z [3]) None None = Err IndexError
  /\ is_ok (SpikeData_init (IdcesTimes [0; 1]%Z [-7; 2]) None None)
     = is_ok (SpikeData_init (IdcesTimes [0; 1]%Z [3; 4]) None None).
Proof.
  split.
  - apply (proj1 (ctor_checks_lengths_only [0; 1]%Z [3] None None)).
    + simpl. lia.
    + exists 0%Z. split; [left; reflexivity|lia].
  - apply (proj2 (ctor_checks_lengths_only [0; 1]%Z [3; 4] None None)).
    reflexivity.
Defined.

(** C8, as stated, fails: a negative time is accepted by the
    constructor, which builds a store holding it; sequences of different
    lengths are accepted when no unit is to be built; and the grouping by
    unit, the one step that can fail, passes non-finite values on
    untouched. *)
Lemma ctor_accepts_negative_time :
  SpikeData_init (IdcesTimes [0]%Z [-1]) None None
  = Ok (mkSpikeData [[-1]] (-1))
  /\ SpikeData_init (IdcesTimes [0; 1]%Z [1]) (Some 0%Z) (Some 5)
     = Ok (mkSpikeData [] 5)
  /\ _train_from_i_t_list (IntIdx [0; 1; 0]%Z) [NaN; Fin 2; PInf] None
     = Ok [[NaN; PInf]; [Fin 2]].
Proof. repeat split; reflexivity. Qed.

(** A list of trains that are not all of length two is taken as it is. *)
Lemma parse_arg_trains (trains : list (list Q)) (N : option Z) :
  all_len_2 trains = false -> parse_arg (Trains trains) N = Ok trains.
Proof.
  intro Hplain. unfold parse_arg.
  destruct trains as [|t trains]; [reflexivity|].
  rewrite Hplain. reflexivity.
Qed.

(** The default length in terms of the per-unit trains the constructor
    has built from its argument: undefined when all of them are empty,
    their largest spike time otherwise. *)
Lemma default_length_of_built_trains (arg : ctor_arg) (N : option Z)
    (raw : list (list Q)) :
  parse_arg arg N = Ok raw ->
  (Forall (fun t => t = []) raw ->
   SpikeData_init arg N None = Err ValueError)
  /\
  (Exists (fun t => t <> []) raw ->
   exists sd : SpikeData,
     SpikeData_init arg N None = Ok sd
     /\ train sd = pad_units (map np_sort raw) N
     /\ In (length sd) (concat raw)
     /\ forall t, In t (concat raw) -> t <= length sd).
Proof.
  intros Hparse. unfold SpikeData_init. rewrite Hparse. simpl.
  split.
  - intro Hall. unfold default_length.
    apply (proj2 (Forall_nil_map_sort raw)) in Hall.
    apply (proj2 (last_spikes_nil _)) in Hall.
    rewrite Hall. reflexivity.
  - intro Hex. unfold default_length.
    destruct (last_spikes (map np_sort raw)) as [|x xs] eqn:El.
    + exfalso. apply (proj1 (last_spikes_nil _)) in El.
      apply (proj1 (Forall_nil_map_sort raw)) in El.
      apply Exists_exists in Hex. destruct Hex as [t [Ht Hne]].
      rewrite Forall_forall in El. apply Hne. apply El. exact Ht.
    + simpl. eexists. split; [reflexivity|]. simpl.
      split; [reflexivity|].
      destruct (py_max_spec xs x) as [Hin Hub].
      split.
      * rewrite <- El in Hin. apply last_spikes_In in Hin.
        destruct Hin as [t [Ht [Hne Hlast]]].
        apply in_map_iff in Ht. destruct Ht as [r [<- Hr]].
        apply in_concat. exists r. split; [exact Hr|].
        apply (sort_by_In Qleb). rewrite Hlast.
        apply last_In. exact Hne.
      * intros t Ht. apply in_concat in Ht. destruct Ht as [r [Hr Htr]].
        apply (sort_by_In Qleb) in Htr.
        apply Qle_trans with (last (np_sort r) 0).
        -- apply ascending_last; [apply np_sort_ascending|exact Htr].
        -- apply Hub. rewrite <- El. apply last_spikes_In.
           exists (np_sort r). split; [apply in_map; exact Hr|].
           split; [|reflexivity].
           intro Hnil. unfold np_sort in Htr. fold (np_sort r) in Htr.
           rewrite Hnil in Htr. destruct Htr.
Qed.

(** A list of empty trains is not read as pairs. *)
Lemma parse_arg_empty_trains (trains : list (list Q)) (N : option Z) :
  Forall (fun t => t = []) trains -> parse_arg (Trains trains) N = Ok trains.
Proof.
  intro Hall. destruct trains as [|t trains]; [reflexivity|].
  apply parse_arg_trains. inversion Hall as [|t' l Ht _]; subst. reflexivity.
Qed.

(** C10, as the code has it: when every train passed to the constructor
    is empty and no length is given, construction raises; when some train
    is not empty, and not every train has exactly two spikes, the store's
    length is the largest spike time of all the trains passed.  (A list
    in which every train has exactly two spikes is read as (unit, time)
    pairs.) *)
Theorem default_length_is_max_spike :
  forall (trains : list (list Q)) (N : option Z),
    (Forall (fun t => t = []) trains ->
     SpikeData_init (Trains trains) N None = Err ValueError)
    /\
    (all_len_2 trains = false ->
     Exists (fun t => t <> []) trains ->
     exists sd : SpikeData,
       SpikeData_init (Trains trains) N None = Ok sd
       /\ train sd = pad_units (map np_sort trains) N
       /\ In (length sd) (concat trains)
       /\ forall t, In t (concat trains) -> t <= length sd).
Proof.
  intros trains N. split.
  - intro Hall.
    apply (proj1 (default_length_of_built_trains (Trains trains) N trains
                    (parse_arg_empty_trains trains N Hall))).
    exact Hall.
  - intros Hplain Hex.
    apply (proj2 (default_length_of_built_trains (Trains trains) N trains
                    (parse_arg_trains trains N Hplain))).
    exact Hex.
Qed.

Lemma default_length_is_max_spike_witness :
  SpikeData_init (Trains [[]; []]) None None = Err ValueError
  /\ exists sd : SpikeData,
       SpikeData_init (Trains [[3; 1]; []; [2; 7; 4]]) None None = Ok sd
       /\ train sd = pad_units (map np_sort [[3; 1]; []; [2; 7; 4]]) None
       /\ In (length sd) (concat [[3; 1]; []; [2; 7; 4]])
       /\ forall t, In t (concat [[3; 1]; []; [2; 7; 4]]) -> t <= length sd.
Proof.
  split.
  - apply (proj1 (default_length_is_max_spike [[]; []] None)).
    repeat constructor.
  - apply (proj2 (default_length_is_max_spike [[3; 1]; []; [2; 7; 4]] None)).
    + reflexivity.
    + apply Exists_cons_hd. discriminate.
Defined.

(** C10, as stated, fails on a list in which every train has two spikes:
    the single train [[5, 1]] is read as one spike at time 1 of unit 5.
    With [N = 6] the store gets length 1, not 5; without [N] the float
    unit index makes [range] raise. *)
Lemma default_length_of_pairs :
  SpikeData_init (Trains [[5; 1]]) (Some 6%Z) None
  = Ok (mkSpikeData [[]; []; []; []; []; [1]] 1)
  /\ Exists (fun t : list Q => t <> []) [[5; 1]]
  /\ In 5 (concat [[5; 1]])
  /\ 1 < 5
  /\ SpikeData_init (Trains [[5; 1]]) None None = Err TypeError.
Proof.
  split; [reflexivity|]. split; [apply Exists_cons_hd; discriminate|].
  split; [left; reflexivity|]. split; reflexivity.
Qed.

(** ** Positions in zipped and masked arrays *)

Lemma nth_error_combine {A B : Type} (a : list A) (b : list B) (i : nat) :
  nth_error (combine a b) i =
  match nth_error a i, nth_error b i with
  | Some x, Some y => Some (x, y)
  | _, _ => None
  end.
Proof.
  revert a b. induction i as [|i IH]; intros [|x a] [|y b]; simpl;
    try reflexivity.
  - destruct (nth_error a i); reflexivity.
  - apply IH.
Qed.

Lemma nth_error_zip_with {A B C : Type} (f : A -> B -> C)
    (a : list A) (b : list B) (i : nat) (x : A) (y : B) :
  nth_error a i = Some x -> nth_error b i = Some y ->
  nth_error (zip_with f a b) i = Some (f x y).
Proof.
  intros Ha Hb. unfold zip_with.
  rewrite nth_error_map, nth_error_combine, Ha, Hb. reflexivity.
Qed.

Lemma nth_error_assign_where (x : list fl) (v : fl) (i : nat) (xi : fl) :
  nth_error x i = Some xi ->
  nth_error (assign_where (eq_zero_mask x) v x) i
  = Some (if Fl.eqb xi (Fin 0) then v else xi).
Proof.
  intro Hx. unfold assign_where, eq_zero_mask.
  rewrite nth_error_map, nth_error_combine, nth_error_map, Hx. reflexivity.
Qed.

(** After [x[x == 0] = 1] no entry of [x] is zero: dividing by [x] never
    divides by zero. *)
Lemma assign_where_nonzero (x : list fl) :
  Forall (fun d => Fl.eqb d (Fin 0) = false)
         (assign_where (eq_zero_mask x) (Fin 1) x).
Proof.
  unfold assign_where, eq_zero_mask.
  induction x as [|a x IH]; simpl; constructor; [|exact IH].
  destruct (Fl.eqb a (Fin 0)) eqn:E; [reflexivity|exact E].
Qed.

(** ** The two arithmetics obey the laws *)

Lemma fl_same_refl (x : fl) : fl_same x x.
Proof. destruct x; simpl; try exact I. reflexivity. Qed.

Lemma fl_same_sym (x y : fl) : fl_same x y -> fl_same y x.
Proof. destruct x, y; simpl; try tauto. intro H. symmetry. exact H. Qed.

Lemma fl_same_trans (x y z : fl) : fl_same x y -> fl_same y z -> fl_same x z.
Proof.
  destruct x, y, z; simpl; try tauto. intros H1 H2. rewrite H1. exact H2.
Qed.

Lemma fl_same_fin (x : fl) (q : Q) :
  fl_same x (Fin q) -> exists v : Q, x = Fin v /\ v == q.
Proof.
  destruct x as [v| | |]; simpl; try tauto.
  intro H. exists v. split; [reflexivity|exact H].
Qed.

Lemma py_trunc_int (q : Q) (z : Z) : q == inject_Z z -> py_trunc q = z.
Proof.
  intro Hq. unfold py_trunc.
  destruct (Qltb q 0).
  - rewrite (Qceiling_comp _ _ Hq). apply Qceiling_Z.
  - rewrite (Qfloor_comp _ _ Hq). apply Qfloor_Z.
Qed.

Lemma sqrt_model_zero (x : fl) :
  Fl.eqb x (Fin 0) = true -> Fl.eqb (sqrt_model x) (Fin 0) = true.
Proof.
  destruct x as [q| | |]; simpl; try discriminate.
  intro Hq. qbool.
  assert (Hn : Qnum q = 0%Z).
  { unfold Qeq in Hq. simpl in Hq. lia. }
  assert (Hlt : Qltb q 0 = false) by (qbool; lra).
  rewrite Hlt, Hn. reflexivity.
Qed.

Lemma sqrt_model_range (x : fl) :
  sqrt_model x = NaN \/ Fl.leb (Fin 0) (sqrt_model x) = true.
Proof.
  destruct x as [q| | |]; simpl; try (left; reflexivity).
  - destruct (Qltb q 0) eqn:E; [left; reflexivity|right].
    simpl. qbool. unfold Qle in *. simpl in *.
    pose proof (Z.sqrt_nonneg (Qnum q * Z.pos (Qden q))). lia.
  - right. reflexivity.
Qed.

Lemma exact_ieee : IEEE exact_arith.
Proof.
  constructor; simpl.
  - intros q q' H. exact H.
  - intros z _. reflexivity.
  - intros q _. exists q. reflexivity.
  - exact sqrt_model_zero.
  - exact sqrt_model_range.
  - intros z q _ Hq. apply py_trunc_int. exact Hq.
  - intros a b Hb.
    assert (E : Qeqb b 0 = false) by (qbool; exact Hb).
    rewrite E. reflexivity.
Qed.

Lemma sumZ_zeros (row : list Z) :
  Forall (fun x => x = 0%Z) row -> sumZ row = 0%Z.
Proof.
  induction 1 as [|x row -> _ IH]; [reflexivity|].
  change (sumZ (0%Z :: row)) with (0 + sumZ row)%Z. rewrite IH. reflexivity.
Qed.

Lemma nat_divisor_nonzero (n : nat) :
  n <> 0%nat -> Qeqb (inject_Z (Z.of_nat n)) 0 = false.
Proof. intro Hn. qbool. intro H. unfold Qeq in H. simpl in H. lia. Qed.

Lemma exact_mean_laws : MeanLaws exact_mean.
Proof.
  constructor. intros n row Hn Hzero. simpl.
  unfold Fl.div, Fl.of_Z, Fl.of_nat.
  rewrite (sumZ_zeros row Hzero), (nat_divisor_nonzero n Hn).
  simpl. qbool. unfold Qdiv. apply Qmult_0_l.
Qed.

(** What rounding does to a number that is an integer of at most 53
    bits. *)
Lemma rnd_int_val {F : Float64} (HF : IEEE F) (q : Q) (z : Z) :
  q == inject_Z z -> (Z.abs z <= 2 ^ 53)%Z ->
  exists v : Q, rnd q = Fin v /\ v == inject_Z z.
Proof.
  intros Hq Hz. apply fl_same_fin.
  eapply fl_same_trans; [apply (rnd_proper F HF _ _ Hq)|].
  apply (rnd_int F HF). exact Hz.
Qed.

Lemma rnd_zero {F : Float64} (HF : IEEE F) (q : Q) :
  q == 0 -> exists v : Q, rnd q = Fin v /\ v == 0.
Proof.
  intro Hq. apply (rnd_int_val HF q 0%Z); [exact Hq|].
  vm_compute. discriminate.
Qed.

(** The mean that adds in row order obeys the law of the mean, in every
    arithmetic that obeys the laws of float64. *)
Lemma mean_in_row_order_laws (F : Float64) :
  IEEE F -> MeanLaws (mean_in_row_order F).
Proof.
  intro HF. constructor. intros n row Hn Hzero. simpl.
  unfold Fp.div at 1. unfold Fl.div, Fl.of_nat.
  rewrite (nat_divisor_nonzero n Hn). cbn [fround].
  destruct (rnd_unit F HF (1 / inject_Z (Z.of_nat n))) as [inv Hinv].
  { assert (Hpos : 1 <= inject_Z (Z.of_nat n)).
    { unfold Qle. simpl. lia. }
    rewrite Qabs_pos.
    - apply Qle_shift_div_r; lra.
    - apply Qle_shift_div_l; lra. }
  rewrite Hinv.
  assert (Hgen : forall a : Q, a == 0 ->
            Fl.eqb (fold_left (fun acc x => Fp.add acc (Fp.mul (Fl.of_Z x) (Fin inv)))
                              row (Fin a)) (Fin 0) = true).
  { induction Hzero as [|x row -> _ IH]; intros a Ha.
    - simpl. qbool. exact Ha.
    - cbn [fold_left]. unfold Fp.mul at 2, Fp.add at 2.
      unfold Fl.of_Z at 2. cbn [Fl.mul fround].
      destruct (rnd_zero HF (inject_Z 0 * inv)) as [c [Hc Hc0]].
      { change (inject_Z 0) with 0. apply Qmult_0_l. }
      rewrite Hc. cbn [Fl.add fround].
      destruct (rnd_zero HF (a + c)) as [b [Hb Hb0]].
      { rewrite Ha, Hc0. reflexivity. }
      rewrite Hb. apply IH. exact Hb0. }
  apply Hgen. reflexivity.
Qed.

(** ** binary64 obeys the laws *)

Lemma div_half_even_exact (a b : Z) :
  (0 < b)%Z -> div_half_even (a * b) b = a.
Proof.
  intro Hb. unfold div_half_even.
  rewrite Z.div_mul, Z.mod_mul by lia.
  destruct (Z.ltb_spec (2 * 0) b); [reflexivity|lia].
Qed.

Lemma log2_ratio_unit (n : Z) : (0 < n)%Z -> log2_ratio n 1 = Z.log2 n.
Proof.
  intro Hn. unfold log2_ratio. change (Z.log2 1) with 0%Z.
  rewrite Z.sub_0_r.
  pose proof (Z.log2_nonneg n) as H0.
  destruct (Z.leb_spec 0 (Z.log2 n)); [|lia].
  pose proof (Z.log2_spec n Hn) as [Hlo _].
  destruct (Z.ltb_spec n (1 * 2 ^ Z.log2 n)); [lia|reflexivity].
Qed.

Lemma log2_ratio_le (n d : Z) :
  (0 < n <= d)%Z -> (log2_ratio n d <= 0)%Z.
Proof.
  intros [Hn Hd]. unfold log2_ratio.
  pose proof (Z.log2_le_mono n d Hd).
  destruct (if (0 <=? Z.log2 n - Z.log2 d)%Z
            then (n <? d * 2 ^ (Z.log2 n - Z.log2 d))%Z
            else (n * 2 ^ (- (Z.log2 n - Z.log2 d)) <? d)%Z); lia.
Qed.

Lemma scaled_value (m E : Z) :
  (E <= 0)%Z -> scaled (m * 2 ^ (- E)) E == inject_Z m.
Proof.
  intro HE. unfold scaled.
  assert (Hp : (0 < 2 ^ (- E))%Z) by (apply Z.pow_pos_nonneg; lia).
  destruct (Z.leb_spec 0 E).
  - assert (E = 0%Z) by lia. subst E. simpl.
    unfold Qeq. simpl. lia.
  - unfold Qeq. simpl. rewrite Z2Pos.id by exact Hp. lia.
Qed.

Lemma round_b64_int (z : Z) :
  (Z.abs z <= 2 ^ 53)%Z -> fl_same (round_b64 (inject_Z z)) (Fin (inject_Z z)).
Proof.
  intro Hz. unfold round_b64, inject_Z. cbn [Qnum Qden].
  destruct (Z.eqb_spec (Z.abs z) 0) as [H0 | Hne].
  - simpl. assert (z = 0%Z) by lia. subst z. reflexivity.
  - assert (Hpos : (0 < Z.abs z)%Z) by lia.
    rewrite (log2_ratio_unit _ Hpos).
    pose proof (Z.log2_spec _ Hpos) as [Hlo Hhi].
    pose proof (Z.log2_nonneg (Z.abs z)) as HL0.
    assert (HL : (Z.log2 (Z.abs z) <= 53)%Z).
    { apply (proj2 (Z.pow_le_mono_r_iff 2 (Z.log2 (Z.abs z)) 53
                      ltac:(lia) ltac:(lia))). lia. }
    set (L := Z.log2 (Z.abs z)) in *.
    rewrite Z.max_l by lia.
    assert (Hsgn : (Z.sgn z * Z.abs z = z)%Z) by lia.
    destruct (Z.leb_spec 0 (L - 52)) as [HE | HE].
    + (* 52 or 53 bits *)
      assert (Hdiv : (Z.abs z = Z.abs z / 2 ^ (L - 52) * 2 ^ (L - 52))%Z).
      { assert (L = 52 \/ L = 53)%Z as [-> | ->] by lia.
        - change (2 ^ (52 - 52))%Z with 1%Z. rewrite Z.div_1_r. lia.
        - change (2 ^ (53 - 52))%Z with 2%Z.
          assert (Z.abs z = 2 ^ 53)%Z by (change (Z.succ 53) with 54%Z in Hhi; lia).
          rewrite H. reflexivity. }
      assert (Hp : (0 < 2 ^ (L - 52))%Z) by (apply Z.pow_pos_nonneg; lia).
      rewrite Z.mul_1_l.
      assert (Hm : div_half_even (Z.abs z) (2 ^ (L - 52))
                   = (Z.abs z / 2 ^ (L - 52))%Z).
      { rewrite Hdiv at 1. apply div_half_even_exact. exact Hp. }
      rewrite Hm, <- Hdiv.
      destruct (Z.leb_spec (2 ^ 1024) (Z.abs z)) as [Hbig | _].
      { exfalso. assert (2 ^ 53 < 2 ^ 1024)%Z by (apply Z.pow_lt_mono_r; lia). lia. }
      unfold scaled. destruct (Z.leb_spec 0 (L - 52)); [|lia].
      simpl. unfold Qeq. simpl.
      rewrite <- (Z.mul_assoc (Z.sgn z)), <- Hdiv, Hsgn. lia.
    + assert (Hm : div_half_even (Z.abs z * 2 ^ (- (L - 52))) 1
                   = (Z.abs z * 2 ^ (- (L - 52)))%Z).
      { rewrite <- (Z.mul_1_r (Z.abs z * 2 ^ (- (L - 52)))) at 1.
        apply div_half_even_exact. lia. }
      rewrite Hm.
      change (2 ^ 1024 <=? 0)%Z with false. cbv iota.
      simpl fl_same.
      rewrite Z.mul_assoc, Hsgn.
      apply scaled_value. lia.
Qed.

Lemma round_b64_unit (q : Q) :
  Qabs q <= 1 -> exists v : Q, round_b64 q = Fin v.
Proof.
  intro Hq. unfold round_b64.
  destruct (Z.eqb_spec (Z.abs (Qnum q)) 0) as [H0 | Hne];
    [eexists; reflexivity|].
  assert (Hle : (0 < Z.abs (Qnum q) <= Z.pos (Qden q))%Z).
  { split; [lia|]. destruct q as [n d]. unfold Qle, Qabs in Hq.
    simpl in *. lia. }
  pose proof (log2_ratio_le _ _ Hle) as HL.
  set (E := Z.max (log2_ratio (Z.abs (Qnum q)) (Z.pos (Qden q)) - 52) (-1074)).
  assert (HE : (E < 0)%Z) by (unfold E; lia).
  destruct (Z.leb_spec 0 E); [lia|].
  change (2 ^ 1024 <=? 0)%Z with false. cbv iota.
  eexists. reflexivity.
Qed.

Lemma scaled_nonneg (m E : Z) : (0 <= m)%Z -> 0 <= scaled m E.
Proof.
  intro Hm. unfold scaled. destruct (0 <=? E)%Z.
  - unfold Qle. simpl.
    assert (0 <= m * 2 ^ E)%Z; [|lia].
    apply Z.mul_nonneg_nonneg; [exact Hm|]. apply Z.pow_nonneg. lia.
  - unfold Qle. simpl. lia.
Qed.

Lemma binary64_ieee : IEEE binary64.
Proof.
  constructor; cbn [rnd np_sqrt astype_int length_over binary64].
  - intros q q' H. rewrite (Qred_complete _ _ H). apply fl_same_refl.
  - intros z Hz.
    assert (Hred : Qred (inject_Z z) = inject_Z z).
    { unfold Qred, inject_Z.
      pose proof (Z.ggcd_gcd z 1) as Hg.
      pose proof (Z.ggcd_correct_divisors z 1) as Hd.
      destruct (Z.ggcd z 1) as [g [r1 r2]]. simpl in Hg, Hd.
      rewrite Z.gcd_1_r in Hg. subst g. destruct Hd as [H1 H2].
      assert (Hr1 : r1 = z) by lia. assert (Hr2 : r2 = 1%Z) by lia.
      rewrite Hr1, Hr2. reflexivity. }
    rewrite Hred. apply round_b64_int. exact Hz.
  - intros q Hq. apply round_b64_unit.
    rewrite (Qabs_wd _ _ (Qred_correct q)). exact Hq.
  - intros [q| | |]; simpl; try discriminate.
    intro Hq. qbool.
    assert (Hn : Qnum q = 0%Z).
    { unfold Qeq in Hq. simpl in Hq. lia. }
    rewrite Hn. reflexivity.
  - intros [q| | |]; [|right; reflexivity|left; reflexivity|left; reflexivity].
    unfold sqrt_b64. cbv zeta.
    destruct (Qnum q <? 0)%Z; [left; reflexivity|].
    destruct (Qnum q =? 0)%Z; [right; reflexivity|].
    right. cbn [Fl.leb]. qbool. apply scaled_nonneg.
    match goal with
    | |- context [Z.sqrt ?x] => pose proof (Z.sqrt_nonneg x)
    end.
    repeat match goal with
           | |- context [if ?b then _ else _] => destruct b
           end; lia.
  - intros z q Hz Hq. unfold int64_of. rewrite (py_trunc_int q z Hq).
    destruct (Z.leb_spec (- 2 ^ 63) z); [|lia].
    destruct (Z.ltb_spec z (2 ^ 63)); [|lia]. reflexivity.
  - intros a b Hb.
    assert (E : Qeqb b 0 = false) by (qbool; exact Hb).
    rewrite E. reflexivity.
Qed.

Lemma binary64_mean_laws : MeanLaws (mean_in_row_order binary64).
Proof. apply mean_in_row_order_laws. exact binary64_ieee. Qed.

(** ** Shape of the dense matrix of a CSR array *)

Lemma nth_error_map_seq {A : Type} (f : nat -> A) (n i : nat) :
  (i < n)%nat -> nth_error (map f (seq 0 n)) i = Some (f i).
Proof.
  intro Hi. rewrite nth_error_map, nth_error_seq.
  destruct (Nat.ltb_spec i n); [reflexivity|lia].
Qed.

Lemma toarray_length (r : csr) : List.length (toarray r) = n_rows r.
Proof. unfold toarray. rewrite length_map, length_seq. reflexivity. Qed.

Lemma toarray_row (r : csr) (i : nat) :
  (i < n_rows r)%nat ->
  nth_error (toarray r) i
  = Some (map (cell (row_entries r i)) (seq 0 (n_cols r))).
Proof.
  intro Hi. unfold toarray.
  apply (nth_error_map_seq
           (fun k => map (cell (row_entries r k)) (seq 0 (n_cols r)))).
  exact Hi.
Qed.

Lemma toarray_row_length (r : csr) (i : nat) (row : list Z) :
  nth_error (toarray r) i = Some row -> List.length row = n_cols r.
Proof.
  intro Hrow.
  assert (Hi : (i < n_rows r)%nat).
  { rewrite <- toarray_length. apply nth_error_Some. congruence. }
  rewrite toarray_row in Hrow by exact Hi.
  injection Hrow as <-. rewrite length_map, length_seq. reflexivity.
Qed.

Lemma stored_values_row (r : csr) (i : nat) :
  (i < n_rows r)%nat ->
  nth_error (stored_values r) i = Some (unit_values r i).
Proof.
  intro Hi. unfold stored_values.
  apply (nth_error_map_seq (fun k => map snd (row_entries r k))). exact Hi.
Qed.

Lemma toarray_unit_row (r : csr) (i : nat) :
  (i < n_rows r)%nat -> nth_error (toarray r) i = Some (unit_row r i).
Proof. apply toarray_row. Qed.

(** A unit for which no value other than zero is stored has a row of
    zeros. *)
Lemma unit_row_silent (r : csr) (i : nat) :
  Forall (fun v => v = 0%Z) (unit_values r i) ->
  Forall (fun x => x = 0%Z) (unit_row r i).
Proof.
  unfold unit_values, unit_row. intro Hzero.
  apply Forall_map. apply Forall_forall. intros j _.
  unfold cell.
  induction (row_entries r i) as [|e es IH]; [reflexivity|].
  inversion Hzero as [|v vs Hv Hvs]; subst.
  cbn [filter]. destruct (Z.eqb (fst e) (Z.of_nat j)).
  - cbn [map sumZ fold_right]. rewrite Hv.
    change (fold_right Z.add 0%Z (map snd (filter (fun e0 => Z.eqb (fst e0) (Z.of_nat j)) es)))
      with (sumZ (map snd (filter (fun e0 => Z.eqb (fst e0) (Z.of_nat j)) es))).
    rewrite (IH Hvs). reflexivity.
  - apply IH. exact Hvs.
Qed.

(** ** Fano factors of silent units *)

Lemma sparse_row_means_ok {M : SparseMean} (r : csr) (m : list (list Z)) :
  n_cols r <> 0%nat ->
  sparse_row_means r m = Ok (map (sparse_mean (n_cols r)) m).
Proof.
  intro Hw. unfold sparse_row_means.
  destruct (Nat.eqb (n_cols r) 0) eqn:E; [apply Nat.eqb_eq in E; congruence|].
  reflexivity.
Qed.

(** The sparse path of [fano_factors]: a unit for which no count other
    than zero is stored has mean zero and gets Fano factor 1, in every
    arithmetic that obeys the laws. *)
Lemma fano_sparse_silent_unit {F : Float64} {M : SparseMean}
    (r : csr) (i : nat) :
  IEEE F -> MeanLaws M ->
  n_cols r <> 0%nat -> (i < n_rows r)%nat ->
  Forall (fun v => v = 0%Z) (unit_values r i) ->
  exists (out : list fl) (v : fl),
    fano_factors (SparseRaster r) = Ok out
    /\ nth_error out i = Some v
    /\ Fl.eqb v (Fin 1) = true.
Proof.
  intros HF HM Hw Hi Hzero. unfold fano_factors.
  rewrite !sparse_row_means_ok by exact Hw. cbn [bind].
  set (mean := map _ (stored_values r)).
  set (moment := map _ (square_rows (toarray r))).
  assert (Hmean : nth_error mean i
                  = Some (sparse_mean (n_cols r) (unit_values r i))).
  { unfold mean. rewrite nth_error_map, (stored_values_row r i Hi).
    reflexivity. }
  assert (Hmom : exists mo, nth_error moment i = Some mo).
  { unfold moment, square_rows.
    rewrite !nth_error_map, (toarray_unit_row r i Hi). simpl.
    eexists. reflexivity. }
  destruct Hmom as [mo Hmom].
  pose proof (mean_zero M HM (n_cols r) _ Hw Hzero) as Hz.
  destruct (rnd_int_val HF (2 / 1) 2%Z) as [a [Ha Ha2]].
  { reflexivity. }
  { vm_compute. discriminate. }
  destruct (rnd_int_val HF (a + - (1)) 1%Z) as [b [Hb Hb1]].
  { rewrite Ha2. reflexivity. }
  { vm_compute. discriminate. }
  exists (zip_with (fun mo me => Fp.sub (Fp.div mo me) me)
                   (assign_where (eq_zero_mask mean) (Fin 2) moment)
                   (assign_where (eq_zero_mask mean) (Fin 1) mean)).
  exists (Fin b). split; [reflexivity|]. split.
  - rewrite (nth_error_zip_with _ _ _ i (Fin 2) (Fin 1)).
    + unfold Fp.div, Fp.sub. cbn [Fl.div].
      change (Qeqb 1 0) with false. cbv iota. cbn [fround].
      rewrite Ha. unfold Fl.sub. cbn [Fl.neg Fl.add fround].
      rewrite Hb. reflexivity.
    + unfold assign_where.
      rewrite nth_error_map, nth_error_combine.
      unfold eq_zero_mask. rewrite nth_error_map, Hmean, Hmom.
      cbn [option_map fst snd]. rewrite Hz. reflexivity.
    + rewrite (nth_error_assign_where mean (Fin 1) i _ Hmean).
      rewrite Hz. reflexivity.
  - simpl. qbool. exact Hb1.
Qed.

(** The dense path: the two subscripted targets of
    [mean[mean == 0] = var[mean == 0] = 1.0] are assigned in turn, so the
    second mask is taken from the means already overwritten and selects
    nothing.  A silent unit keeps its variance 0 and gets Fano factor 0. *)
Lemma fano_dense_mask_is_empty (mean : list fl) (var : list fl) :
  List.length var = List.length mean ->
  assign_where (eq_zero_mask (assign_where (eq_zero_mask mean) (Fin 1) mean))
               (Fin 1) var = var.
Proof.
  revert var. induction mean as [|a mean IH]; intros [|v var] Hlen;
    simpl in *; try congruence; try reflexivity.
  unfold assign_where, eq_zero_mask in *. simpl.
  rewrite IH by congruence.
  destruct (Fl.eqb a (Fin 0)) eqn:E; simpl; [reflexivity|].
  rewrite E. reflexivity.
Qed.

Lemma sumF_zero (l : list fl) :
  Forall (fun v => exists q, v = Fin q /\ q == 0) l ->
  exists q, fold_right Fl.add (Fin 0) l = Fin q /\ q == 0.
Proof.
  induction 1 as [|v l [q0 [-> Hq0]] _ [q [IH Hq]]]; simpl.
  - exists 0. split; reflexivity.
  - rewrite IH. simpl. eexists. split; [reflexivity|]. lra.
Qed.

(** The dense path on any raster: a unit without a spike gets 0. *)
Lemma fano_dense_silent_unit (m : list (list Z)) (i : nat) (row : list Z) :
  row_width m <> 0%nat ->
  nth_error m i = Some row ->
  Forall (fun x => x = 0%Z) row ->
  exists (out : list fl) (v : fl),
    fano_factors (DenseRaster m) = Ok out
    /\ nth_error out i = Some v
    /\ Fl.eqb v (Fin 0) = true.
Proof.
  intros Hw Hrow Hzero. unfold fano_factors.
  set (w := row_width m) in *.
  rewrite fano_dense_mask_is_empty by (rewrite !length_map; reflexivity).
  assert (HW : Qeqb (inject_Z (Z.of_nat w)) 0 = false).
  { qbool. intro H. unfold Qeq in H. simpl in H. lia. }
  assert (Hmu : np_row_mean w row = Fin (inject_Z 0 / inject_Z (Z.of_nat w))).
  { unfold np_row_mean, Fl.div, Fl.of_Z, Fl.of_nat.
    rewrite (sumZ_zeros row Hzero), HW. reflexivity. }
  assert (Hmu0 : inject_Z 0 / inject_Z (Z.of_nat w) == 0).
  { unfold Qdiv. apply Qmult_0_l. }
  assert (Hmean : nth_error (assign_where (eq_zero_mask (map (np_row_mean w) m))
                                          (Fin 1) (map (np_row_mean w) m)) i
                  = Some (Fin 1)).
  { rewrite (nth_error_assign_where _ (Fin 1) i (np_row_mean w row)).
    - rewrite Hmu. unfold Fl.eqb.
      assert (Hz : Qeqb (inject_Z 0 / inject_Z (Z.of_nat w)) 0 = true)
        by (qbool; exact Hmu0).
      rewrite Hz. reflexivity.
    - rewrite nth_error_map, Hrow. reflexivity. }
  assert (Hvar : exists q, np_row_var w row = Fin q /\ q == 0).
  { unfold np_row_var. cbv zeta. rewrite Hmu.
    destruct (sumF_zero
                (map (fun x =>
                        Fl.mul (Fl.sub (Fl.of_Z x)
                                       (Fin (inject_Z 0 / inject_Z (Z.of_nat w))))
                               (Fl.sub (Fl.of_Z x)
                                       (Fin (inject_Z 0 / inject_Z (Z.of_nat w)))))
                     row)) as [q [Hq Hq0]].
    { apply Forall_map. eapply Forall_impl; [|exact Hzero].
      intros x ->. simpl. eexists. split; [reflexivity|].
      rewrite Hmu0. unfold inject_Z. lra. }
    rewrite Hq. unfold Fl.div, Fl.of_nat. rewrite HW.
    eexists. split; [reflexivity|].
    rewrite Hq0. unfold Qdiv. apply Qmult_0_l. }
  destruct Hvar as [q [Hq Hq0]].
  eexists. eexists. split; [reflexivity|]. split.
  - apply nth_error_zip_with; [|exact Hmean].
    rewrite nth_error_map, Hrow. cbn [option_map]. rewrite Hq. reflexivity.
  - simpl. qbool. rewrite Hq0. unfold Qdiv. apply Qmult_0_l.
Qed.

(** C6 at a dense raster whose first unit never fires: the dense path
    returns Fano factor 0 for it, where the sparse path, on the same
    matrix, returns 1. *)
Theorem fano_dense_silent_unit_is_zero :
  (exists v w : fl,
      fano_factors (DenseRaster [[0; 0; 0]; [1; 0; 1]]%Z) = Ok [v; w]
      /\ Fl.eqb v (Fin 0) = true
      /\ Fl.eqb v (Fin 1) = false)
  /\
  (exists v w : fl,
      fano_factors
        (SparseRaster (mkCsr [1; 1]%Z [0; 2]%Z [0; 0; 2]%nat 2 3)) = Ok [v; w]
      /\ toarray (mkCsr [1; 1]%Z [0; 2]%Z [0; 0; 2]%nat 2 3)
         = [[0; 0; 0]; [1; 0; 1]]%Z
      /\ Fl.eqb v (Fin 1) = true).
Proof.
  split.
  - eexists. eexists. split; [vm_compute; reflexivity|].
    split; reflexivity.
  - eexists. eexists. split; [vm_compute; reflexivity|].
    split; reflexivity.
Qed.

(** The same in binary64, with the means added in row order. *)
Lemma fano_binary64_silent_unit :
  (exists v w : fl,
      @fano_factors binary64 (mean_in_row_order binary64)
        (DenseRaster [[0; 0; 0]; [1; 0; 1]]%Z) = Ok [v; w]
      /\ Fl.eqb v (Fin 0) = true)
  /\
  (exists v w : fl,
      @fano_factors binary64 (mean_in_row_order binary64)
        (SparseRaster (mkCsr [1; 1]%Z [0; 2]%Z [0; 0; 2]%nat 2 3)) = Ok [v; w]
      /\ Fl.eqb v (Fin 1) = true).
Proof.
  split; eexists; eexists; (split; [vm_compute; reflexivity|reflexivity]).
Qed.

(** ** Pearson correlation on sparse rasters *)

Lemma nth_error_set_nth (row : list fl) (i j : nat) (v : fl) :
  nth_error (set_nth i v row) j
  = if Nat.eqb j i then option_map (fun _ => v) (nth_error row j)
    else nth_error row j.
Proof.
  revert i j. induction row as [|x row IH]; intros i j.
  - destruct i, j; simpl; try reflexivity.
    destruct (Nat.eqb j i); reflexivity.
  - destruct i as [|i], j as [|j]; simpl; try reflexivity.
    apply IH.
Qed.

Lemma nth_error_fill_diagonal_from (m : list (list fl)) (k i : nat) (v : fl) :
  nth_error (fill_diagonal_from k v m) i
  = option_map (set_nth (k + i) v) (nth_error m i).
Proof.
  revert k i. induction m as [|row m IH]; intros k i; simpl.
  - destruct i; reflexivity.
  - destruct i as [|i]; simpl.
    + rewrite Nat.add_0_r. reflexivity.
    + rewrite IH. rewrite Nat.add_succ_r. reflexivity.
Qed.

Lemma entry_fill_diagonal (m : list (list fl)) (i j : nat) (v : fl) :
  entry (fill_diagonal v m) i j
  = if Nat.eqb j i then option_map (fun _ => v) (entry m i j) else entry m i j.
Proof.
  unfold entry, fill_diagonal. rewrite nth_error_fill_diagonal_from.
  destruct (nth_error m i) as [row|]; simpl.
  - apply nth_error_set_nth.
  - destruct (Nat.eqb j i); reflexivity.
Qed.

(** Every entry of the matrix the sparse formula returns, in terms of
    the two units it correlates. *)
Lemma pearson_sparse_entries {F : Float64} {M : SparseMean} (r : csr) :
  n_cols r <> 0%nat ->
  exists C : list (list fl),
    pearson_sparse r = Ok C
    /\ forall i j : nat,
        (i < n_rows r)%nat -> (j < n_rows r)%nat ->
        entry C i j
        = Some (if Nat.eqb j i then Fin 1
                else Fp.div
                       (Fp.sub
                          (Fp.mul (Fl.of_Z (dotZ (unit_row r i) (unit_row r j)))
                                  (Fp.div (Fin 1) (Fl.of_nat (n_cols r))))
                          (Fp.mul (unit_mean r i) (unit_mean r j)))
                       (Fp.mul (sigma_or_inf r i) (sigma_or_inf r j))).
Proof.
  intro Hw. unfold pearson_sparse.
  destruct (Nat.eqb (n_cols r) 0) eqn:E; [apply Nat.eqb_eq in E; congruence|].
  rewrite !sparse_row_means_ok by exact Hw. cbn [bind].
  eexists. split; [reflexivity|].
  intros i j Hi Hj.
  pose proof (toarray_unit_row r i Hi) as Hri.
  pose proof (toarray_unit_row r j Hj) as Hrj.
  set (w := n_cols r).
  set (inv := Fp.div (Fin 1) (Fl.of_nat w)).
  set (m := toarray r) in *.
  set (Ex := map (sparse_mean w) (stored_values r)).
  set (Ex2 := map (sparse_mean w) (square_rows m)).
  set (sraw := map np_sqrt (zip_with Fp.sub Ex2 (map (fun e => Fp.mul e e) Ex))).
  assert (HEx : forall k, (k < n_rows r)%nat ->
                          nth_error Ex k = Some (unit_mean r k)).
  { intros k Hk. unfold Ex.
    rewrite nth_error_map, (stored_values_row r k Hk). reflexivity. }
  assert (Hsraw : forall k, (k < n_rows r)%nat ->
            nth_error sraw k
            = Some (np_sqrt
                      (Fp.sub (sparse_mean w (map (fun x => (x * x)%Z)
                                                  (unit_row r k)))
                              (Fp.mul (unit_mean r k) (unit_mean r k))))).
  { intros k Hk. unfold sraw. rewrite nth_error_map.
    rewrite (nth_error_zip_with Fp.sub Ex2 _ k
               (sparse_mean w (map (fun x => (x * x)%Z) (unit_row r k)))
               (Fp.mul (unit_mean r k) (unit_mean r k))).
    - reflexivity.
    - unfold Ex2, square_rows, m.
      rewrite !nth_error_map, (toarray_unit_row r k Hk). reflexivity.
    - rewrite nth_error_map, (HEx k Hk). reflexivity. }
  assert (Hsx : forall k, (k < n_rows r)%nat ->
            nth_error (assign_where (eq_zero_mask sraw) PInf sraw) k
            = Some (sigma_or_inf r k)).
  { intros k Hk.
    rewrite (nth_error_assign_where sraw PInf k _ (Hsraw k Hk)).
    reflexivity. }
  rewrite entry_fill_diagonal.
  assert (Hentry :
    entry (zip_with (zip_with Fp.div)
             (zip_with (zip_with Fp.sub)
                (map (fun ri0 => map (fun rj0 =>
                        Fp.mul (Fl.of_Z (dotZ ri0 rj0)) inv) m) m)
                (outer Ex Ex))
             (outer (assign_where (eq_zero_mask sraw) PInf sraw)
                    (assign_where (eq_zero_mask sraw) PInf sraw))) i j
    = Some (Fp.div (Fp.sub (Fp.mul (Fl.of_Z (dotZ (unit_row r i) (unit_row r j)))
                                   inv)
                           (Fp.mul (unit_mean r i) (unit_mean r j)))
                   (Fp.mul (sigma_or_inf r i) (sigma_or_inf r j)))).
  { unfold entry.
    erewrite nth_error_zip_with.
    2:{ apply nth_error_zip_with.
        - rewrite nth_error_map, Hri. reflexivity.
        - unfold outer. rewrite nth_error_map, (HEx i Hi). reflexivity. }
    2:{ unfold outer. rewrite nth_error_map, (Hsx i Hi). reflexivity. }
    apply nth_error_zip_with.
    - apply nth_error_zip_with.
      + rewrite nth_error_map, Hrj. reflexivity.
      + rewrite nth_error_map, (HEx j Hj). reflexivity.
    - rewrite nth_error_map, (Hsx j Hj). reflexivity. }
  rewrite Hentry.
  destruct (Nat.eqb j i); reflexivity.
Qed.

(** The deviation of a unit that never fires is replaced by infinity. *)
Lemma sigma_or_inf_silent {F : Float64} {M : SparseMean} (r : csr) (i : nat) :
  IEEE F -> MeanLaws M -> n_cols r <> 0%nat ->
  Forall (fun v => v = 0%Z) (unit_values r i) ->
  sigma_or_inf r i = PInf.
Proof.
  intros HF HM Hw Hzero. unfold sigma_or_inf, unit_mean.
  pose proof (mean_zero M HM (n_cols r) _ Hw Hzero) as H1.
  assert (Hsq : Forall (fun x => x = 0%Z)
                       (map (fun x => (x * x)%Z) (unit_row r i))).
  { apply Forall_map. eapply Forall_impl; [|apply unit_row_silent; exact Hzero].
    intros x ->. reflexivity. }
  pose proof (mean_zero M HM (n_cols r) _ Hw Hsq) as H2.
  destruct (sparse_mean (n_cols r) (unit_values r i)) as [a| | |];
    try discriminate.
  destruct (sparse_mean (n_cols r) (map (fun x => (x * x)%Z) (unit_row r i)))
    as [b| | |]; try discriminate.
  simpl in H1, H2. qbool.
  unfold Fp.mul, Fp.sub. cbn [Fl.mul fround].
  destruct (rnd_zero HF (a * a)) as [c [Hc Hc0]].
  { rewrite H1. apply Qmult_0_l. }
  rewrite Hc. unfold Fl.sub. cbn [Fl.neg Fl.add fround].
  destruct (rnd_zero HF (b + - c)) as [d [Hd Hd0]].
  { rewrite H2, Hc0. reflexivity. }
  rewrite Hd.
  assert (Hs : Fl.eqb (np_sqrt (Fin d)) (Fin 0) = true).
  { apply (sqrt_zero F HF). simpl. qbool. exact Hd0. }
  rewrite Hs. reflexivity.
Qed.

(** A deviation is NaN, infinite or positive: never zero, never
    negative. *)
Lemma sigma_or_inf_cases {F : Float64} {M : SparseMean} (r : csr) (i : nat) :
  IEEE F ->
  sigma_or_inf r i = NaN
  \/ sigma_or_inf r i = PInf
  \/ exists s : Q, sigma_or_inf r i = Fin s /\ 0 < s.
Proof.
  intro HF. unfold sigma_or_inf.
  set (x := Fp.sub _ _).
  destruct (sqrt_range F HF x) as [Hn | Hge].
  - left. rewrite Hn. reflexivity.
  - destruct (np_sqrt x) as [s| | |]; simpl in Hge; try discriminate.
    + qbool. destruct (Fl.eqb (Fin s) (Fin 0)) eqn:E.
      * right. left. reflexivity.
      * right. right. exists s. split; [reflexivity|].
        simpl in E. qbool. apply Qle_lt_or_eq in Hge.
        destruct Hge as [Hlt | Heq]; [exact Hlt|].
        exfalso. apply E. symmetry. exact Heq.
    + right. left. reflexivity.
Qed.

Lemma dotZ_zero_l (a b : list Z) :
  Forall (fun x => x = 0%Z) a -> dotZ a b = 0%Z.
Proof.
  unfold dotZ, zip_with. intro Hzero. revert b.
  induction Hzero as [|x a -> _ IH]; intros [|y b]; try reflexivity.
  simpl. change (sumZ (map (fun p => (fst p * snd p)%Z) (combine a b)) = 0%Z).
  apply IH.
Qed.

(** C5, as the code has it.  On a sparse raster with at least one bin,
    in every arithmetic that obeys the laws of float64, [pearson]
    returns a matrix whose diagonal is exactly 1.  In the row of a unit
    that never fires (no count other than zero is stored for it), the
    entry against another unit is 0 when that unit's mean is finite and
    its deviation, the square root of the float64 difference
    [Ex2 - Ex**2], is not NaN; it is NaN otherwise. *)
Theorem pearson_sparse_diagonal_and_silent_units :
  forall (F : Float64) (M : SparseMean),
    IEEE F -> MeanLaws M ->
    forall r : csr,
      n_cols r <> 0%nat ->
      exists C : list (list fl),
        pearson (SparseRaster r) = Ok C
        /\ (forall i, (i < n_rows r)%nat -> entry C i i = Some (Fin 1))
        /\ (forall i j,
               (i < n_rows r)%nat -> (j < n_rows r)%nat -> i <> j ->
               Forall (fun v => v = 0%Z) (unit_values r i) ->
               exists v : fl,
                 entry C i j = Some v
                 /\ if Fl.is_fin (unit_mean r j)
                       && negb (Fl.is_nan (sigma_or_inf r j))
                    then Fl.eqb v (Fin 0) = true
                    else v = NaN).
Proof.
  intros F M HF HM r Hw.
  destruct (pearson_sparse_entries r Hw) as [C [HC Hentries]].
  exists C. split; [exact HC|]. split.
  - intros i Hi. rewrite (Hentries i i Hi Hi).
    rewrite Nat.eqb_refl. reflexivity.
  - intros i j Hi Hj Hij Hzero.
    rewrite (Hentries i j Hi Hj).
    assert (Hne : Nat.eqb j i = false) by (apply Nat.eqb_neq; congruence).
    rewrite Hne. eexists. split; [reflexivity|].
    rewrite (sigma_or_inf_silent r i HF HM Hw Hzero).
    rewrite (dotZ_zero_l _ (unit_row r j) (unit_row_silent r i Hzero)).
    pose proof (mean_zero M HM (n_cols r) _ Hw Hzero) as Hmi.
    fold (unit_mean r i) in Hmi.
    destruct (unit_mean r i) as [a| | |]; try discriminate.
    simpl in Hmi. qbool.
    assert (Hinv : exists inv : Q,
               Fp.div (Fin 1) (Fl.of_nat (n_cols r)) = Fin inv).
    { unfold Fp.div, Fl.div, Fl.of_nat.
      rewrite (nat_divisor_nonzero _ Hw). cbn [fround].
      apply (rnd_unit F HF).
      assert (Hpos : 1 <= inject_Z (Z.of_nat (n_cols r))).
      { unfold Qle. simpl. lia. }
      rewrite Qabs_pos.
      - apply Qle_shift_div_r; lra.
      - apply Qle_shift_div_l; lra. }
    destruct Hinv as [inv ->].
    assert (HExy : exists e : Q,
               Fp.mul (Fl.of_Z 0) (Fin inv) = Fin e /\ e == 0).
    { unfold Fp.mul, Fl.of_Z. cbn [Fl.mul fround].
      apply (rnd_zero HF). change (inject_Z 0) with 0. apply Qmult_0_l. }
    destruct HExy as [e [-> He0]].
    destruct (unit_mean r j) as [mj| | |] eqn:Emj; cbn [Fl.is_fin andb].
    + (* a finite mean *)
      assert (HExx : exists c : Q,
                 Fp.mul (Fin a) (Fin mj) = Fin c /\ c == 0).
      { unfold Fp.mul. cbn [Fl.mul fround].
        apply (rnd_zero HF). rewrite Hmi. apply Qmult_0_l. }
      destruct HExx as [c [-> Hc0]].
      assert (Hnum : exists d : Q,
                 Fp.sub (Fin e) (Fin c) = Fin d /\ d == 0).
      { unfold Fp.sub, Fl.sub. cbn [Fl.neg Fl.add fround].
        apply (rnd_zero HF). rewrite He0, Hc0. reflexivity. }
      destruct Hnum as [d [-> Hd0]].
      assert (Hquot : Fl.eqb (Fp.div (Fin d) PInf) (Fin 0) = true).
      { unfold Fp.div. cbn [Fl.div fround].
        destruct (rnd_zero HF 0) as [z [Hz Hz0]]; [reflexivity|].
        rewrite Hz. simpl. qbool. exact Hz0. }
      destruct (sigma_or_inf_cases r j HF)
        as [Hs | [Hs | [s [Hs Hs0]]]]; rewrite Hs; cbn [Fl.is_nan negb].
      * reflexivity.
      * exact Hquot.
      * unfold Fp.mul. cbn [Fl.mul]. unfold Fl.scale_inf.
        assert (Hf : Qeqb s 0 = false) by (qbool; lra).
        assert (Ht : Qltb 0 s = true) by (qbool; lra).
        rewrite Hf, Ht. cbn [fround]. exact Hquot.
    + unfold Fp.mul. cbn [Fl.mul]. unfold Fl.scale_inf.
      assert (Hz : Qeqb a 0 = true) by (qbool; exact Hmi).
      rewrite Hz. reflexivity.
    + unfold Fp.mul. cbn [Fl.mul]. unfold Fl.scale_inf.
      assert (Hz : Qeqb a 0 = true) by (qbool; exact Hmi).
      rewrite Hz. reflexivity.
    + reflexivity.
Qed.

Lemma pearson_sparse_diagonal_and_silent_units_witness :
  exists C : list (list fl),
    @pearson binary64 (mean_in_row_order binary64)
             (SparseRaster (mkCsr [1; 1; 1]%Z [1; 2; 2]%Z [0; 0; 3]%nat 2 3))
    = Ok C
    /\ (forall i, (i < 2)%nat -> entry C i i = Some (Fin 1))
    /\ (forall i j,
           (i < 2)%nat -> (j < 2)%nat -> i <> j ->
           Forall (fun v => v = 0%Z)
                  (unit_values (mkCsr [1; 1; 1]%Z [1; 2; 2]%Z [0; 0; 3]%nat 2 3) i) ->
           exists v : fl,
             entry C i j = Some v
             /\ if Fl.is_fin
                     (@unit_mean (mean_in_row_order binary64)
                        (mkCsr [1; 1; 1]%Z [1; 2; 2]%Z [0; 0; 3]%nat 2 3) j)
                   && negb (Fl.is_nan
                              (@sigma_or_inf binary64
                                 (mean_in_row_order binary64)
                                 (mkCsr [1; 1; 1]%Z [1; 2; 2]%Z [0; 0; 3]%nat 2 3)
                                 j))
                then Fl.eqb v (Fin 0) = true
                else v = NaN).
Proof.
  apply (pearson_sparse_diagonal_and_silent_units
           binary64 (mean_in_row_order binary64)
           binary64_ieee binary64_mean_laws
           (mkCsr [1; 1; 1]%Z [1; 2; 2]%Z [0; 0; 3]%nat 2 3)).
  simpl. discriminate.
Defined.

(** C5, as stated, fails on a dense raster: [pearson] hands it to
    [np.corrcoef], and the unit that never fires gets NaN, also on the
    diagonal.  (A sparse raster without any bin has no correlation
    matrix: the division by the number of bins raises.) *)
Lemma pearson_dense_silent_unit_nan :
  (exists C : list (list fl),
      pearson (DenseRaster [[0; 0; 0]; [0; 1; 2]]%Z) = Ok C
      /\ entry C 0 0 = Some NaN
      /\ entry C 0 1 = Some NaN)
  /\ pearson (SparseRaster (mkCsr [] [] [0; 0]%nat 1 0))
     = Err ZeroDivisionError.
Proof.
  split; [|reflexivity].
  eexists. split; [vm_compute; reflexivity|].
  split; reflexivity.
Qed.

(** The same in binary64, where it also fails on a sparse raster: a
    unit with one spike in each of 20 bins has the float64 means
    [Ex = Ex2 = 1.0000000000000002] when the scaled entries are added in
    row order, so that [Ex2 - Ex**2] is negative and its square root is
    NaN; the entry of a silent unit against it is NaN. *)
Lemma pearson_binary64_silent_unit_nan :
  (exists C : list (list fl),
      @pearson binary64 (mean_in_row_order binary64)
               (DenseRaster [[0; 0; 0]; [0; 1; 2]]%Z) = Ok C
      /\ entry C 0 0 = Some NaN
      /\ entry C 0 1 = Some NaN)
  /\
  (exists C : list (list fl),
      @pearson binary64 (mean_in_row_order binary64)
               (SparseRaster (mkCsr (repeat 1%Z 20) (py_range 20)
                                    [0; 0; 20]%nat 2 20)) = Ok C
      /\ unit_values (mkCsr (repeat 1%Z 20) (py_range 20)
                                [0; 0; 20]%nat 2 20) 0 = []
      /\ entry C 0 1 = Some NaN).
Proof.
  split.
  - eexists. split; [vm_compute; reflexivity|]. split; reflexivity.
  - eexists. split; [vm_compute; reflexivity|].
    split; reflexivity.
Qed.

(** ** Rows of the sparse raster *)

Lemma cumsum_from_nth (lens : list nat) (a i : nat) :
  (i <= List.length lens)%nat ->
  nth i (a :: cumsum_from a lens) 0%nat = (a + list_sum (firstn i lens))%nat.
Proof.
  revert a i. induction lens as [|x lens IH]; intros a i Hi; simpl in Hi.
  - assert (i = 0)%nat by lia. subst. simpl. lia.
  - destruct i as [|i]; [simpl; lia|].
    change (nth (S i) (a :: cumsum_from a (x :: lens)) 0%nat)
      with (nth i ((a + x)%nat :: cumsum_from (a + x) lens) 0%nat).
    rewrite IH by lia. simpl. lia.
Qed.

Lemma concat_slice {A : Type} (ll : list (list A)) (i : nat) (x : list A) :
  nth_error ll i = Some x ->
  firstn (List.length x)
         (skipn (list_sum (map (@List.length A) (firstn i ll))) (concat ll)) = x.
Proof.
  revert i. induction ll as [|y ll IH]; intros i Hi.
  - destruct i; discriminate.
  - destruct i as [|i]; simpl in *.
    + injection Hi as ->. rewrite firstn_app, Nat.sub_diag, firstn_all.
      simpl. apply app_nil_r.
    + rewrite skipn_app, skipn_all2 by lia.
      replace (List.length y + list_sum (map (@List.length A) (firstn i ll))
               - List.length y)%nat
        with (list_sum (map (@List.length A) (firstn i ll))) by lia.
      simpl. apply IH. exact Hi.
Qed.

Lemma combine_map_same {A B C : Type} (f : A -> B) (g : A -> C) (l : list A) :
  combine (map f l) (map g l) = map (fun x => (f x, g x)) l.
Proof. induction l as [|x l IH]; simpl; [reflexivity|]. rewrite IH. reflexivity. Qed.

Lemma nth_error_firstn_sum {A : Type} (ll : list (list A)) (i : nat) (x : list A) :
  nth_error ll i = Some x ->
  list_sum (map (@List.length A) (firstn (S i) ll))
  = (list_sum (map (@List.length A) (firstn i ll)) + List.length x)%nat.
Proof.
  revert i. induction ll as [|y ll IH]; intros i Hi.
  - destruct i; discriminate.
  - destruct i as [|i].
    + simpl in *. injection Hi as ->. lia.
    + simpl in Hi. specialize (IH i Hi).
      rewrite !firstn_cons, !map_cons.
      unfold list_sum in *. cbn [fold_right]. lia.
Qed.

(** The state of a raster whose bin count is known. *)
Lemma sparse_raster_value {F : Float64} (sd : SpikeData) (bin_size : Q)
    (len : Z) :
  train sd <> [] -> bin_count sd bin_size = Ok len -> (0 <= len)%Z ->
  sparse_raster sd bin_size
  = Ok (mkCsr (map (fun _ => 1%Z)
                   (concat (map (map (raw_bin bin_size)) (train sd))))
              (map (fun x => np_clip x 0 (len - 1))
                   (concat (map (map (raw_bin bin_size)) (train sd))))
              (np_cumsum (0%nat :: map (@List.length Q) (train sd)))
              (N sd) (Z.to_nat len)).
Proof.
  intros Hne Hlen Hpos. unfold sparse_raster.
  destruct (train sd) as [|t0 trains] eqn:Etrain; [congruence|].
  rewrite Hlen. cbn [bind].
  destruct (Z.ltb_spec len 0); [lia|]. reflexivity.
Qed.

(** A raster that was built has that state. *)
Lemma sparse_raster_inv {F : Float64} (sd : SpikeData) (bin_size : Q)
    (r : csr) :
  sparse_raster sd bin_size = Ok r ->
  exists len : Z,
    bin_count sd bin_size = Ok len /\ (0 <= len)%Z /\ train sd <> []
    /\ r = mkCsr (map (fun _ => 1%Z)
                      (concat (map (map (raw_bin bin_size)) (train sd))))
                 (map (fun x => np_clip x 0 (len - 1))
                      (concat (map (map (raw_bin bin_size)) (train sd))))
                 (np_cumsum (0%nat :: map (@List.length Q) (train sd)))
                 (N sd) (Z.to_nat len).
Proof.
  intro Hr. unfold sparse_raster in Hr.
  destruct (train sd) as [|t0 trains] eqn:Etrain; [discriminate|].
  destruct (bin_count sd bin_size) as [len|e]; [|discriminate].
  cbn [bind] in Hr.
  destruct (Z.ltb_spec len 0); [discriminate|].
  injection Hr as <-. exists len.
  split; [reflexivity|]. split; [lia|]. split; [discriminate|]. reflexivity.
Qed.

(** The entries scipy stores for unit [i]: one per spike, with the
    clipped bin index as column and 1 as value. *)
Lemma sparse_raster_row {F : Float64} (sd : SpikeData) (bin_size : Q)
    (r : csr) (i : nat) (ts : list Q) :
  sparse_raster sd bin_size = Ok r ->
  nth_error (train sd) i = Some ts ->
  row_entries r i
  = map (fun t => (np_clip (raw_bin bin_size t) 0 (Z.of_nat (n_cols r) - 1),
                   1%Z)) ts.
Proof.
  intros Hr Hts.
  destruct (sparse_raster_inv sd bin_size r Hr) as [len [_ [Hlen [_ ->]]]].
  unfold row_entries. cbn [indptr indices data n_cols].
  rewrite Z2Nat.id by exact Hlen.
  set (clipf := fun x => np_clip x 0 (len - 1)).
  rewrite (combine_map_same clipf (fun _ => 1%Z)).
  rewrite concat_map, map_map.
  set (E := fun ts0 : list Q =>
              map (fun x => (clipf x, 1%Z)) (map (raw_bin bin_size) ts0)).
  assert (Hi : (i < List.length (train sd))%nat).
  { apply nth_error_Some. congruence. }
  unfold np_cumsum. cbn [cumsum_from]. rewrite !Nat.add_0_l.
  rewrite !cumsum_from_nth by (rewrite length_map; lia).
  rewrite !Nat.add_0_l.
  assert (Hlens : map (@List.length Q) (train sd)
                  = map (@List.length (Z * Z)) (map E (train sd))).
  { rewrite map_map. apply map_ext. intro l. unfold E.
    rewrite !length_map. reflexivity. }
  rewrite Hlens, !(firstn_map (@List.length (Z * Z))).
  assert (HE : nth_error (map E (train sd)) i = Some (E ts)).
  { rewrite nth_error_map, Hts. reflexivity. }
  rewrite (nth_error_firstn_sum (map E (train sd)) i (E ts) HE).
  replace (list_sum (map (@List.length (Z * Z)) (firstn i (map E (train sd))))
           + List.length (E ts)
           - list_sum (map (@List.length (Z * Z)) (firstn i (map E (train sd)))))%nat
    with (List.length (E ts)) by lia.
  rewrite (concat_slice (map E (train sd)) i (E ts) HE).
  unfold E. rewrite map_map. reflexivity.
Qed.

(** ** Row sums of the dense raster *)

Lemma sumZ_app (a b : list Z) : sumZ (a ++ b) = (sumZ a + sumZ b)%Z.
Proof. induction a as [|x a IH]; simpl; [reflexivity|]. rewrite IH. lia. Qed.

Lemma sumZ_map_add {A : Type} (f g : A -> Z) (l : list A) :
  sumZ (map (fun j => (f j + g j)%Z) l) = (sumZ (map f l) + sumZ (map g l))%Z.
Proof. induction l as [|x l IH]; simpl; [reflexivity|]. rewrite IH. lia. Qed.

Lemma indicator_sum_out (w : nat) (c v : Z) :
  (c < 0 \/ Z.of_nat w <= c)%Z ->
  sumZ (map (fun j => if Z.eqb c (Z.of_nat j) then v else 0%Z) (seq 0 w)) = 0%Z.
Proof.
  induction w as [|w IH]; intro Hc; [reflexivity|].
  rewrite seq_S, map_app, sumZ_app, IH by lia. simpl.
  destruct (Z.eqb_spec c (Z.of_nat w)); lia.
Qed.

Lemma indicator_sum_in (w : nat) (c v : Z) :
  (0 <= c < Z.of_nat w)%Z ->
  sumZ (map (fun j => if Z.eqb c (Z.of_nat j) then v else 0%Z) (seq 0 w)) = v.
Proof.
  induction w as [|w IH]; intro Hc; [lia|].
  rewrite seq_S, map_app, sumZ_app. simpl.
  destruct (Z.eqb_spec c (Z.of_nat w)) as [Heq | Hne].
  - rewrite indicator_sum_out by lia. lia.
  - rewrite IH by lia. lia.
Qed.

Lemma cell_cons (e : Z * Z) (es : list (Z * Z)) (j : nat) :
  cell (e :: es) j
  = ((if Z.eqb (fst e) (Z.of_nat j) then snd e else 0) + cell es j)%Z.
Proof.
  unfold cell. simpl. destruct (Z.eqb (fst e) (Z.of_nat j)); reflexivity.
Qed.

(** A row of the dense matrix adds up to the stored values whose column
    lies inside the matrix. *)
Lemma row_sum_cells (w : nat) (es : list (Z * Z)) :
  Forall (fun e => (0 <= fst e < Z.of_nat w)%Z) es ->
  sumZ (map (cell es) (seq 0 w)) = sumZ (map snd es).
Proof.
  induction 1 as [|e es He Hes IH]; simpl.
  - induction (seq 0 w) as [|j l IHl]; simpl; [reflexivity|].
    rewrite IHl. reflexivity.
  - rewrite (map_ext _ _ (cell_cons e es)).
    rewrite (sumZ_map_add
               (fun j => if Z.eqb (fst e) (Z.of_nat j) then snd e else 0%Z)
               (cell es)).
    rewrite indicator_sum_in by exact He. rewrite IH. reflexivity.
Qed.

Lemma np_clip_range (x hi : Z) :
  (0 <= hi)%Z -> (0 <= np_clip x 0 hi <= hi)%Z.
Proof. unfold np_clip. lia. Qed.

Lemma np_clip_id (x hi : Z) : (0 <= x <= hi)%Z -> np_clip x 0 hi = x.
Proof. unfold np_clip. lia. Qed.

(** ** Bin indices *)

Lemma Qceiling_pos (x : Q) : 0 < x -> (1 <= Qceiling x)%Z.
Proof.
  intro Hx. pose proof (Qle_ceiling x) as Hle.
  assert (H : 0 < inject_Z (Qceiling x)) by lra.
  unfold Qlt in H. simpl in H. lia.
Qed.


Lemma positive_divisor (b : Q) : 0 < b -> Qeqb b 0 = false.
Proof. intro Hb. qbool. lra. Qed.

(** The number of bins is the ceiling of the float64 quotient. *)
Lemma bin_count_value {F : Float64} (sd : SpikeData) (bin_size q : Q) :
  length_over (length sd) bin_size = Ok (Fin q) ->
  bin_count sd bin_size = Ok (Qceiling q).
Proof.
  intro Hq. unfold bin_count. rewrite Hq. cbn [bind np_ceil py_int].
  rewrite (py_trunc_int _ (Qceiling q)); reflexivity.
Qed.


(** The index computed for a spike: the ceiling of the float64 quotient,
    less one, as long as that is an integer float64 represents. *)
Lemma raw_bin_value {F : Float64} (HF : IEEE F) (bin_size t q : Q) :
  0 < bin_size -> rnd (t / bin_size) = Fin q ->
  (Z.abs (Qceiling q - 1) <= 2 ^ 53)%Z ->
  raw_bin bin_size t = (Qceiling q - 1)%Z.
Proof.
  intros Hb Hq Hc. unfold raw_bin, Fp.div. cbn [Fl.div].
  rewrite (positive_divisor bin_size Hb). cbn [fround]. rewrite Hq.
  cbn [np_ceil]. unfold Fp.sub, Fl.sub. cbn [Fl.neg Fl.add fround].
  destruct (rnd_int_val HF (inject_Z (Qceiling q) + - (1)) (Qceiling q - 1))
    as [v [Hv Hv1]].
  { unfold Qeq, Qplus, Qopp, inject_Z. simpl. lia. }
  { exact Hc. }
  rewrite Hv. apply (astype_int_exact F HF); [lia|exact Hv1].
Qed.

(** A spike whose exact quotient is an integer. *)
Lemma raw_bin_int {F : Float64} (HF : IEEE F) (bin_size t : Q) (z : Z) :
  0 < bin_size -> t / bin_size == inject_Z z ->
  (Z.abs z < 2 ^ 53)%Z ->
  raw_bin bin_size t = (z - 1)%Z.
Proof.
  intros Hb Hz Hr.
  destruct (rnd_int_val HF (t / bin_size) z Hz) as [q [Hq Hqz]]; [lia|].
  rewrite (raw_bin_value HF bin_size t q Hb Hq);
    rewrite (Qceiling_comp _ _ Hqz), Qceiling_Z; [reflexivity|lia].
Qed.

(** A spike at time 0 gets index -1, which the clip raises to the first
    bin. *)
Lemma raw_bin_zero {F : Float64} (HF : IEEE F) (bin_size t : Q) :
  0 < bin_size -> t == 0 -> raw_bin bin_size t = (-1)%Z.
Proof.
  intros Hb Ht. apply (raw_bin_int HF bin_size t 0 Hb).
  - rewrite Ht. unfold Qdiv. apply Qmult_0_l.
  - vm_compute. reflexivity.
Qed.

(** In idealised arithmetic the index the code computes is that of the
    specification's rule once both are clipped: the only difference, at
    [t = 0], is an index of -1 that the clip raises to the first bin. *)
Lemma exact_clipped_bin_agrees (bin_size t : Q) (hi : Z) :
  0 < bin_size ->
  np_clip (raw_bin bin_size t) 0 hi = np_clip (spec_bin_index bin_size t) 0 hi.
Proof.
  intro Hb.
  assert (Hraw : raw_bin bin_size t = (Qceiling (t / bin_size) - 1)%Z).
  { unfold raw_bin, Fp.div, Fp.sub, Fl.sub. cbn [Fl.div].
    rewrite (positive_divisor bin_size Hb).
    cbn [fround rnd exact_arith np_ceil Fl.neg Fl.add astype_int].
    apply py_trunc_int. unfold Qeq, Qplus, Qopp, inject_Z. simpl. lia. }
  rewrite Hraw. unfold spec_bin_index.
  destruct (Qeqb t 0) eqn:E; [|reflexivity]. qbool.
  assert (H : t / bin_size == 0).
  { rewrite E. unfold Qdiv. apply Qmult_0_l. }
  rewrite (Qceiling_comp _ _ H). unfold np_clip. simpl. lia.
Qed.

Lemma sparse_raster_ok {F : Float64} (sd : SpikeData) (bin_size q : Q) :
  train sd <> [] ->
  length_over (length sd) bin_size = Ok (Fin q) ->
  (0 <= Qceiling q)%Z ->
  exists r : csr,
    sparse_raster sd bin_size = Ok r
    /\ n_rows r = N sd
    /\ Z.of_nat (n_cols r) = Qceiling q.
Proof.
  intros Hne Hq Hpos.
  rewrite (sparse_raster_value sd bin_size (Qceiling q) Hne
             (bin_count_value sd bin_size q Hq) Hpos).
  eexists. split; [reflexivity|]. cbn [n_rows n_cols].
  split; [reflexivity|]. apply Z2Nat.id. exact Hpos.
Qed.

(** C2, as the code has it.  In every arithmetic that obeys the laws of
    float64, times [[0, 5, 10]] with bin size 5 and length 10 give 2 bins
    with counts [[2, 1]].  For a store with at least one unit and a
    positive bin size for which the float64 quotient
    [length / bin_size] is a positive number [qL], the raster has
    [ceil(qL)] bins and one row per unit; every spike is stored once, in
    the bin that the code computes for it, clipped into
    [[0, bin_count - 1]]; the bin computed for a spike at [t] is
    [ceil(q) - 1] where [q] is the float64 quotient [t / bin_size], as
    long as that index is within [2^53]; a spike at 0 gets -1 and lands
    in bin 0. *)
Theorem sparse_raster_bin_rule :
  forall F : Float64,
    IEEE F ->
    raster (mkSpikeData [[0; 5; 10]] 10) 5 = Ok [[2; 1]]%Z
    /\
    forall (sd : SpikeData) (bin_size qL : Q),
      0 < bin_size -> train sd <> [] ->
      length_over (length sd) bin_size = Ok (Fin qL) -> 0 < qL ->
      exists r : csr,
        sparse_raster sd bin_size = Ok r
        /\ n_rows r = N sd
        /\ Z.of_nat (n_cols r) = Qceiling qL
        /\ forall (i : nat) (ts : list Q),
            nth_error (train sd) i = Some ts ->
            map fst (row_entries r i)
            = map (fun t => np_clip (raw_bin bin_size t) 0
                                    (Z.of_nat (n_cols r) - 1)) ts
            /\ map snd (row_entries r i) = map (fun _ => 1%Z) ts
            /\ Forall (fun b => (0 <= b <= Z.of_nat (n_cols r) - 1)%Z)
                      (map fst (row_entries r i))
            /\ forall t : Q,
                In t ts ->
                (forall q : Q,
                    rnd (t / bin_size) = Fin q ->
                    (Z.abs (Qceiling q - 1) <= 2 ^ 53)%Z ->
                    raw_bin bin_size t = (Qceiling q - 1)%Z)
                /\ (t == 0 ->
                    raw_bin bin_size t = (-1)%Z
                    /\ np_clip (raw_bin bin_size t) 0 (Z.of_nat (n_cols r) - 1)
                       = 0%Z).
Proof.
  intros F HF. split.
  - assert (Hb : 0 < 5) by reflexivity.
    assert (Hlen : bin_count (mkSpikeData [[0; 5; 10]] 10) 5 = Ok 2%Z).
    { destruct (rnd_int_val HF (10 / 5) 2%Z) as [a [Ha Ha2]];
        [reflexivity|vm_compute; discriminate|].
      rewrite (bin_count_value _ 5 a).
      - rewrite (Qceiling_comp _ _ Ha2), Qceiling_Z. reflexivity.
      - cbn [length]. rewrite (length_over_quotient F HF); [|discriminate].
        rewrite Ha. reflexivity. }
    unfold raster.
    rewrite (sparse_raster_value _ 5 2%Z); [|discriminate|exact Hlen|lia].
    cbn [train map concat app].
    rewrite (raw_bin_zero HF 5 0 Hb) by reflexivity.
    rewrite (raw_bin_int HF 5 5 1%Z Hb) by (try reflexivity; vm_compute; reflexivity).
    rewrite (raw_bin_int HF 5 10 2%Z Hb) by (try reflexivity; vm_compute; reflexivity).
    reflexivity.
  - intros sd bin_size qL Hb Hne HqL Hpos.
    pose proof (Qceiling_pos qL Hpos) as Hbins.
    destruct (sparse_raster_ok sd bin_size qL Hne HqL) as [r [Hr [Hrows Hcols]]];
      [lia|].
    exists r. split; [exact Hr|]. split; [exact Hrows|].
    split; [exact Hcols|].
    intros i ts Hts.
    rewrite (sparse_raster_row sd bin_size r i ts Hr Hts).
    rewrite !map_map. cbn [fst snd].
    split; [reflexivity|]. split; [reflexivity|].
    split.
    + apply Forall_forall. intros b Hb'. apply in_map_iff in Hb'.
      destruct Hb' as [t [<- _]]. apply np_clip_range. lia.
    + intros t _. split.
      * intros q Hq Hc. apply (raw_bin_value HF bin_size t q Hb Hq Hc).
      * intro Ht. rewrite (raw_bin_zero HF bin_size t Hb Ht).
        split; [reflexivity|]. unfold np_clip. lia.
Qed.

Lemma sparse_raster_bin_rule_witness :
  exists r : csr,
    @sparse_raster binary64 (mkSpikeData [[0; 5; 10]; [12]] 10) 5 = Ok r
    /\ n_rows r = 2%nat
    /\ n_cols r = 2%nat
    /\ map fst (row_entries r 0) = [0; 0; 1]%Z
    /\ map fst (row_entries r 1) = [1]%Z.
Proof.
  destruct (proj2 (sparse_raster_bin_rule binary64 binary64_ieee)
                  (mkSpikeData [[0; 5; 10]; [12]] 10) 5 (scaled (2 ^ 52) (-51))
                  ltac:(reflexivity) ltac:(discriminate)
                  ltac:(vm_compute; reflexivity) ltac:(reflexivity))
    as [r [Hr [Hrows [Hcols Hunits]]]].
  exists r. split; [exact Hr|]. split; [exact Hrows|].
  assert (Hc : n_cols r = 2%nat).
  { apply Nat2Z.inj. rewrite Hcols. reflexivity. }
  split; [exact Hc|].
  destruct (Hunits 0%nat [0; 5; 10] eq_refl) as [H0 _].
  destruct (Hunits 1%nat [12] eq_refl) as [H1 _].
  rewrite H0, H1, Hc. split; vm_compute; reflexivity.
Defined.

(** C2, as stated, fails in binary64.  On a store of length 0 whose only
    spike is at time 0 the raster has no bin, and the spike is stored
    with column index -1, not in bin 0.  On a store without units the
    raster cannot be built.  On a store of length 349.8 with a spike at
    349.8, binned at 0.3, the float64 quotient is 1166.0 although the
    quotient of the two float64 numbers exceeds 1166: the raster has 1166
    bins and the spike is in bin 1165, where the ceiling of the exact
    quotient gives 1167 bins and bin 1166. *)
Lemma sparse_raster_zero_length :
  @sparse_raster binary64 (mkSpikeData [[0]] 0) 5
  = Ok (mkCsr [1]%Z [-1]%Z [0; 1]%nat 1 0)
  /\ @sparse_raster binary64 (mkSpikeData [] 10) 5 = Err ValueError
  /\ @sparse_raster binary64
       (mkSpikeData [[f64 (3498 # 10)]] (f64 (3498 # 10))) (f64 (3 # 10))
     = Ok (mkCsr [1]%Z [1165]%Z [0; 1]%nat 1 1166)
  /\ Qceiling (f64 (3498 # 10) / f64 (3 # 10)) = 1167%Z.
Proof. repeat split; vm_compute; reflexivity. Qed.

(** The row of a unit in the dense raster adds up to its spike count as
    soon as the raster has a bin. *)
Lemma raster_row_sum {F : Float64} (sd : SpikeData) (bin_size q : Q)
    (i : nat) (ts : list Q) :
  length_over (length sd) bin_size = Ok (Fin q) -> 0 < q ->
  nth_error (train sd) i = Some ts ->
  exists (m : list (list Z)) (row : list Z),
    raster sd bin_size = Ok m
    /\ nth_error m i = Some row
    /\ Z.of_nat (List.length row) = Qceiling q
    /\ sumZ row = Z.of_nat (List.length ts).
Proof.
  intros Hq Hpos Hts.
  assert (Hne : train sd <> []).
  { intro Hnil. rewrite Hnil in Hts. destruct i; discriminate. }
  pose proof (Qceiling_pos q Hpos) as Hbins.
  destruct (sparse_raster_ok sd bin_size q Hne Hq) as [r [Hr [Hrows Hcols]]];
    [lia|].
  assert (Hi : (i < n_rows r)%nat).
  { rewrite Hrows. unfold N. apply nth_error_Some. congruence. }
  unfold raster. rewrite Hr. cbn [bind].
  eexists. eexists. split; [reflexivity|].
  split; [apply toarray_row; exact Hi|].
  split.
  - rewrite length_map, length_seq. exact Hcols.
  - rewrite (sparse_raster_row sd bin_size r i ts Hr Hts).
    rewrite row_sum_cells.
    + rewrite map_map. cbn [snd].
      clear. induction ts as [|t ts IH]; [reflexivity|].
      cbn [map sumZ fold_right List.length]. unfold sumZ in IH.
      rewrite IH. lia.
    + apply Forall_forall. intros e He. apply in_map_iff in He.
      destruct He as [t [<- _]]. cbn [fst].
      pose proof (np_clip_range (raw_bin bin_size t)
                                (Z.of_nat (n_cols r) - 1)).
      lia.
Qed.

(** C9, as the code has it: in every float64 arithmetic, when the
    float64 quotient [length / bin_size] is a positive number, every
    unit's raster row adds up to that unit's number of spikes. *)
Theorem raster_conserves_counts :
  forall (F : Float64) (sd : SpikeData) (bin_size q : Q),
    length_over (length sd) bin_size = Ok (Fin q) -> 0 < q ->
    forall (i : nat) (ts : list Q),
      nth_error (train sd) i = Some ts ->
      exists (m : list (list Z)) (row : list Z),
        raster sd bin_size = Ok m
        /\ nth_error m i = Some row
        /\ sumZ row = Z.of_nat (List.length ts).
Proof.
  intros F sd bin_size q Hq Hpos i ts Hts.
  destruct (raster_row_sum sd bin_size q i ts Hq Hpos Hts)
    as [m [row [Hm [Hrow [_ Hsum]]]]].
  exists m, row. auto.
Qed.

Lemma raster_conserves_counts_witness :
  exists (m : list (list Z)) (row : list Z),
    @raster binary64 (mkSpikeData [[0; 5; 10]; [3; 3; 4; 9]] 10) 5 = Ok m
    /\ nth_error m 1 = Some row
    /\ sumZ row = Z.of_nat (List.length [3; 3; 4; 9]).
Proof.
  refine (raster_conserves_counts binary64
            (mkSpikeData [[0; 5; 10]; [3; 3; 4; 9]] 10) 5
            (scaled (2 ^ 52) (-51))
            _ _ 1%nat [3; 3; 4; 9] _).
  - vm_compute. reflexivity.
  - reflexivity.
  - reflexivity.
Defined.

(** C9, as stated, fails in binary64.  The store of length 0 whose only
    spike is at time 0 satisfies the invariant; its raster has no bin,
    and the row of its unit adds up to 0, not 1.  So does the store whose
    length is the smallest positive float64, [2^-1074], binned at 20: the
    quotient underflows to 0. *)
Lemma raster_zero_length_loses_spike :
  (forall ts t, In ts (train (mkSpikeData [[0]] 0)) -> In t ts ->
                t <= length (mkSpikeData [[0]] 0))
  /\ @raster binary64 (mkSpikeData [[0]] 0) 5 = Ok [[]]
  /\ 0 < scaled 1 (-1074)
  /\ @raster binary64 (mkSpikeData [[0]] (scaled 1 (-1074))) 20 = Ok [[]]
  /\ sumZ [] <> Z.of_nat (List.length [0]).
Proof.
  split; [|split; [|split; [|split]]].
  - intros ts t Hts Ht. simpl in Hts. destruct Hts as [<- | []].
    simpl in Ht. destruct Ht as [<- | []]. simpl. lra.
  - vm_compute. reflexivity.
  - reflexivity.
  - vm_compute. reflexivity.
  - discriminate.
Qed.

(** ** Avalanche segmentation *)

Lemma list_ind2 {A : Type} (P : list A -> Prop) :
  P [] -> (forall a, P [a]) -> (forall a b l, P l -> P (a :: b :: l)) ->
  forall l, P l.
Proof.
  intros Hnil Hone Hstep l.
  assert (H : P l /\ forall a, P (a :: l)).
  { induction l as [|x l [IH1 IH2]].
    - split; [exact Hnil|exact Hone].
    - split; [apply IH2|]. intro a. apply Hstep. exact IH1. }
  apply H.
Qed.

Lemma toggle_pairs_cons2 (a b : nat) (T : list nat) :
  toggle_pairs (a :: b :: T) = (a, b) :: toggle_pairs T.
Proof.
  unfold toggle_pairs. destruct T as [|c T]; reflexivity.
Qed.

Lemma toggle_pairs_map_S (T : list nat) :
  toggle_pairs (map S T)
  = map (fun p => (S (fst p), S (snd p))) (toggle_pairs T).
Proof.
  induction T as [| a | a b T IH] using list_ind2; try reflexivity.
  cbn [map]. rewrite !toggle_pairs_cons2. cbn [map fst snd].
  rewrite IH. reflexivity.
Qed.

Lemma np_where_from_S (k : nat) (mask : list bool) :
  np_where_from (S k) mask = map S (np_where_from k mask).
Proof.
  revert k. induction mask as [|b mask IH]; intro k; simpl; [reflexivity|].
  destruct b; simpl; rewrite IH; reflexivity.
Qed.

Lemma toggles_cons (thresh : fl) (c c' : Z) (rest : list Z) :
  toggles thresh (c :: c' :: rest)
  = (if xorb (is_active thresh c') (is_active thresh c) then [0%nat] else [])
    ++ map S (toggles thresh (c' :: rest)).
Proof.
  unfold toggles, np_where. cbn [map np_diff_bool np_where_from].
  rewrite np_where_from_S.
  destruct (xorb (is_active thresh c') (is_active thresh c)); reflexivity.
Qed.

Lemma cut_runs_shift (c : Z) (counts : list Z) (ps : list (nat * nat)) :
  cut_runs (c :: counts) (map (fun p => (S (fst p), S (snd p))) ps)
  = cut_runs counts ps.
Proof.
  unfold cut_runs. rewrite map_map. apply map_ext. intros [u d].
  reflexivity.
Qed.

Lemma skipn_map_S (n : nat) (T : list nat) :
  skipn n (map S T) = map S (skipn n T).
Proof. apply skipn_map. Qed.

Lemma avalanches_of_counts_runs (thresh : fl) (counts : list Z) :
  avalanches_of_counts thresh counts
  = match counts with
    | [] => Err IndexError
    | _ => Ok (code_runs thresh counts)
    end.
Proof.
  destruct counts as [|c rest]; [reflexivity|].
  unfold avalanches_of_counts, code_runs, cut_runs, toggle_pairs.
  fold (toggles thresh (c :: rest)). cbn [map].
  destruct (is_active thresh c); [|reflexivity].
  replace (skipn 1 (skipn 1 (toggles thresh (c :: rest))))
    with (skipn 2 (toggles thresh (c :: rest))); [reflexivity|].
  destruct (toggles thresh (c :: rest)) as [|a [|b T]]; reflexivity.
Qed.

(** How the runs cut out by the code change when a bin is put in front. *)
Lemma code_runs_same (thresh : fl) (c c' : Z) (rest : list Z) :
  is_active thresh c = is_active thresh c' ->
  code_runs thresh (c :: c' :: rest) = code_runs thresh (c' :: rest).
Proof.
  intro Hact. unfold code_runs. rewrite toggles_cons, Hact, xorb_nilpotent.
  cbn [app]. rewrite skipn_map_S.
  destruct (is_active thresh c'); rewrite toggle_pairs_map_S;
    apply cut_runs_shift.
Qed.

Lemma code_runs_down (thresh : fl) (c c' : Z) (rest : list Z) :
  is_active thresh c = true -> is_active thresh c' = false ->
  code_runs thresh (c :: c' :: rest) = code_runs thresh (c' :: rest).
Proof.
  intros Hc Hc'. unfold code_runs. rewrite toggles_cons, Hc, Hc'.
  cbn [xorb app skipn]. rewrite toggle_pairs_map_S. apply cut_runs_shift.
Qed.

Lemma code_runs_up (thresh : fl) (c c' : Z) (rest : list Z) :
  is_active thresh c = false -> is_active thresh c' = true ->
  code_runs thresh (c :: c' :: rest)
  = match toggles thresh (c' :: rest) with
    | d :: _ => [firstn (S d) (c' :: rest)]
    | [] => []
    end ++ code_runs thresh (c' :: rest).
Proof.
  intros Hc Hc'. unfold code_runs. rewrite toggles_cons, Hc, Hc'.
  cbn [xorb app].
  destruct (toggles thresh (c' :: rest)) as [|d T]; [reflexivity|].
  cbn [map skipn]. rewrite toggle_pairs_cons2.
  unfold cut_runs at 1. cbn [map fst snd].
  rewrite toggle_pairs_map_S.
  fold (cut_runs (c :: c' :: rest)
                 (map (fun p => (S (fst p), S (snd p))) (toggle_pairs T))).
  rewrite cut_runs_shift.
  unfold py_slice. rewrite !Nat.add_1_r. reflexivity.
Qed.

(** The state machine of the specification, started after a first bin,
    emits what the code cuts out. *)
Lemma seg_run_code_runs (thresh : fl) (rest : list Z) :
  forall c : Z,
    (is_active thresh c = false ->
     seg_run thresh INACTIVE rest = code_runs thresh (c :: rest))
    /\ (is_active thresh c = true ->
        forall run, seg_run thresh (ACTIVE false run) rest
                    = code_runs thresh (c :: rest))
    /\ (is_active thresh c = true ->
        forall run,
          seg_run thresh (ACTIVE true run) rest
          = match toggles thresh (c :: rest) with
            | d :: _ => [run ++ firstn d rest]
            | [] => []
            end ++ code_runs thresh (c :: rest)).
Proof.
  induction rest as [|c' rest IH]; intro c.
  - unfold code_runs, toggles.
    repeat split; intros; destruct (is_active thresh c); reflexivity.
  - destruct (IH c') as [IHi [IHu IHo]].
    destruct (is_active thresh c') eqn:Ec'.
    + (* the next bin is active *)
      repeat split.
      * intro Ec. cbn [seg_run]. unfold seg_step. rewrite Ec'. cbn [fst snd app].
        rewrite (IHo eq_refl). rewrite (code_runs_up thresh c c' rest Ec Ec').
        destruct (toggles thresh (c' :: rest)); reflexivity.
      * intros Ec run. cbn [seg_run]. unfold seg_step. rewrite Ec'.
        cbn [fst snd app]. rewrite (IHu eq_refl).
        symmetry. apply code_runs_same. congruence.
      * intros Ec run. cbn [seg_run]. unfold seg_step. rewrite Ec'.
        cbn [fst snd app]. rewrite (IHo eq_refl).
        rewrite (code_runs_same thresh c c' rest) by congruence.
        rewrite toggles_cons, Ec, Ec'. cbn [xorb app].
        destruct (toggles thresh (c' :: rest)) as [|d T]; [reflexivity|].
        cbn [map firstn]. rewrite <- app_assoc. reflexivity.
    + (* the next bin is inactive *)
      repeat split.
      * intro Ec. cbn [seg_run]. unfold seg_step. rewrite Ec'. cbn [fst snd app].
        rewrite (IHi eq_refl).
        symmetry. apply code_runs_same. congruence.
      * intros Ec run. cbn [seg_run]. unfold seg_step. rewrite Ec'.
        cbn [fst snd app]. rewrite (IHi eq_refl).
        symmetry. apply code_runs_down; assumption.
      * intros Ec run. cbn [seg_run]. unfold seg_step. rewrite Ec'.
        cbn [fst snd app]. rewrite (IHi eq_refl).
        rewrite (code_runs_down thresh c c' rest Ec Ec').
        rewrite toggles_cons, Ec, Ec'. cbn [xorb app firstn].
        rewrite app_nil_r. reflexivity.
Qed.

(** ** The segmenter emits the bounded runs *)

Lemma bounded_run_cons (thresh : fl) (c : Z) (l run : list Z) :
  bounded_run thresh (c :: l) run
  <-> (is_active thresh c = false /\ leading_run thresh l run)
      \/ bounded_run thresh l run.
Proof.
  split.
  - intros [pre [post [x [y [Heq [Hx [Hy [Hne Hall]]]]]]]].
    destruct pre as [|c0 pre]; simpl in Heq; injection Heq as -> ->.
    + left. split; [exact Hx|]. exists y, post. auto.
    + right. exists pre, post, x, y. auto.
  - intros [[Hc [y [post [-> [Hy [Hne Hall]]]]]] | H].
    + exists [], post, c, y. auto.
    + destruct H as [pre [post [x [y [-> H]]]]].
      exists (c :: pre), post, x, y. auto.
Qed.

Lemma bounded_run_nil (thresh : fl) (run : list Z) :
  ~ bounded_run thresh [] run.
Proof.
  intros [pre [post [x [y [Heq _]]]]]. destruct pre; discriminate.
Qed.

Lemma leading_run_nil (thresh : fl) (run : list Z) :
  ~ leading_run thresh [] run.
Proof.
  intros [y [post [Heq _]]]. destruct run; discriminate.
Qed.

Lemma closing_run_nil (thresh : fl) (open run : list Z) :
  ~ closing_run thresh [] open run.
Proof.
  intros [p [y [post [Heq _]]]]. destruct p; discriminate.
Qed.

Lemma leading_run_inactive (thresh : fl) (c : Z) (l run : list Z) :
  is_active thresh c = false -> ~ leading_run thresh (c :: l) run.
Proof.
  intros Hc [y [post [Heq [_ [Hne Hall]]]]].
  destruct run as [|c0 run]; [congruence|].
  simpl in Heq. injection Heq as <- _.
  inversion Hall; subst. congruence.
Qed.

Lemma leading_run_active (thresh : fl) (c : Z) (l run : list Z) :
  is_active thresh c = true ->
  leading_run thresh (c :: l) run <-> closing_run thresh l [c] run.
Proof.
  intro Hc. split.
  - intros [y [post [Heq [Hy [Hne Hall]]]]].
    destruct run as [|c0 run]; [congruence|].
    simpl in Heq. injection Heq as <- ->.
    inversion Hall; subst.
    exists run, y, post. auto.
  - intros [p [y [post [-> [Hall [Hy ->]]]]]].
    exists y, post. repeat split; try assumption.
    + discriminate.
    + constructor; assumption.
Qed.

Lemma closing_run_inactive (thresh : fl) (c : Z) (l open run : list Z) :
  is_active thresh c = false ->
  closing_run thresh (c :: l) open run <-> run = open.
Proof.
  intro Hc. split.
  - intros [p [y [post [Heq [Hall [Hy ->]]]]]].
    destruct p as [|c0 p]; [apply app_nil_r|].
    simpl in Heq. injection Heq as <- _.
    inversion Hall; subst. congruence.
  - intros ->. exists [], c, l. repeat split; try assumption.
    + constructor.
    + symmetry. apply app_nil_r.
Qed.

Lemma closing_run_active (thresh : fl) (c : Z) (l open run : list Z) :
  is_active thresh c = true ->
  closing_run thresh (c :: l) open run
  <-> closing_run thresh l (open ++ [c]) run.
Proof.
  intro Hc. split.
  - intros [p [y [post [Heq [Hall [Hy ->]]]]]].
    destruct p as [|c0 p]; simpl in Heq; injection Heq as <- ->.
    + congruence.
    + inversion Hall; subst. exists p, y, post.
      repeat split; try assumption. rewrite <- app_assoc. reflexivity.
  - intros [p [y [post [-> [Hall [Hy ->]]]]]].
    exists (c :: p), y, post. repeat split; try assumption.
    + constructor; assumption.
    + rewrite <- app_assoc. reflexivity.
Qed.

Lemma seg_run_bounded_runs (thresh : fl) (l : list Z) (run : list Z) :
  (In run (seg_run thresh INACTIVE l)
   <-> leading_run thresh l run \/ bounded_run thresh l run)
  /\ (forall open, In run (seg_run thresh (ACTIVE true open) l)
                   <-> closing_run thresh l open run \/ bounded_run thresh l run)
  /\ (forall open, In run (seg_run thresh (ACTIVE false open) l)
                   <-> bounded_run thresh l run).
Proof.
  induction l as [|c l [IHi [IHo IHu]]].
  - repeat split; simpl; try tauto.
    + intros [H | H]; [eapply leading_run_nil|eapply bounded_run_nil]; exact H.
    + intros [H | H]; [eapply closing_run_nil|eapply bounded_run_nil]; exact H.
    + apply bounded_run_nil.
  - cbn [seg_run]. unfold seg_step.
    destruct (is_active thresh c) eqn:Ec; cbn [fst snd app].
    + (* an active bin *)
      repeat split.
      * rewrite IHo. rewrite (leading_run_active thresh c l run Ec).
        rewrite bounded_run_cons. intuition congruence.
      * rewrite IHo. rewrite (leading_run_active thresh c l run Ec).
        rewrite bounded_run_cons. intuition congruence.
      * rewrite IHo. rewrite (closing_run_active thresh c l open run Ec).
        rewrite bounded_run_cons. intuition congruence.
      * rewrite IHo. rewrite (closing_run_active thresh c l open run Ec).
        rewrite bounded_run_cons. intuition congruence.
      * rewrite IHu. rewrite bounded_run_cons. intuition congruence.
      * rewrite IHu. rewrite bounded_run_cons. intuition congruence.
    + (* an inactive bin *)
      repeat split.
      * rewrite IHi. rewrite bounded_run_cons. intuition.
      * rewrite IHi. rewrite bounded_run_cons.
        intros [H | H]; [|tauto].
        exfalso. exact (leading_run_inactive thresh c l run Ec H).
      * cbn [In]. rewrite IHi.
        rewrite (closing_run_inactive thresh c l open run Ec).
        rewrite bounded_run_cons. intuition.
      * cbn [In]. rewrite IHi.
        rewrite (closing_run_inactive thresh c l open run Ec).
        rewrite bounded_run_cons. intuition.
      * rewrite IHi. rewrite bounded_run_cons. intuition.
      * rewrite IHi. rewrite bounded_run_cons. intuition.
Qed.

(** What the segmenter emits is what §3 calls an avalanche. *)
Lemma spec_segmenter_bounded_runs (thresh : fl) (counts run : list Z) :
  In run (spec_segmenter thresh counts) <-> bounded_run thresh counts run.
Proof.
  destruct counts as [|c l]; simpl.
  - split; [tauto|apply bounded_run_nil].
  - destruct (seg_run_bounded_runs thresh l run) as [Hi [_ Hu]].
    unfold seg_first. rewrite bounded_run_cons.
    destruct (is_active thresh c) eqn:Ec.
    + rewrite Hu. intuition congruence.
    + rewrite Hi. intuition.
Qed.

(** C4: on every bin sequence with at least one bin, [avalanches] returns
    exactly what the two-state segmenter of the specification emits, in
    order; and what the segmenter emits are the non-empty runs of bins
    above the threshold that have an inactive bin right before and right
    after them, so that a run active at the first bin or still active at
    the last is not emitted.  (Without any bin the method raises.)  Counts
    [[0,0,5,6,2,0,0,4,0]] with threshold 3 give [[[5,6],[4]]], sizes
    [[11,4]] and durations [[2,1]]. *)
Theorem avalanches_match_segmenter :
  (forall (thresh : fl) (counts : list Z),
      avalanches_of_counts thresh counts
      = match counts with
        | [] => Err IndexError
        | _ => Ok (spec_segmenter thresh counts)
        end)
  /\ (forall (F : Float64) (sd : SpikeData) (thresh : fl) (bin_size : Q),
        avalanches sd thresh bin_size
        = (counts <- binned sd bin_size ;;
           match counts with
           | [] => Err IndexError
           | _ => Ok (spec_segmenter thresh counts)
           end))
  /\ (forall (thresh : fl) (counts run : list Z),
        In run (spec_segmenter thresh counts)
        <-> bounded_run thresh counts run)
  /\ avalanches_of_counts (Fin 3) [0; 0; 5; 6; 2; 0; 0; 4; 0]%Z
     = Ok [[5; 6]; [4]]%Z
  /\ map sumZ [[5; 6]; [4]]%Z = [11; 4]%Z
  /\ map (fun av => Z.of_nat (List.length av)) [[5; 6]; [4]]%Z = [2; 1]%Z
  /\ avalanches_of_counts (Fin 3) [5; 0; 5; 6; 2; 0; 0; 4; 4]%Z
     = Ok [[5; 6]]%Z.
Proof.
  assert (Hcounts : forall (thresh : fl) (counts : list Z),
             avalanches_of_counts thresh counts
             = match counts with
               | [] => Err IndexError
               | _ => Ok (spec_segmenter thresh counts)
               end).
  { intros thresh counts. rewrite avalanches_of_counts_runs.
    destruct counts as [|c rest]; [reflexivity|].
    f_equal. unfold spec_segmenter, seg_first.
    destruct (seg_run_code_runs thresh rest c) as [Hi [Hu _]].
    destruct (is_active thresh c) eqn:Ec.
    - symmetry. apply Hu. reflexivity.
    - symmetry. apply Hi. reflexivity. }
  split; [exact Hcounts|].
  split.
  { intros F sd thresh bin_size. unfold avalanches.
    destruct (binned sd bin_size) as [counts|e]; [|reflexivity].
    cbn [bind]. apply Hcounts. }
  split; [exact spec_segmenter_bounded_runs|].
  repeat split; vm_compute; reflexivity.
Qed.

(** ** Time slices *)

Lemma Qeqb_comp (x a b : Q) : a == b -> Qeqb x a = Qeqb x b.
Proof.
  intro Hab. destruct (Qeqb x a) eqn:Ea, (Qeqb x b) eqn:Eb; try reflexivity;
    qbool; exfalso.
  - apply Eb. rewrite <- Hab. exact Ea.
  - apply Ea. rewrite Hab. exact Eb.
Qed.

Lemma filter_length_perm {A : Type} (f : A -> bool) (l l' : list A) :
  Permutation l l' ->
  List.length (filter f l) = List.length (filter f l').
Proof.
  induction 1 as [| x l l' _ IH | x y l | l l' l'' _ IH1 _ IH2]; simpl.
  - reflexivity.
  - destruct (f x); simpl; congruence.
  - destruct (f x), (f y); reflexivity.
  - congruence.
Qed.

Lemma count_time_sort (x : Q) (ts : list Q) :
  count_time x (np_sort ts) = count_time x ts.
Proof.
  unfold count_time, np_sort. apply filter_length_perm. apply sort_by_perm.
Qed.

Lemma count_time_cons (x t : Q) (ts : list Q) :
  count_time x (t :: ts)
  = ((if Qeqb x t then 1 else 0) + count_time x ts)%nat.
Proof. unfold count_time. simpl. destruct (Qeqb x t); reflexivity. Qed.

(** When the sliced trains are not all of length two, the constructor
    keeps them as they are: [subtime] returns them sorted, on a store of
    length [end - start]. *)
Lemma subtime_plain_trains (sd : SpikeData) (start stop : option Q) :
  let s := norm_start sd start in
  let e := norm_end sd stop in
  let sliced := map (slice_train (lower_bound s) s e) (train sd) in
  all_len_2 sliced = false ->
  subtime sd start stop = Ok (mkSpikeData (map np_sort sliced) (e - s)).
Proof.
  intros s e sliced Hplain. unfold subtime, SpikeData_init, parse_arg.
  fold s e sliced.
  destruct sliced as [|t0 rest] eqn:Es; [discriminate|].
  rewrite Hplain. cbn [bind]. unfold pad_units.
  rewrite length_map, <- Es. unfold sliced, N.
  rewrite length_map, Nat2Z.id, Nat.sub_diag. cbn [repeat].
  rewrite app_nil_r. reflexivity.
Qed.

(** On non-negative times the code's comparison with [lower] selects the
    range of the specification: [(start, end]], or [[0, end]] for
    [start = 0]. *)
Lemma slice_train_spec (start stop : Q) (ts : list Q) :
  0 <= start ->
  (forall t, In t ts -> 0 <= t) ->
  slice_train (lower_bound start) start stop ts
  = map (fun t => t - start) (filter (spec_in_slice start stop) ts).
Proof.
  intros Hs Hts. unfold slice_train. f_equal.
  apply filter_ext_in. intros t Ht. specialize (Hts t Ht).
  unfold lower_bound, spec_in_slice.
  destruct (Qltb 0 start) eqn:E0; qbool.
  - assert (Hz : Qeqb start 0 = false) by (qbool; lra).
    rewrite Hz. reflexivity.
  - assert (Hz : Qeqb start 0 = true) by (qbool; lra).
    assert (Ht0 : Qleb 0 t = true) by (qbool; exact Hts).
    rewrite Hz, Ht0. reflexivity.
Qed.

Lemma slices_partition_train (m len x : Q) (ts : list Q) :
  (forall t, In t ts -> t <= len) ->
  count_time x ts
  = (count_time x (slice_train NInf 0 m ts)
     + count_time x (map (fun u => (u + m)%Q) (slice_train (Fin m) m len ts)))%nat.
Proof.
  intro Hts. unfold slice_train.
  induction ts as [|t ts IH]; [reflexivity|].
  rewrite count_time_cons.
  rewrite IH by (intros u Hu; apply Hts; right; exact Hu).
  assert (Ht : t <= len) by (apply Hts; left; reflexivity).
  cbn [filter Fl.ltb].
  assert (Hlen : Qleb t len = true) by (qbool; exact Ht).
  rewrite Hlen, andb_true_r. cbn [andb].
  destruct (Qleb t m) eqn:E1.
  - assert (E2 : Qltb m t = false) by (qbool; lra).
    rewrite E2. cbn [map]. rewrite count_time_cons.
    rewrite (Qeqb_comp x (t - 0) t) by (unfold Qminus; lra).
    lia.
  - assert (E2 : Qltb m t = true) by (qbool; lra).
    rewrite E2. cbn [map]. rewrite count_time_cons.
    rewrite (Qeqb_comp x (t - m + m) t) by (unfold Qminus; lra).
    lia.
Qed.

(** The partition property of the specification holds whenever neither
    slice consists of two-spike trains only. *)
Lemma subtime_partition (sd : SpikeData) (m : Q) :
  0 < m -> m < length sd ->
  (forall ts t, In ts (train sd) -> In t ts -> t <= length sd) ->
  all_len_2 (map (slice_train NInf 0 m) (train sd)) = false ->
  all_len_2 (map (slice_train (Fin m) m (length sd)) (train sd)) = false ->
  exists a b : SpikeData,
    subtime sd (Some 0) (Some m) = Ok a
    /\ subtime sd (Some m) (Some (length sd)) = Ok b
    /\ forall (i : nat) (ts : list Q),
        nth_error (train sd) i = Some ts ->
        exists ta tb : list Q,
          nth_error (train a) i = Some ta
          /\ nth_error (train b) i = Some tb
          /\ forall x : Q,
              count_time x ts
              = (count_time x ta
                 + count_time x (map (fun u => (u + m)%Q) tb))%nat.
Proof.
  intros Hm Hlen Hinv Ha Hb.
  assert (Hs0 : norm_start sd (Some 0) = 0) by reflexivity.
  assert (He0 : norm_end sd (Some m) = m).
  { unfold norm_end.
    assert (E1 : Qltb m 0 = false) by (qbool; lra).
    assert (E2 : Qltb (length sd) m = false) by (qbool; lra).
    rewrite E1, E2. reflexivity. }
  assert (Hs1 : norm_start sd (Some m) = m).
  { unfold norm_start.
    assert (E1 : Qltb m 0 = false) by (qbool; lra).
    rewrite E1. reflexivity. }
  assert (He1 : norm_end sd (Some (length sd)) = length sd).
  { unfold norm_end.
    assert (E1 : Qltb (length sd) 0 = false) by (qbool; lra).
    assert (E2 : Qltb (length sd) (length sd) = false) by (qbool; lra).
    rewrite E1, E2. reflexivity. }
  assert (Hl0 : lower_bound 0 = NInf) by reflexivity.
  assert (Hl1 : lower_bound m = Fin m).
  { unfold lower_bound.
    assert (E1 : Qltb 0 m = true) by (qbool; lra).
    rewrite E1. reflexivity. }
  pose proof (subtime_plain_trains sd (Some 0) (Some m)) as HA.
  cbv zeta in HA. rewrite Hs0, He0, Hl0 in HA. specialize (HA Ha).
  pose proof (subtime_plain_trains sd (Some m) (Some (length sd))) as HB.
  cbv zeta in HB. rewrite Hs1, He1, Hl1 in HB. specialize (HB Hb).
  eexists. eexists. split; [exact HA|]. split; [exact HB|].
  intros i ts Hts. cbn [train].
  eexists. eexists.
  split; [rewrite !nth_error_map, Hts; reflexivity|].
  split; [rewrite !nth_error_map, Hts; reflexivity|].
  intro x. rewrite count_time_sort.
  assert (Hmap : forall l, count_time x (map (fun u => u + m) (np_sort l))
                           = count_time x (map (fun u => u + m) l)).
  { intro l. unfold count_time. apply filter_length_perm.
    apply Permutation_map. apply sort_by_perm. }
  rewrite Hmap.
  apply slices_partition_train.
  intros t Ht. apply (Hinv ts t); [|exact Ht].
  apply nth_error_In with i. exact Hts.
Qed.

(** C1 at a store with one unit firing at 1, 2, 7 and 8 over a length of
    10, sliced at 5: each slice keeps two spikes of the unit, the
    constructor reads the list of two-spike trains as (index, time)
    pairs, and both slices come back empty, where the range rule keeps
    [1, 2] and [7, 8] (shifted to [2, 3]). *)
Theorem subtime_loses_two_spike_slices :
  SpikeData_init (Trains [[1; 2; 7; 8]]) None (Some 10)
  = Ok (mkSpikeData [[1; 2; 7; 8]] 10)
  /\ subtime (mkSpikeData [[1; 2; 7; 8]] 10) (Some 0) (Some 5)
     = Ok (mkSpikeData [[]] 5)
  /\ subtime (mkSpikeData [[1; 2; 7; 8]] 10) (Some 5) (Some 10)
     = Ok (mkSpikeData [[]] 5)
  /\ filter (spec_in_slice 0 5) [1; 2; 7; 8] = [1; 2]
  /\ filter (spec_in_slice 5 10) [1; 2; 7; 8] = [7; 8]
  /\ count_time 1 [1; 2; 7; 8] = 1%nat
  /\ count_time 1 ([] ++ map (fun u => u + 5) []) = 0%nat.
Proof. repeat split; vm_compute; reflexivity. Qed.

(** * Further properties of the module *)

(** ** Merging *)

Section MergeFacts.
Context {A : Type} (key : A -> Q).

Lemma min_head_none (its : list (list A)) :
  min_head key its = None -> concat its = [].
Proof.
  induction its as [|it its IH]; simpl; [reflexivity|].
  destruct it as [|x it]; destruct (min_head key its) as [[k y]|];
    try discriminate.
  - intros _. apply IH. reflexivity.
  - destruct (Qleb (key x) (key y)); discriminate.
Qed.

Lemma min_head_some (its : list (list A)) (k : nat) (x : A) :
  min_head key its = Some (k, x) ->
  (exists rest, nth_error its k = Some (x :: rest))
  /\ forall j y rest, nth_error its j = Some (y :: rest) -> key x <= key y.
Proof.
  revert k x. induction its as [|it its IH]; intros k x H; simpl in H;
    [discriminate|].
  destruct (min_head key its) as [[k' y']|] eqn:Em.
  - destruct (IH k' y' eq_refl) as [[rest' Hnth] Hmin].
    destruct it as [|x0 it].
    + injection H as <- <-. split; [exists rest'; exact Hnth|].
      intros [|j] y rest Hj; simpl in Hj; [discriminate|].
      eapply Hmin. exact Hj.
    + destruct (Qleb (key x0) (key y')) eqn:E; injection H as <- <-; qbool.
      * split; [exists it; reflexivity|].
        intros [|j] y rest Hj; simpl in Hj.
        -- injection Hj as <- _. lra.
        -- specialize (Hmin j y rest Hj). lra.
      * split; [exists rest'; exact Hnth|].
        intros [|j] y rest Hj; simpl in Hj.
        -- injection Hj as <- _. lra.
        -- eapply Hmin. exact Hj.
  - destruct it as [|x0 it]; [discriminate|].
    injection H as <- <-. split; [exists it; reflexivity|].
    intros [|j] y rest Hj; simpl in Hj.
    + injection Hj as <- _. lra.
    + exfalso. apply min_head_none in Em.
      apply nth_error_In in Hj.
      assert (Hin : In y (concat its)).
      { apply in_concat. exists (y :: rest). split; [exact Hj|left; reflexivity]. }
      rewrite Em in Hin. destruct Hin.
Qed.

Lemma pop_head_perm (its : list (list A)) (k : nat) (x : A) (rest : list A) :
  nth_error its k = Some (x :: rest) ->
  Permutation (concat its) (x :: concat (pop_head k its)).
Proof.
  revert k. induction its as [|it its IH]; intros k Hk.
  - destruct k; discriminate.
  - destruct k as [|k]; simpl in *.
    + injection Hk as ->. simpl. apply Permutation_refl.
    + apply perm_trans with (it ++ x :: concat (pop_head k its)).
      * apply Permutation_app_head. apply IH. exact Hk.
      * apply Permutation_sym. apply Permutation_middle.
Qed.

Lemma nth_pop_head (its : list (list A)) (k i : nat) (x : A) (rest : list A) :
  nth_error its k = Some (x :: rest) ->
  nth i (pop_head k its) [] = if Nat.eqb i k then rest else nth i its [].
Proof.
  revert k i. induction its as [|it its IH]; intros k i Hk.
  - destruct k; discriminate.
  - destruct k as [|k]; simpl in Hk.
    + injection Hk as ->. destruct i; reflexivity.
    + destruct i as [|i]; simpl; [reflexivity|].
      apply IH. exact Hk.
Qed.

Lemma In_pop_head (its : list (list A)) (k j : nat) (it : list A) (e : A) :
  nth_error (pop_head k its) j = Some it -> In e it ->
  exists it', nth_error its j = Some it' /\ In e it'.
Proof.
  revert k j. induction its as [|it0 its IH]; intros k j Hj He.
  - destruct k, j; discriminate.
  - destruct k as [|k]; simpl in Hj.
    + destruct j as [|j]; simpl in *.
      * injection Hj as <-. exists it0. split; [reflexivity|].
        destruct it0; [destruct He|right; exact He].
      * exists it. auto.
    + destruct j as [|j]; simpl in *.
      * injection Hj as <-. exists it0. auto.
      * eapply IH; eassumption.
Qed.

Lemma merge_steps_perm (fuel : nat) (its : list (list A)) :
  (List.length (concat its) <= fuel)%nat ->
  Permutation (merge_steps key fuel its) (concat its).
Proof.
  revert its. induction fuel as [|fuel IH]; intros its Hfuel; simpl.
  - destruct (concat its); [apply perm_nil|simpl in Hfuel; lia].
  - destruct (min_head key its) as [[k x]|] eqn:Em.
    + destruct (min_head_some its k x Em) as [[rest Hnth] _].
      pose proof (pop_head_perm its k x rest Hnth) as Hp.
      apply perm_trans with (x :: concat (pop_head k its)).
      * apply perm_skip. apply IH.
        apply Permutation_length in Hp. simpl in Hp. lia.
      * apply Permutation_sym. exact Hp.
    + rewrite (min_head_none its Em). apply perm_nil.
Qed.

(** The merge is a rearrangement of all the items. *)
Lemma heapq_merge_perm (its : list (list A)) :
  Permutation (heapq_merge key its) (concat its).
Proof. apply merge_steps_perm. apply Nat.le_refl. Qed.

Lemma ascending_pop_head (its : list (list A)) (k : nat) :
  Forall (fun it => ascending (map key it)) its ->
  Forall (fun it => ascending (map key it)) (pop_head k its).
Proof.
  revert k. induction its as [|it its IH]; intros k Hall;
    [destruct k; constructor|].
  inversion Hall as [|? ? Hit Hrest]; subst.
  destruct k as [|k]; simpl.
  - constructor; [|exact Hrest].
    destruct it as [|x it]; [constructor|].
    simpl in Hit. inversion Hit; assumption.
  - constructor; [exact Hit|apply IH; exact Hrest].
Qed.

Lemma merge_steps_ascending (fuel : nat) (its : list (list A)) :
  (List.length (concat its) <= fuel)%nat ->
  Forall (fun it => ascending (map key it)) its ->
  ascending (map key (merge_steps key fuel its)).
Proof.
  revert its. induction fuel as [|fuel IH]; intros its Hfuel Hall; simpl.
  - constructor.
  - destruct (min_head key its) as [[k x]|] eqn:Em; [|constructor].
    destruct (min_head_some its k x Em) as [[rest Hnth] Hmin].
    pose proof (pop_head_perm its k x rest Hnth) as Hp.
    assert (Hlen : (List.length (concat (pop_head k its)) <= fuel)%nat).
    { apply Permutation_length in Hp. simpl in Hp. lia. }
    simpl. constructor.
    + intros q Hq. apply in_map_iff in Hq. destruct Hq as [e [<- He]].
      apply (Permutation_in _ (merge_steps_perm fuel _ Hlen)) in He.
      assert (He' : In e (concat its)).
      { apply (Permutation_in _ (Permutation_sym Hp)). right. exact He. }
      apply in_concat in He'. destruct He' as [it [Hit Heit]].
      destruct (In_nth_error _ _ Hit) as [j Hj].
      destruct it as [|h it]; [destruct Heit|].
      apply Qle_trans with (key h); [eapply Hmin; exact Hj|].
      rewrite Forall_forall in Hall. specialize (Hall _ Hit).
      simpl in Hall. inversion Hall as [|? ? Hh _]; subst.
      destruct Heit as [<- | Heit]; [lra|].
      apply Hh. apply in_map. exact Heit.
    + apply IH; [exact Hlen|]. apply ascending_pop_head. exact Hall.
Qed.

(** Every item carries the position of its iterable: then the items of
    one position come out in their own order. *)
Lemma merge_steps_filter_tag (tag : A -> nat) (fuel : nat)
    (its : list (list A)) (i : nat) :
  (List.length (concat its) <= fuel)%nat ->
  (forall j it e, nth_error its j = Some it -> In e it -> tag e = j) ->
  filter (fun e => Nat.eqb (tag e) i) (merge_steps key fuel its)
  = nth i its [].
Proof.
  revert its. induction fuel as [|fuel IH]; intros its Hfuel Htag.
  - simpl. assert (Hnil : concat its = []).
    { destruct (concat its); [reflexivity|simpl in Hfuel; lia]. }
    destruct (nth_error its i) as [it|] eqn:Ei.
    + rewrite (nth_error_nth _ _ _ Ei).
      destruct it as [|e it]; [reflexivity|].
      exfalso. assert (Hin : In e (concat its)).
      { apply in_concat. exists (e :: it).
        split; [eapply nth_error_In; exact Ei|left; reflexivity]. }
      rewrite Hnil in Hin. destruct Hin.
    + rewrite nth_overflow; [reflexivity|].
      apply nth_error_None. exact Ei.
  - simpl. destruct (min_head key its) as [[k x]|] eqn:Em.
    + destruct (min_head_some its k x Em) as [[rest Hnth] _].
      pose proof (pop_head_perm its k x rest Hnth) as Hp.
      assert (Hlen : (List.length (concat (pop_head k its)) <= fuel)%nat).
      { apply Permutation_length in Hp. simpl in Hp. lia. }
      assert (Htag' : forall j it e, nth_error (pop_head k its) j = Some it ->
                                     In e it -> tag e = j).
      { intros j it e Hj He.
        destruct (In_pop_head its k j it e Hj He) as [it' [Hj' He']].
        eapply Htag; eassumption. }
      simpl. rewrite (IH _ Hlen Htag').
      rewrite (nth_pop_head its k i x rest Hnth).
      assert (Hx : tag x = k).
      { eapply Htag; [exact Hnth|left; reflexivity]. }
      rewrite Hx.
      destruct (Nat.eqb_spec k i) as [-> | Hne].
      * rewrite Nat.eqb_refl. symmetry. apply nth_error_nth. exact Hnth.
      * assert (Hne' : Nat.eqb i k = false) by (apply Nat.eqb_neq; congruence).
        rewrite Hne'. reflexivity.
    + simpl. pose proof (min_head_none its Em) as Hnil.
      destruct (nth_error its i) as [it|] eqn:Ei.
      * rewrite (nth_error_nth _ _ _ Ei).
        destruct it as [|e it]; [reflexivity|].
        exfalso. assert (Hin : In e (concat its)).
        { apply in_concat. exists (e :: it).
          split; [eapply nth_error_In; exact Ei|left; reflexivity]. }
        rewrite Hnil in Hin. destruct Hin.
      * rewrite nth_overflow; [reflexivity|].
        apply nth_error_None. exact Ei.
Qed.

End MergeFacts.

(** ** Sorted trains *)

Lemma np_sort_ascending_id (l : list Q) : ascending l -> np_sort l = l.
Proof.
  unfold np_sort. induction 1 as [|x l Hx Hl IH]; simpl; [reflexivity|].
  rewrite IH. destruct l as [|y l]; [reflexivity|]. simpl.
  assert (E : Qleb x y = true) by (qbool; apply Hx; left; reflexivity).
  rewrite E. reflexivity.
Qed.

Lemma ascending_repeat_nil (n : nat) : Forall ascending (repeat [] n).
Proof. induction n; simpl; constructor; [constructor|assumption]. Qed.

(** The constructor sorts: whatever the argument, every train of a store
    it returns is in non-decreasing order, and the store has at least the
    declared number of units. *)
Theorem init_sorts_trains :
  forall (arg : ctor_arg) (N0 : option Z) (len : option Q) (sd : SpikeData),
    SpikeData_init arg N0 len = Ok sd ->
    Forall ascending (train sd)
    /\ (forall n, N0 = Some n -> (n <= Z.of_nat (N sd))%Z).
Proof.
  intros arg N0 len sd H. unfold SpikeData_init in H.
  destruct (parse_arg arg N0) as [raw|e]; [|discriminate]. cbn [bind] in H.
  destruct (match len with Some l => Ok l | None => default_length (map np_sort raw) end)
    as [l|e]; [|discriminate].
  cbn [bind] in H. injection H as <-. unfold N. cbn [train].
  split.
  - unfold pad_units. destruct N0 as [n|].
    + apply Forall_app. split; [|apply ascending_repeat_nil].
      apply Forall_map. apply Forall_forall. intros t _. apply np_sort_ascending.
    + apply Forall_map. apply Forall_forall. intros t _. apply np_sort_ascending.
  - intros n ->. unfold pad_units.
    rewrite length_app, repeat_length, length_map. lia.
Qed.

Lemma init_sorts_trains_witness :
  Forall ascending (train (mkSpikeData [[1; 2; 3]; [1; 4]; []] 3))
  /\ (forall n, Some 3%Z = Some n ->
                (n <= Z.of_nat (N (mkSpikeData [[1; 2; 3]; [1; 4]; []]%Q 3%Q)))%Z).
Proof.
  apply (init_sorts_trains (IdcesTimes [0; 1; 0; 0; 1]%Z [3; 4; 1; 2; 1])
                           (Some 3%Z) (Some 3)).
  reflexivity.
Defined.

(** ** Times, events and the way back *)

(** [times] lists every spike of the store once, in non-decreasing
    order, when the trains are sorted (as the constructor leaves them). *)
Theorem times_sorted_merge :
  forall sd : SpikeData,
    Forall ascending (train sd) ->
    ascending (times sd) /\ Permutation (times sd) (concat (train sd)).
Proof.
  intros sd Hasc. unfold times. split.
  - rewrite <- (map_id (heapq_merge (fun t => t) (train sd))).
    unfold heapq_merge. apply merge_steps_ascending; [apply Nat.le_refl|].
    eapply Forall_impl; [|exact Hasc]. intros it Hit.
    rewrite map_id. exact Hit.
  - apply heapq_merge_perm.
Qed.

Lemma times_sorted_merge_witness :
  ascending (times (mkSpikeData [[1; 4]; []; [2; 3; 5]] 5))
  /\ Permutation (times (mkSpikeData [[1; 4]; []; [2; 3; 5]] 5))
                 (concat (train (mkSpikeData [[1; 4]; []; [2; 3; 5]] 5))).
Proof.
  apply (times_sorted_merge (mkSpikeData [[1; 4]; []; [2; 3; 5]] 5)).
  repeat constructor; simpl; intros y Hy;
    repeat (destruct Hy as [<- | Hy]; [discriminate|]); destruct Hy.
Defined.

Lemma mapM_map_ok {A B : Type} (f : A -> result B) (g : A -> B) (l : list A) :
  (forall x, In x l -> f x = Ok (g x)) -> mapM f l = Ok (map g l).
Proof.
  induction l as [|x l IH]; intro H; simpl; [reflexivity|].
  rewrite (H x (or_introl eq_refl)). simpl.
  rewrite IH by (intros y Hy; apply H; right; exact Hy). reflexivity.
Qed.

Lemma map_nth_seq {A : Type} (l : list A) (d : A) :
  map (fun i => nth i l d) (seq 0 (List.length l)) = l.
Proof.
  induction l as [|x l IH]; [reflexivity|].
  simpl. f_equal. rewrite <- seq_shift, map_map. exact IH.
Qed.

Lemma select_by_index (ev : list (Z * Q)) (i : Z) :
  map snd (filter fst (combine (map (fun k => Z.eqb k i) (map fst ev))
                               (map snd ev)))
  = map snd (filter (fun e => Z.eqb (fst e) i) ev).
Proof.
  induction ev as [|[k t] ev IH]; [reflexivity|].
  simpl. destruct (Z.eqb k i); simpl; rewrite IH; reflexivity.
Qed.

Lemma events_of_unit (sd : SpikeData) (i : nat) :
  map snd (filter (fun e => Z.eqb (fst e) (Z.of_nat i)) (events sd))
  = nth i (train sd) [].
Proof.
  unfold events, heapq_merge.
  set (its := map (fun it : nat * list Q =>
                     map (fun t => (Z.of_nat (fst it), t)) (snd it))
                  (combine (seq 0 (N sd)) (train sd))).
  assert (Htag : forall j it e, nth_error its j = Some it -> In e it ->
                                Z.to_nat (fst e) = j).
  { intros j it e Hj He. unfold its in Hj.
    rewrite nth_error_map, nth_error_combine in Hj.
    destruct (nth_error (seq 0 (N sd)) j) as [j'|] eqn:Ej; [|discriminate].
    destruct (nth_error (train sd) j) as [t|] eqn:Et; [|discriminate].
    simpl in Hj. injection Hj as <-.
    apply in_map_iff in He. destruct He as [q [<- _]]. simpl.
    rewrite Nat2Z.id.
    assert (Hlt : (j < N sd)%nat).
    { unfold N. apply nth_error_Some. congruence. }
    rewrite nth_error_seq in Ej.
    destruct (Nat.ltb_spec j (N sd)); [|lia].
    injection Ej as <-. reflexivity. }
  rewrite (filter_ext_in (fun e => Z.eqb (fst e) (Z.of_nat i))
                         (fun e => Nat.eqb (Z.to_nat (fst e)) i)).
  - rewrite (merge_steps_filter_tag (fun e : Z * Q => snd e)
               (fun e => Z.to_nat (fst e)) _ its i (Nat.le_refl _) Htag).
    unfold its.
    destruct (nth_error (train sd) i) as [t|] eqn:Et.
    + assert (Hlt : (i < N sd)%nat).
      { unfold N. apply nth_error_Some. congruence. }
      assert (Hnth : nth_error
                       (map (fun it : nat * list Q =>
                               map (fun q => (Z.of_nat (fst it), q)) (snd it))
                            (combine (seq 0 (N sd)) (train sd))) i
                     = Some (map (fun q => (Z.of_nat i, q)) t)).
      { rewrite nth_error_map, nth_error_combine, nth_error_seq, Et.
        destruct (Nat.ltb_spec i (N sd)); [reflexivity|lia]. }
      rewrite (nth_error_nth _ _ _ Hnth), (nth_error_nth _ _ _ Et).
      rewrite map_map. simpl. apply map_id.
    + assert (Hge : (N sd <= i)%nat).
      { unfold N. apply nth_error_None. exact Et. }
      rewrite !nth_overflow; [reflexivity| |].
      * unfold N in Hge. exact Hge.
      * rewrite length_map, length_combine, length_seq. unfold N in *. lia.
  - intros e He.
    apply (Permutation_in _ (merge_steps_perm (fun e : Z * Q => snd e) _ its
                                              (Nat.le_refl _))) in He.
    apply in_concat in He. destruct He as [it [Hit He]].
    destruct (In_nth_error _ _ Hit) as [j Hj].
    pose proof (Htag j it e Hj He) as Hje.
    unfold its in Hit. apply in_map_iff in Hit.
    destruct Hit as [[j' t] [<- _]]. apply in_map_iff in He.
    destruct He as [q [<- _]]. simpl in *.
    rewrite Nat2Z.id.
    destruct (Nat.eqb_spec j' i) as [-> | Hne].
    + apply Z.eqb_refl.
    + apply Z.eqb_neq. lia.
Qed.

(** Round trip: the index and time arrays of [idces_times], handed back
    to the constructor with the unit count and the length, rebuild the
    store. *)
Theorem idces_times_round_trip :
  forall sd : SpikeData,
    Forall ascending (train sd) ->
    SpikeData_init (IdcesTimes (fst (idces_times sd)) (snd (idces_times sd)))
                   (Some (Z.of_nat (N sd))) (Some (length sd))
    = Ok sd.
Proof.
  intros sd Hasc. unfold SpikeData_init, parse_arg, _train_from_i_t_list.
  cbn [bind idces_times fst snd].
  rewrite (mapM_map_ok _ (fun i => nth (Z.to_nat i) (train sd) [])).
  - cbn [bind]. unfold py_range. rewrite Nat2Z.id.
    rewrite (map_map Z.of_nat).
    rewrite (map_ext _ (fun i => nth i (train sd) []))
      by (intro i; rewrite Nat2Z.id; reflexivity).
    unfold N. rewrite map_nth_seq.
    assert (Hsort : map np_sort (train sd) = train sd).
    { clear - Hasc. induction Hasc as [|t l Ht _ IH]; [reflexivity|].
      simpl. rewrite IH, (np_sort_ascending_id t Ht). reflexivity. }
    rewrite Hsort. unfold pad_units.
    rewrite Nat2Z.id, Nat.sub_diag. cbn [repeat].
    rewrite app_nil_r. destruct sd; reflexivity.
  - intros i Hi. unfold py_range in Hi. apply in_map_iff in Hi.
    destruct Hi as [k [<- _]].
    rewrite mask_select_length_match
      by (unfold idx_mask; rewrite !length_map; reflexivity).
    unfold idx_mask. rewrite select_by_index, events_of_unit.
    rewrite Nat2Z.id. reflexivity.
Qed.

Lemma idces_times_round_trip_witness :
  SpikeData_init
    (IdcesTimes (fst (idces_times (mkSpikeData [[1; 4]; []; [2; 3; 5]; []] 7)))
                (snd (idces_times (mkSpikeData [[1; 4]; []; [2; 3; 5]; []] 7))))
    (Some (Z.of_nat (N (mkSpikeData [[1; 4]; []; [2; 3; 5]; []] 7))))
    (Some (length (mkSpikeData [[1; 4]; []; [2; 3; 5]; []] 7)))
  = Ok (mkSpikeData [[1; 4]; []; [2; 3; 5]; []] 7).
Proof.
  apply (idces_times_round_trip (mkSpikeData [[1; 4]; []; [2; 3; 5]; []] 7)).
  repeat constructor; simpl; intros y Hy;
    repeat (destruct Hy as [<- | Hy]; [discriminate|]); destruct Hy.
Defined.

(** ** Stores built from trains *)

Lemma all_len_2_In (trains : list (list Q)) (ts : list Q) :
  all_len_2 trains = true -> In ts trains -> List.length ts = 2%nat.
Proof.
  unfold all_len_2. rewrite forallb_forall. intros H Hin.
  apply Nat.eqb_eq. apply H. exact Hin.
Qed.

(** With a unit count, a list of trains always parses; the result has
    either that many rows or is the list itself, and holds no time that
    was not in the list. *)
Lemma parse_trains_with_N (trains : list (list Q)) (n : Z) :
  exists raw : list (list Q),
    parse_arg (Trains trains) (Some n) = Ok raw
    /\ ((all_len_2 trains = true /\ List.length raw = Z.to_nat n)
        \/ (all_len_2 trains = false /\ raw = trains) \/ (trains = [] /\ raw = []))
    /\ forall r t, In r raw -> In t r -> In t (concat trains).
Proof.
  destruct trains as [|t0 rest] eqn:Et.
  - exists []. split; [reflexivity|]. split; [auto|]. intros r t [].
  - rewrite <- Et.
    assert (Hp : parse_arg (Trains trains) (Some n)
                 = if all_len_2 trains
                   then _train_from_i_t_list
                          (FloatIdx (map (fun ts => nth 0 ts 0) trains))
                          (map (fun ts => nth 1 ts 0) trains) (Some n)
                   else Ok trains).
    { rewrite Et. reflexivity. }
    rewrite Hp. clear Hp.
    destruct (all_len_2 trains) eqn:Esniff.
    + unfold _train_from_i_t_list. cbn [bind].
      set (ix := FloatIdx (map (fun ts => nth 0 ts 0) trains)).
      set (tm := map (fun ts => nth 1 ts 0) trains).
      exists (map (fun i => map snd (filter fst (combine (idx_mask ix i) tm)))
                  (py_range n)).
      split; [|split].
      * apply mapM_map_ok. intros i _. apply mask_select_length_match.
        unfold ix, tm, idx_mask. rewrite !length_map. reflexivity.
      * left. split; [reflexivity|].
        unfold py_range. rewrite !length_map, length_seq. reflexivity.
      * intros r t Hr Ht. apply in_map_iff in Hr. destruct Hr as [i [<- _]].
        apply in_map_iff in Ht. destruct Ht as [[b x] [Hx Hin]].
        simpl in Hx. subst x. apply filter_In in Hin. destruct Hin as [Hin _].
        apply in_combine_r in Hin. unfold tm in Hin.
        apply in_map_iff in Hin. destruct Hin as [ts [<- Hts]].
        apply in_concat. exists ts. split; [exact Hts|].
        apply nth_In. rewrite (all_len_2_In trains ts Esniff Hts). lia.
    + exists trains. split; [reflexivity|]. split; [auto|].
      intros r t Hr Ht. apply in_concat. exists r. auto.
Qed.

(** Building a store from [k] trains with [N = k] and a length given. *)
Lemma init_trains_total (trains : list (list Q)) (len : Q) :
  exists sd' : SpikeData,
    SpikeData_init (Trains trains) (Some (Z.of_nat (List.length trains)))
                   (Some len) = Ok sd'
    /\ N sd' = List.length trains
    /\ length sd' = len
    /\ Forall ascending (train sd')
    /\ (forall r t, In r (train sd') -> In t r -> In t (concat trains))
    /\ (all_len_2 trains = false -> train sd' = map np_sort trains).
Proof.
  destruct (parse_trains_with_N trains (Z.of_nat (List.length trains)))
    as [raw [Hraw [Hshape Hin]]].
  unfold SpikeData_init. rewrite Hraw. cbn [bind].
  eexists. split; [reflexivity|]. unfold N. cbn [train length].
  assert (Hlen : List.length raw = List.length trains).
  { destruct Hshape as [[_ H] | [[_ H] | [H1 H2]]].
    - rewrite H, Nat2Z.id. reflexivity.
    - rewrite H. reflexivity.
    - rewrite H1, H2. reflexivity. }
  unfold pad_units.
  rewrite length_map, Hlen, Nat2Z.id, Nat.sub_diag. cbn [repeat].
  rewrite app_nil_r, length_map.
  split; [exact Hlen|]. split; [reflexivity|]. split; [|split].
  - apply Forall_map. apply Forall_forall. intros t _. apply np_sort_ascending.
  - intros r t Hr Ht. apply in_map_iff in Hr. destruct Hr as [r0 [<- Hr0]].
    apply (Hin r0 t Hr0). unfold np_sort in Ht.
    apply (proj1 (sort_by_In Qleb t r0)). exact Ht.
  - intro Hplain. destruct Hshape as [[H _] | [[_ H] | [H1 H2]]].
    + congruence.
    + rewrite H. reflexivity.
    + rewrite H1, H2. reflexivity.
Qed.

(** ** Slices never fail *)

Lemma subtime_sliced_units (sd : SpikeData) (start stop : option Q) :
  exists sd' : SpikeData,
    subtime sd start stop = Ok sd' /\ N sd' = N sd.
Proof.
  unfold subtime.
  set (sliced := map (slice_train (lower_bound (norm_start sd start))
                                  (norm_start sd start) (norm_end sd stop))
                     (train sd)).
  assert (HN : Z.of_nat (N sd) = Z.of_nat (List.length sliced)).
  { unfold sliced, N. rewrite length_map. reflexivity. }
  rewrite HN.
  destruct (init_trains_total sliced (norm_end sd stop - norm_start sd start))
    as [sd' [Hinit [HN' _]]].
  exists sd'. split; [exact Hinit|].
  rewrite HN'. unfold sliced, N. apply length_map.
Qed.

(** [subtime] never raises, whatever the bounds.  The slice has as many
    units as the store, its length is the distance between the normalised
    bounds, its trains are sorted, and no spike in it lies beyond its
    length; with a positive lower bound every spike in it is positive. *)
Theorem subtime_total_and_bounded :
  forall (sd : SpikeData) (start stop : option Q),
    exists sd' : SpikeData,
      subtime sd start stop = Ok sd'
      /\ N sd' = N sd
      /\ length sd' = norm_end sd stop - norm_start sd start
      /\ Forall ascending (train sd')
      /\ forall r t, In r (train sd') -> In t r ->
           t <= length sd'
           /\ (Qltb 0 (norm_start sd start) = true -> 0 < t).
Proof.
  intros sd start stop. unfold subtime.
  set (s := norm_start sd start). set (e := norm_end sd stop).
  set (sliced := map (slice_train (lower_bound s) s e) (train sd)).
  assert (HN : Z.of_nat (N sd) = Z.of_nat (List.length sliced)).
  { unfold sliced, N. rewrite length_map. reflexivity. }
  rewrite HN.
  destruct (init_trains_total sliced (e - s))
    as [sd' [Hinit [HN' [Hlen [Hasc [Hin _]]]]]].
  exists sd'. split; [exact Hinit|].
  split; [rewrite HN'; unfold sliced, N; apply length_map|].
  split; [exact Hlen|]. split; [exact Hasc|].
  intros r t Hr Ht. specialize (Hin r t Hr Ht).
  apply in_concat in Hin. destruct Hin as [sl [Hsl Hts]].
  unfold sliced in Hsl. apply in_map_iff in Hsl.
  destruct Hsl as [ts [<- _]]. unfold slice_train in Hts.
  apply in_map_iff in Hts. destruct Hts as [t0 [<- Ht0]].
  apply filter_In in Ht0. destruct Ht0 as [_ Hcond].
  apply andb_true_iff in Hcond. destruct Hcond as [Hlo Hhi].
  rewrite Hlen. qbool. split; [lra|].
  intro Hpos. unfold lower_bound in Hlo. rewrite Hpos in Hlo.
  simpl in Hlo. qbool. lra.
Qed.

(** ** Joining recordings in time *)



(** ** Selecting units *)

Lemma select_units_length (units : list Z) (l : list (list Q)) (k : nat) :
  List.length (filter (fun it : nat * list Q =>
                         existsb (Z.eqb (Z.of_nat (fst it))) units)
                      (combine (seq k (List.length l)) l))
  = List.length (filter (fun i => existsb (Z.eqb (Z.of_nat i)) units)
                        (seq k (List.length l))).
Proof.
  revert k. induction l as [|ts l IH]; intro k; [reflexivity|].
  simpl. destruct (existsb (Z.eqb (Z.of_nat k)) units); simpl; rewrite IH;
    reflexivity.
Qed.

(** The spike trains of a subset can always be built: the new store has
    the same length, one unit for each position of the store that occurs
    in [units], and every spike in it is a spike of the store. *)
Lemma subset_trains (sd : SpikeData) (units : list Z) :
  exists sd' : SpikeData,
    subset sd units = Ok sd'
    /\ length sd' = length sd
    /\ N sd' = List.length
                 (filter (fun i => existsb (Z.eqb (Z.of_nat i)) units)
                         (seq 0 (N sd)))
    /\ Forall ascending (train sd')
    /\ forall r t, In r (train sd') -> In t r -> In t (concat (train sd)).
Proof.
  unfold subset.
  set (cond := fun it : nat * list Q =>
                 existsb (Z.eqb (Z.of_nat (fst it))) units).
  set (kept := map snd (filter cond (combine (seq 0 (N sd)) (train sd)))).
  destruct (init_trains_total kept (length sd))
    as [sd' [Hinit [HN' [Hlen [Hasc [Hin _]]]]]].
  exists sd'. split; [exact Hinit|]. split; [exact Hlen|].
  split; [|split; [exact Hasc|]].
  - rewrite HN'. unfold kept. rewrite length_map.
    apply select_units_length.
  - intros r t Hr Ht. specialize (Hin r t Hr Ht).
    apply in_concat in Hin. destruct Hin as [ts [Hts Htin]].
    unfold kept in Hts. apply in_map_iff in Hts.
    destruct Hts as [[i ts'] [Heq Hf]]. simpl in Heq. subst ts'.
    apply filter_In in Hf. destruct Hf as [Hc _].
    apply in_combine_r in Hc. apply in_concat. exists ts. auto.
Qed.

(** An index into a Python list is accepted exactly from [-n] up to
    [n - 1]. *)
Lemma py_list_index_ok {A : Type} (l : list A) (i : Z) :
  match py_list_index l i with
  | Ok _ => (- Z.of_nat (List.length l) <= i < Z.of_nat (List.length l))%Z
  | Err e =>
      e = IndexError
      /\ ~ (- Z.of_nat (List.length l) <= i < Z.of_nat (List.length l))%Z
  end.
Proof.
  unfold py_list_index.
  set (n := Z.of_nat (List.length l)).
  set (k := if (i <? 0)%Z then (n + i)%Z else i).
  assert (Hk : ((0 <= k < n) <-> (- n <= i < n))%Z).
  { unfold k. destruct (Z.ltb_spec i 0); lia. }
  destruct ((0 <=? k) && (k <? n))%Z eqn:E.
  - apply andb_true_iff in E. destruct E as [E1 E2].
    apply Z.leb_le in E1. apply Z.ltb_lt in E2.
    destruct (nth_error l (Z.to_nat k)) eqn:En.
    + apply Hk. lia.
    + exfalso. apply nth_error_None in En. unfold n in *. lia.
  - split; [reflexivity|]. intro H. apply Hk in H.
    apply andb_false_iff in E. destruct E as [E | E].
    + apply Z.leb_gt in E. lia.
    + apply Z.ltb_ge in E. lia.
Qed.

Lemma mapM_all_ok {A B : Type} (f : A -> result B) (l : list A) :
  match mapM f l with
  | Ok _ => Forall (fun x => is_ok (f x) = true) l
  | Err e => exists x : A, In x l /\ f x = Err e
  end.
Proof.
  induction l as [|x l IH]; simpl; [constructor|].
  destruct (f x) as [y|e] eqn:Ex; cbn [bind].
  - destruct (mapM f l) as [ys|e]; cbn [bind].
    + constructor; [rewrite Ex; reflexivity|exact IH].
    + destruct IH as [x' [Hin Hx']]. exists x'. auto.
  - exists x. auto.
Qed.

(** [subset] raises IndexError exactly when the store has at least as
    many attributes as units are asked for and one of the units asked
    for is not an index into the attribute list.  Otherwise it returns a
    store of the same length with one unit for each position of the store
    that occurs in [units], in which every spike is a spike of the
    store; the attributes are those at the indices in [units], or none
    when fewer attributes are stored than units are asked for. *)
Theorem subset_total :
  forall (A : Type) (sd : SpikeData) (neuron_attributes : list A)
         (units : list Z),
    let n := Z.of_nat (List.length neuron_attributes) in
    match subset_attributed sd neuron_attributes units with
    | Ok (sd', attrs) =>
        subset sd units = Ok sd'
        /\ length sd' = length sd
        /\ N sd' = List.length
                     (filter (fun i => existsb (Z.eqb (Z.of_nat i)) units)
                             (seq 0 (N sd)))
        /\ Forall ascending (train sd')
        /\ (forall r t, In r (train sd') -> In t r -> In t (concat (train sd)))
        /\ ((List.length units <= List.length neuron_attributes)%nat ->
            Forall (fun u => (- n <= u < n)%Z) units
            /\ mapM (py_list_index neuron_attributes) units = Ok attrs)
        /\ ((List.length neuron_attributes < List.length units)%nat ->
            attrs = [])
    | Err e =>
        e = IndexError
        /\ (List.length units <= List.length neuron_attributes)%nat
        /\ exists u : Z, In u units /\ ~ (- n <= u < n)%Z
    end.
Proof.
  intros A sd attrs units n. unfold subset_attributed, subset_attributes.
  destruct (subset_trains sd units) as [sd' [Hsub Hfacts]].
  destruct (Nat.leb_spec (List.length units) (List.length attrs)) as [Hle | Hgt].
  - pose proof (mapM_all_ok (py_list_index attrs) units) as HM.
    destruct (mapM (py_list_index attrs) units) as [picked|e]; cbn [bind].
    + rewrite Hsub. cbn [bind].
      split; [reflexivity|].
      destruct Hfacts as [H1 [H2 [H3 H4]]].
      repeat (split; [assumption|]).
      split.
      * intros _. split; [|reflexivity].
        eapply Forall_impl; [|exact HM]. intros u Hu.
        pose proof (py_list_index_ok attrs u) as Hi. cbv beta in Hu.
        destruct (py_list_index attrs u); [exact Hi|discriminate Hu].
      * intro Hlt. lia.
    + destruct HM as [u [Hin Hu]].
      pose proof (py_list_index_ok attrs u) as Hi. rewrite Hu in Hi.
      destruct Hi as [-> Hout].
      split; [reflexivity|]. split; [exact Hle|].
      exists u. split; assumption.
  - cbn [bind]. rewrite Hsub. cbn [bind].
    split; [reflexivity|].
    destruct Hfacts as [H1 [H2 [H3 H4]]].
    repeat (split; [assumption|]).
    split; [intro; lia|reflexivity].
Qed.

(** On a store without attributes the attribute list plays no part. *)
Lemma subset_without_attributes (A : Type) (sd : SpikeData) (units : list Z) :
  subset_attributed sd (@nil A) units
  = (sd' <- subset sd units ;; Ok (sd', [])).
Proof.
  unfold subset_attributed, subset_attributes.
  destruct units as [|u units]; reflexivity.
Qed.




(** ** Population counts *)

Lemma column_sums_total (w : nat) (m : list (list Z)) :
  Forall (fun row => List.length row = w) m ->
  sumZ (column_sums w m) = sumZ (map sumZ m).
Proof.
  unfold column_sums. induction 1 as [|row m Hrow _ IH]; simpl.
  - induction (seq 0 w) as [|j l IHl]; simpl; [reflexivity|exact IHl].
  - rewrite (sumZ_map_add (fun j => nth j row 0%Z)
                          (fun j => sumZ (map (fun r => nth j r 0%Z) m))).
    rewrite IH. rewrite <- Hrow, map_nth_seq. reflexivity.
Qed.

Lemma sumZ_lengths (l : list (list Q)) :
  sumZ (map (fun ts => Z.of_nat (List.length ts)) l)
  = Z.of_nat (List.length (concat l)).
Proof.
  induction l as [|ts l IH]; simpl; [reflexivity|].
  rewrite IH, length_app. lia.
Qed.

Lemma In_firstn {A : Type} (n : nat) (l : list A) (x : A) :
  In x (firstn n l) -> In x l.
Proof.
  intro H. rewrite <- (firstn_skipn n l). apply in_or_app. left. exact H.
Qed.

Lemma In_skipn {A : Type} (n : nat) (l : list A) (x : A) :
  In x (skipn n l) -> In x l.
Proof.
  intro H. rewrite <- (firstn_skipn n l). apply in_or_app. right. exact H.
Qed.

Lemma row_entries_ones {F : Float64} (sd : SpikeData) (bin_size : Q)
    (r : csr) (i : nat) :
  sparse_raster sd bin_size = Ok r ->
  Forall (fun e : Z * Z => snd e = 1%Z) (row_entries r i).
Proof.
  intro Hr.
  destruct (sparse_raster_inv sd bin_size r Hr) as [len [_ [_ [_ ->]]]].
  unfold row_entries. cbn [indptr indices data].
  apply Forall_forall. intros [c v] Hin.
  apply In_firstn, In_skipn in Hin. apply in_combine_r in Hin.
  apply in_map_iff in Hin. destruct Hin as [x [Hx _]]. simpl. congruence.
Qed.

Lemma cell_nonneg (es : list (Z * Z)) (j : nat) :
  Forall (fun e : Z * Z => snd e = 1%Z) es -> (0 <= cell es j)%Z.
Proof.
  unfold cell. induction 1 as [|e es He _ IH]; simpl; [lia|].
  destruct (Z.eqb (fst e) (Z.of_nat j)); simpl; lia.
Qed.

Lemma sumZ_nonneg (l : list Z) :
  Forall (fun c => (0 <= c)%Z) l -> (0 <= sumZ l)%Z.
Proof. induction 1 as [|c l Hc _ IH]; simpl; lia. Qed.

(** Shared by the properties of everything computed from the binned
    counts. *)
Lemma binned_counts {F : Float64} (sd : SpikeData) (bin_size q : Q) :
  train sd <> [] ->
  length_over (length sd) bin_size = Ok (Fin q) -> 0 < q ->
  exists counts : list Z,
    binned sd bin_size = Ok counts
    /\ Z.of_nat (List.length counts) = Qceiling q
    /\ sumZ counts = Z.of_nat (List.length (concat (train sd)))
    /\ Forall (fun c => (0 <= c)%Z) counts.
Proof.
  intros Hne Hq Hpos.
  pose proof (Qceiling_pos q Hpos) as Hbins.
  destruct (sparse_raster_ok sd bin_size q Hne Hq) as [r [Hr [Hrows Hcols]]];
    [lia|].
  unfold binned. rewrite Hr. cbn [bind]. eexists. split; [reflexivity|].
  split; [|split].
  - unfold column_sums. rewrite length_map, length_seq. exact Hcols.
  - rewrite column_sums_total.
    + rewrite <- sumZ_lengths. f_equal. apply nth_error_ext. intro i.
      rewrite !nth_error_map.
      destruct (nth_error (train sd) i) as [ts|] eqn:Ets.
      * destruct (raster_row_sum sd bin_size q i ts Hq Hpos Ets)
          as [m [row [Hm [Hrow [_ Hsum]]]]].
        unfold raster in Hm. rewrite Hr in Hm. cbn [bind] in Hm.
        injection Hm as <-. rewrite Hrow. simpl. rewrite Hsum. reflexivity.
      * assert (Hnone : nth_error (toarray r) i = None).
        { apply nth_error_None. rewrite toarray_length, Hrows.
          unfold N. apply nth_error_None. exact Ets. }
        rewrite Hnone. reflexivity.
    + apply Forall_forall. intros row Hin.
      destruct (In_nth_error _ _ Hin) as [i Hi].
      apply (toarray_row_length r i row Hi).
  - unfold column_sums. apply Forall_forall. intros c Hc.
    apply in_map_iff in Hc. destruct Hc as [j [<- Hj]]. apply in_seq in Hj.
    apply sumZ_nonneg. apply Forall_forall. intros x Hx.
    apply in_map_iff in Hx. destruct Hx as [row [<- Hrow]].
    unfold toarray in Hrow. apply in_map_iff in Hrow.
    destruct Hrow as [i [<- _]].
    rewrite (nth_indep _ 0%Z (cell (row_entries r i) 0))
      by (rewrite length_map, length_seq; lia).
    rewrite (map_nth (cell (row_entries r i))).
    apply cell_nonneg. apply (row_entries_ones sd bin_size). exact Hr.
Qed.


(** [binned] conserves spikes, in every float64 arithmetic: for a store
    with at least one unit, when the float64 quotient
    [length / bin_size] is a positive number [q], it returns [ceil(q)]
    counts, none negative, and the counts add up to the number of spikes
    in the store, wherever those spikes lie. *)
Theorem binned_conserves_spikes :
  forall (F : Float64) (sd : SpikeData) (bin_size q : Q),
    train sd <> [] ->
    length_over (length sd) bin_size = Ok (Fin q) -> 0 < q ->
    exists counts : list Z,
      binned sd bin_size = Ok counts
      /\ Z.of_nat (List.length counts) = Qceiling q
      /\ sumZ counts = Z.of_nat (List.length (concat (train sd)))
      /\ Forall (fun c => (0 <= c)%Z) counts.
Proof. intro F. exact binned_counts. Qed.

Lemma binned_conserves_spikes_witness :
  exists counts : list Z,
    @binned binary64 (mkSpikeData [[0; 1; 12]; []; [3; 5; 9; 40]] 10) 4
    = Ok counts
    /\ Z.of_nat (List.length counts) = Qceiling (scaled (5 * 2 ^ 50) (-51))
    /\ sumZ counts
       = Z.of_nat (List.length
                     (concat (train (mkSpikeData [[0; 1; 12]; []; [3; 5; 9; 40]] 10))))
    /\ Forall (fun c => (0 <= c)%Z) counts.
Proof.
  apply (binned_conserves_spikes binary64
           (mkSpikeData [[0; 1; 12]; []; [3; 5; 9; 40]] 10) 4
           (scaled (5 * 2 ^ 50) (-51))).
  - discriminate.
  - vm_compute. reflexivity.
  - reflexivity.
Defined.

(** ** Interspike intervals *)

Lemma np_diff_length (ts : list Q) :
  List.length (np_diff ts) = (List.length ts - 1)%nat.
Proof.
  induction ts as [|x [|y l] IH]; try reflexivity.
  change (np_diff (x :: y :: l)) with ((y - x) :: np_diff (y :: l)).
  cbn [List.length]. rewrite IH. simpl. lia.
Qed.

Lemma np_diff_telescopes (x : Q) (l : list Q) :
  sumQ (np_diff (x :: l)) == last (x :: l) 0 - x.
Proof.
  revert x. induction l as [|y l IH]; intro x.
  - simpl. lra.
  - change (np_diff (x :: y :: l)) with ((y - x) :: np_diff (y :: l)).
    change (last (x :: y :: l) 0) with (last (y :: l) 0).
    cbn [sumQ fold_right]. fold (sumQ (np_diff (y :: l))).
    rewrite IH. lra.
Qed.

Lemma np_diff_ascending (ts : list Q) :
  ascending ts -> Forall (fun d => 0 <= d) (np_diff ts).
Proof.
  induction 1 as [|x l Hx Hl IH]; [constructor|].
  destruct l as [|y l]; [constructor|].
  change (np_diff (x :: y :: l)) with ((y - x) :: np_diff (y :: l)).
  constructor; [|exact IH].
  pose proof (Hx y (or_introl eq_refl)). lra.
Qed.

(** The interspike intervals of a store with sorted trains: one array
    per unit, one interval fewer than spikes, none negative, and together
    they span from the unit's first spike to its last. *)
Theorem interspike_intervals_span :
  forall (sd : SpikeData) (i : nat) (ts : list Q),
    Forall ascending (train sd) ->
    nth_error (train sd) i = Some ts ->
    exists isi : list Q,
      nth_error (interspike_intervals sd) i = Some isi
      /\ List.length isi = (List.length ts - 1)%nat
      /\ Forall (fun d => 0 <= d) isi
      /\ sumQ isi == last ts 0 - hd 0 ts.
Proof.
  intros sd i ts Hasc Hts. exists (np_diff ts).
  unfold interspike_intervals. rewrite nth_error_map, Hts.
  split; [reflexivity|]. split; [apply np_diff_length|]. split.
  - apply np_diff_ascending.
    apply (proj1 (Forall_forall _ _) Hasc). eapply nth_error_In. exact Hts.
  - destruct ts as [|x l]; [simpl; lra|]. apply np_diff_telescopes.
Qed.

Lemma interspike_intervals_span_witness :
  exists isi : list Q,
    nth_error (interspike_intervals (mkSpikeData [[]; [1; 4; 4; 9]] 10)) 1
    = Some isi
    /\ List.length isi = (List.length [1; 4; 4; 9] - 1)%nat
    /\ Forall (fun d => 0 <= d) isi
    /\ sumQ isi == last [1; 4; 4; 9] 0 - hd 0 [1; 4; 4; 9].
Proof.
  apply (interspike_intervals_span (mkSpikeData [[]; [1; 4; 4; 9]] 10) 1
                                   [1; 4; 4; 9]).
  - repeat constructor; simpl; intros y Hy;
      repeat (destruct Hy as [<- | Hy]; [discriminate|]); destruct Hy.
  - reflexivity.
Defined.

(** ** The tiling coefficient *)

Lemma Qmin'_le_l (a b : Q) : Qmin' a b <= a.
Proof. unfold Qmin'. destruct (Qleb a b) eqn:E; qbool; lra. Qed.

Lemma Qmin'_le_r (a b : Q) : Qmin' a b <= b.
Proof. unfold Qmin'. destruct (Qleb a b) eqn:E; qbool; lra. Qed.

Lemma Qmin'_nonneg (a b : Q) : 0 <= a -> 0 <= b -> 0 <= Qmin' a b.
Proof. unfold Qmin'. destruct (Qleb a b); auto. Qed.

Lemma sumQ_min_le (c : Q) (l : list Q) :
  sumQ (map (fun d => Qmin' d c) l) <= sumQ l.
Proof.
  induction l as [|d l IH]; [simpl; lra|].
  cbn [map]. unfold sumQ in *. cbn [fold_right].
  pose proof (Qmin'_le_l d c). lra.
Qed.

Lemma sumQ_min_nonneg (c : Q) (l : list Q) :
  0 <= c -> Forall (fun d => 0 <= d) l ->
  0 <= sumQ (map (fun d => Qmin' d c) l).
Proof.
  intros Hc. induction 1 as [|d l Hd _ IH]; [simpl; lra|].
  cbn [map]. unfold sumQ in *. cbn [fold_right].
  pose proof (Qmin'_nonneg d c Hd Hc). lra.
Qed.

(** The tiled time never exceeds the recording. *)
Lemma sttc_ta_le_tmax (tA : list Q) (delt tmax : Q) :
  tA <> [] -> _sttc_ta tA delt tmax <= tmax.
Proof.
  destruct tA as [|t0 l]; [congruence|]. intros _. unfold _sttc_ta.
  pose proof (Qmin'_le_r delt t0).
  pose proof (Qmin'_le_r delt (tmax - last (t0 :: l) 0)).
  pose proof (sumQ_min_le (2 * delt) (np_diff (t0 :: l))).
  pose proof (np_diff_telescopes t0 l). lra.
Qed.

Lemma sttc_ta_nonneg (tA : list Q) (delt tmax : Q) :
  0 <= delt -> ascending tA ->
  (forall t, In t tA -> 0 <= t <= tmax) ->
  0 <= _sttc_ta tA delt tmax.
Proof.
  intros Hd Hasc Hin. destruct tA as [|t0 l]; [simpl; lra|].
  unfold _sttc_ta.
  assert (H0 : 0 <= t0) by (apply Hin; left; reflexivity).
  assert (Hl : last (t0 :: l) 0 <= tmax).
  { apply Hin. apply last_In. discriminate. }
  pose proof (Qmin'_nonneg delt t0 Hd H0).
  assert (Hr : 0 <= tmax - last (t0 :: l) 0) by lra.
  pose proof (Qmin'_nonneg delt _ Hd Hr).
  assert (H2 : 0 <= 2 * delt) by lra.
  pose proof (sumQ_min_nonneg (2 * delt) _ H2 (np_diff_ascending _ Hasc)).
  lra.
Qed.

Lemma sttc_na_le (tA tB : list Q) (delt : Q) :
  (_sttc_na tA tB delt <= List.length tA)%nat.
Proof.
  unfold _sttc_na. destruct tB; [lia|]. apply filter_length_le.
Qed.

Lemma sttc_term_bounded (P T : Q) :
  0 <= P <= 1 -> 0 <= T <= 1 ->
  exists q : Q, sttc_term (Fin P) (Fin T) = Fin q /\ -1 <= q <= 1.
Proof.
  intros HP HT. unfold sttc_term. cbn [Fl.mul Fl.eqb Fl.sub Fl.neg Fl.add].
  destruct (Qeqb (P * T) 1) eqn:E; cbn [negb].
  - exists 0. split; [reflexivity|lra].
  - qbool.
    assert (HPT : P * T <= 1).
    { assert (Hm : P * T <= 1 * 1).
      { apply Qmult_le_compat_nonneg; lra. }
      lra. }
    assert (Hden : 0 < 1 + - (P * T)) by lra.
    cbn [Fl.div].
    assert (Ez : Qeqb (1 + - (P * T)) 0 = false) by (qbool; lra).
    rewrite Ez. eexists. split; [reflexivity|].
    assert (H1 : 0 <= (1 - P) * (1 + T)).
    { apply Qmult_le_0_compat; lra. }
    assert (H2 : 0 <= (1 + P) * (1 - T)).
    { apply Qmult_le_0_compat; lra. }
    split.
    + apply Qle_shift_div_l; [exact Hden|]. ring_simplify.
      ring_simplify in H2. lra.
    + apply Qle_shift_div_r; [exact Hden|]. ring_simplify.
      ring_simplify in H1. lra.
Qed.

Lemma unit_fraction (a b : Q) : 0 <= a <= b -> 0 < b -> 0 <= a / b <= 1.
Proof.
  intros Ha Hb. split.
  - apply Qle_shift_div_l; [exact Hb|]. lra.
  - apply Qle_shift_div_r; [exact Hb|]. lra.
Qed.

(** On a recording of positive length whose two trains are sorted and
    lie within the recording, the tiling coefficient is a finite number
    between -1 and 1, for any non-negative window. *)
Theorem spike_time_tiling_in_unit_range :
  forall (sd : SpikeData) (i j : nat) (delt : Q) (tA tB : list Q),
    0 < length sd -> 0 <= delt ->
    nth_error (train sd) i = Some tA ->
    nth_error (train sd) j = Some tB ->
    ascending tA -> ascending tB ->
    (forall t, In t tA -> 0 <= t <= length sd) ->
    (forall t, In t tB -> 0 <= t <= length sd) ->
    exists q : Q,
      spike_time_tiling sd i j delt = Ok (Fin q) /\ -1 <= q <= 1.
Proof.
  intros sd i j delt tA tB Hlen Hd HA HB HascA HascB HinA HinB.
  unfold spike_time_tiling, get_train. rewrite HA, HB. cbn [bind].
  destruct (is_empty tA || is_empty tB) eqn:Eempty.
  - exists 0. split; [reflexivity|lra].
  - apply orb_false_iff in Eempty. destruct Eempty as [EA EB].
    assert (HneA : tA <> []) by (intros ->; discriminate).
    assert (HneB : tB <> []) by (intros ->; discriminate).
    assert (Ez : Qeqb (length sd) 0 = false) by (qbool; lra).
    cbn [Fl.div]. rewrite Ez.
    assert (HlenA : 0 < inject_Z (Z.of_nat (List.length tA))).
    { destruct tA; [congruence|]. unfold Qlt. simpl. lia. }
    assert (HlenB : 0 < inject_Z (Z.of_nat (List.length tB))).
    { destruct tB; [congruence|]. unfold Qlt. simpl. lia. }
    assert (EzA : Qeqb (inject_Z (Z.of_nat (List.length tA))) 0 = false)
      by (qbool; lra).
    assert (EzB : Qeqb (inject_Z (Z.of_nat (List.length tB))) 0 = false)
      by (qbool; lra).
    unfold Fl.of_nat. cbn [Fl.div]. rewrite EzA, EzB.
    assert (HTA : 0 <= _sttc_ta tA delt (length sd) / length sd <= 1).
    { apply unit_fraction; [|exact Hlen]. split.
      - apply sttc_ta_nonneg; assumption.
      - apply sttc_ta_le_tmax. exact HneA. }
    assert (HTB : 0 <= _sttc_ta tB delt (length sd) / length sd <= 1).
    { apply unit_fraction; [|exact Hlen]. split.
      - apply sttc_ta_nonneg; assumption.
      - apply sttc_ta_le_tmax. exact HneB. }
    assert (Hcount : forall n m : nat,
               (n <= m)%nat -> 0 < inject_Z (Z.of_nat m) ->
               0 <= inject_Z (Z.of_nat n) / inject_Z (Z.of_nat m) <= 1).
    { intros n m Hnm Hm. apply unit_fraction; [|exact Hm]. split.
      - unfold Qle. simpl. lia.
      - unfold Qle. simpl. lia. }
    pose proof (Hcount _ _ (sttc_na_le tA tB delt) HlenA) as HPA.
    pose proof (Hcount _ _ (sttc_na_le tB tA delt) HlenB) as HPB.
    destruct (sttc_term_bounded _ _ HPA HTB) as [aa [Eaa Haa]].
    destruct (sttc_term_bounded _ _ HPB HTA) as [bb [Ebb Hbb]].
    rewrite Eaa, Ebb. cbn [Fl.add Fl.div].
    assert (E2 : Qeqb 2 0 = false) by reflexivity.
    rewrite E2. eexists. split; [reflexivity|].
    split.
    + apply Qle_shift_div_l; lra.
    + apply Qle_shift_div_r; lra.
Qed.

Lemma spike_time_tiling_in_unit_range_witness :
  exists q : Q,
    spike_time_tiling (mkSpikeData [[1; 2; 30]; [2; 50]] 60) 0 1 5 = Ok (Fin q)
    /\ -1 <= q <= 1.
Proof.
  apply (spike_time_tiling_in_unit_range
           (mkSpikeData [[1; 2; 30]; [2; 50]] 60) 0 1 5 [1; 2; 30] [2; 50]).
  - reflexivity.
  - discriminate.
  - reflexivity.
  - reflexivity.
  - repeat constructor; simpl; intros y Hy;
      repeat (destruct Hy as [<- | Hy]; [discriminate|]); destruct Hy.
  - repeat constructor; simpl; intros y Hy;
      repeat (destruct Hy as [<- | Hy]; [discriminate|]); destruct Hy.
  - simpl. intros t Ht.
    repeat (destruct Ht as [<- | Ht]; [split; discriminate|]); destruct Ht.
  - simpl. intros t Ht.
    repeat (destruct Ht as [<- | Ht]; [split; discriminate|]); destruct Ht.
Defined.

Lemma fl_same_half_sum (x y : fl) :
  fl_same (Fl.div (Fl.add x y) (Fin 2)) (Fl.div (Fl.add y x) (Fin 2)).
Proof.
  destruct x as [a| | |], y as [b| | |]; simpl; try exact I.
  apply Qdiv_comp; [ring|reflexivity].
Qed.

(** The tiling coefficient does not depend on the order of the two
    units: both orders raise the same error or return the same number. *)
Theorem spike_time_tiling_symmetric :
  forall (sd : SpikeData) (i j : nat) (delt : Q),
    match spike_time_tiling sd i j delt, spike_time_tiling sd j i delt with
    | Ok x, Ok y => fl_same x y
    | Err e, Err e' => e = e'
    | _, _ => False
    end.
Proof.
  intros sd i j delt. unfold spike_time_tiling, get_train.
  destruct (nth_error (train sd) i) as [tA|], (nth_error (train sd) j) as [tB|];
    cbn [bind]; try reflexivity.
  rewrite (orb_comm (is_empty tB)).
  destruct (is_empty tA || is_empty tB).
  - simpl. reflexivity.
  - apply fl_same_half_sum.
Qed.

(** *** Counting spikes near another train *)











(** ** The matrix of tiling coefficients *)

Lemma mapM_length {A B : Type} (f : A -> result B) (l : list A) (r : list B) :
  mapM f l = Ok r -> List.length r = List.length l.
Proof.
  revert r. induction l as [|x l IH]; intros r H; simpl in H.
  - injection H as <-. reflexivity.
  - destruct (f x); [|discriminate]. simpl in H.
    destruct (mapM f l) as [ys|]; [|discriminate].
    simpl in H. injection H as <-. simpl. rewrite (IH ys eq_refl).
    reflexivity.
Qed.

(** [spike_time_tilings] never raises; it returns a square matrix, one
    row and one column per unit, with ones on the diagonal and equal
    entries on both sides of it. *)
Theorem spike_time_tilings_square_symmetric :
  forall (sd : SpikeData) (delt : Q),
    exists M : list (list fl),
      spike_time_tilings sd delt = Ok M
      /\ List.length M = N sd
      /\ Forall (fun row => List.length row = N sd) M
      /\ (forall i, (i < N sd)%nat -> entry M i i = Some (Fin 1))
      /\ (forall i j, entry M i j = entry M j i).
Proof.
  intros sd delt. unfold spike_time_tilings.
  set (cellf := fun i j => if Nat.eqb i j then Ok (Fin 1)
                           else spike_time_tiling sd (Nat.min i j)
                                                  (Nat.max i j) delt).
  assert (Hcell : forall i j, (i < N sd)%nat -> (j < N sd)%nat ->
                              exists v, cellf i j = Ok v).
  { intros i j Hi Hj. unfold cellf.
    destruct (Nat.eqb i j); [eexists; reflexivity|].
    apply spike_time_tiling_total; lia. }
  assert (Hseq : forall k, (k < N sd)%nat -> nth_error (seq 0 (N sd)) k = Some k).
  { intros k Hk. rewrite nth_error_seq.
    destruct (Nat.ltb_spec k (N sd)); [reflexivity|lia]. }
  assert (Hrow : forall i, (i < N sd)%nat ->
                   exists row, mapM (cellf i) (seq 0 (N sd)) = Ok row
                               /\ List.length row = N sd
                               /\ forall j, (j < N sd)%nat ->
                                    exists v, cellf i j = Ok v
                                              /\ nth_error row j = Some v).
  { intros i Hi.
    destruct (mapM_ok (cellf i) (seq 0 (N sd))) as [row [Hr Hcells]].
    { intros j Hj. apply in_seq in Hj. apply Hcell; lia. }
    exists row. split; [exact Hr|]. split.
    - rewrite (mapM_length _ _ _ Hr). apply length_seq.
    - intros j Hj. apply (Hcells j j (Hseq j Hj)). }
  destruct (mapM_ok (fun i => mapM (cellf i) (seq 0 (N sd))) (seq 0 (N sd)))
    as [M [HM Hrows]].
  { intros i Hi. apply in_seq in Hi.
    destruct (Hrow i) as [row [Hr _]]; [lia|]. exists row. exact Hr. }
  assert (HMrow : forall i, (i < N sd)%nat ->
                    exists row, nth_error M i = Some row
                                /\ List.length row = N sd
                                /\ forall j, (j < N sd)%nat ->
                                     exists v, cellf i j = Ok v
                                               /\ nth_error row j = Some v).
  { intros i Hi. destruct (Hrows i i (Hseq i Hi)) as [row [Hr Hnth]].
    destruct (Hrow i Hi) as [row' [Hr' Hfacts]].
    assert (row' = row) by congruence. subst row'.
    exists row. split; [exact Hnth|exact Hfacts]. }
  assert (HlenM : List.length M = N sd).
  { rewrite (mapM_length _ _ _ HM). apply length_seq. }
  exists M. split; [exact HM|]. split; [exact HlenM|]. split; [|split].
  - apply Forall_forall. intros row Hin.
    destruct (In_nth_error _ _ Hin) as [i Hi].
    assert (Hlt : (i < N sd)%nat).
    { rewrite <- HlenM. apply nth_error_Some. congruence. }
    destruct (HMrow i Hlt) as [row' [Hnth [Hlen _]]].
    assert (row' = row) by congruence. subst row'. exact Hlen.
  - intros i Hi. destruct (HMrow i Hi) as [row [Hnth [_ Hcells]]].
    destruct (Hcells i Hi) as [v [Hv Hvnth]].
    unfold entry. rewrite Hnth, Hvnth. unfold cellf in Hv.
    rewrite Nat.eqb_refl in Hv. congruence.
  - assert (Hout : forall i j, (N sd <= i)%nat \/ (N sd <= j)%nat ->
                               entry M i j = None).
    { intros i j Hij. unfold entry.
      destruct (nth_error M i) as [row|] eqn:Ei; [|reflexivity].
      assert (Hlt : (i < N sd)%nat).
      { rewrite <- HlenM. apply nth_error_Some. congruence. }
      destruct (HMrow i Hlt) as [row' [Hnth [Hlen _]]].
      assert (row' = row) by congruence. subst row'.
      apply nth_error_None. lia. }
    intros i j.
    destruct (Nat.lt_ge_cases i (N sd)) as [Hi | Hi];
      [|rewrite !Hout by lia; reflexivity].
    destruct (Nat.lt_ge_cases j (N sd)) as [Hj | Hj];
      [|rewrite !Hout by lia; reflexivity].
    destruct (HMrow i Hi) as [ri [Hri [_ Hci]]].
    destruct (HMrow j Hj) as [rj [Hrj [_ Hcj]]].
    destruct (Hci j Hj) as [v [Hv Hvnth]].
    destruct (Hcj i Hi) as [v' [Hv' Hvnth']].
    unfold entry. rewrite Hri, Hrj, Hvnth, Hvnth'. f_equal.
    unfold cellf in Hv, Hv'.
    rewrite (Nat.eqb_sym j i), (Nat.min_comm j i), (Nat.max_comm j i) in Hv'.
    congruence.
Qed.

(** ** Avalanche sizes and durations *)

Lemma avalanches_of_counts_bounded (thresh : fl) (counts : list Z)
    (avs : list (list Z)) :
  avalanches_of_counts thresh counts = Ok avs ->
  forall run, In run avs -> bounded_run thresh counts run.
Proof.
  intros H run Hin. rewrite avalanches_of_counts_runs in H.
  destruct counts as [|c rest]; [discriminate|]. injection H as <-.
  apply spec_segmenter_bounded_runs. unfold spec_segmenter, seg_first.
  destruct (seg_run_code_runs thresh rest c) as [Hi [Hu _]].
  set (cr := code_runs thresh (c :: rest)) in *.
  change (In run cr) in Hin.
  destruct (is_active thresh c) eqn:Ec.
  - rewrite (Hu eq_refl). exact Hin.
  - rewrite (Hi eq_refl). exact Hin.
Qed.

Lemma active_run_sum_ge (thresh : Q) (run : list Z) :
  Forall (fun c => is_active (Fin thresh) c = true) run ->
  thresh * inject_Z (Z.of_nat (List.length run)) <= inject_Z (sumZ run).
Proof.
  induction 1 as [|c run Hc _ IH].
  - change (thresh * 0 <= 0). lra.
  - cbn [List.length sumZ fold_right]. fold (sumZ run).
    rewrite Nat2Z.inj_succ, <- Z.add_1_r, !inject_Z_plus.
    unfold is_active, Fl.of_Z, Fl.ltb in Hc. qbool.
    change (inject_Z 1) with 1. lra.
Qed.

Lemma active_run_sum_gt (thresh : Q) (run : list Z) :
  run <> [] ->
  Forall (fun c => is_active (Fin thresh) c = true) run ->
  thresh * inject_Z (Z.of_nat (List.length run)) < inject_Z (sumZ run).
Proof.
  intros Hne Hact. destruct run as [|c run]; [congruence|].
  inversion Hact as [|c' run' Hc Hrest]; subst.
  pose proof (active_run_sum_ge thresh run Hrest) as Hge.
  cbn [List.length sumZ fold_right]. fold (sumZ run).
  rewrite Nat2Z.inj_succ, <- Z.add_1_r, !inject_Z_plus.
  unfold is_active, Fl.of_Z, Fl.ltb in Hc. qbool.
  change (inject_Z 1) with 1. lra.
Qed.

(** Whenever [avalanche_duration_size] returns, in any float64
    arithmetic, it returns as many sizes as durations, every duration is
    at least one bin, and every size is above the threshold times the
    duration.  It does return for a store with at least one unit when the
    float64 quotient [length / bin_size] is a positive number. *)
Theorem avalanche_sizes_exceed_threshold :
  forall (F : Float64) (sd : SpikeData) (thresh bin_size : Q),
    (forall durations sizes : list Z,
        avalanche_duration_size sd (Fin thresh) bin_size = Ok (durations, sizes) ->
        List.length durations = List.length sizes
        /\ forall k d s,
             nth_error durations k = Some d -> nth_error sizes k = Some s ->
             (1 <= d)%Z /\ thresh * inject_Z d < inject_Z s)
    /\
    (forall q : Q,
        train sd <> [] ->
        length_over (length sd) bin_size = Ok (Fin q) -> 0 < q ->
        exists durations sizes : list Z,
          avalanche_duration_size sd (Fin thresh) bin_size
          = Ok (durations, sizes)).
Proof.
  intros F sd thresh bin_size. split.
  - intros durations sizes Hret.
    unfold avalanche_duration_size, avalanches in Hret.
    destruct (binned sd bin_size) as [counts|e]; [|discriminate].
    cbn [bind] in Hret.
    destruct (avalanches_of_counts (Fin thresh) counts) as [avs|e] eqn:Eavs;
      [|discriminate].
    cbn [bind] in Hret. injection Hret as <- <-.
    split; [rewrite !length_map; reflexivity|].
    intros k d s Hd Hs. rewrite nth_error_map in Hd, Hs.
    destruct (nth_error avs k) as [av|] eqn:Eav; [|discriminate].
    simpl in Hd, Hs. injection Hd as <-. injection Hs as <-.
    destruct (avalanches_of_counts_bounded _ _ _ Eavs av (nth_error_In _ _ Eav))
      as [pre [post [x [y [_ [_ [_ [Hnonempty Hact]]]]]]]].
    split.
    + destruct av; [congruence|]. simpl. lia.
    + apply active_run_sum_gt; assumption.
  - intros q Hne Hq Hpos.
    destruct (binned_counts sd bin_size q Hne Hq Hpos)
      as [counts [Hbin [Hlen _]]].
    pose proof (Qceiling_pos q Hpos) as Hbins.
    unfold avalanche_duration_size, avalanches. rewrite Hbin. cbn [bind].
    rewrite avalanches_of_counts_runs.
    destruct counts as [|c rest]; [simpl in Hlen; lia|].
    cbn [bind]. eexists. eexists. reflexivity.
Qed.

Lemma avalanche_sizes_exceed_threshold_witness :
  exists durations sizes : list Z,
    @avalanche_duration_size binary64
      (mkSpikeData [[3 # 2; 5 # 2; 27 # 10; 9 # 2]] 6) (Fin 0) 1
    = Ok (durations, sizes)
    /\ List.length durations = List.length sizes
    /\ forall k d s,
         nth_error durations k = Some d -> nth_error sizes k = Some s ->
         (1 <= d)%Z /\ 0 * inject_Z d < inject_Z s.
Proof.
  destruct (proj2 (avalanche_sizes_exceed_threshold binary64
                     (mkSpikeData [[3 # 2; 5 # 2; 27 # 10; 9 # 2]] 6) 0 1)
                  (scaled (3 * 2 ^ 51) (-50)) ltac:(discriminate)
                  ltac:(vm_compute; reflexivity) ltac:(reflexivity))
    as [durations [sizes Hret]].
  exists durations, sizes. split; [exact Hret|].
  apply (proj1 (avalanche_sizes_exceed_threshold binary64
                  (mkSpikeData [[3 # 2; 5 # 2; 27 # 10; 9 # 2]] 6) 0 1)).
  exact Hret.
Defined.

(** ** Latencies *)

Lemma np_argmin_spec (l : list Q) :
  l <> [] ->
  (np_argmin l < List.length l)%nat
  /\ forall x, In x l -> nth (np_argmin l) l 0 <= x.
Proof.
  induction l as [|x l IH]; intro Hne; [congruence|].
  destruct l as [|y l].
  - simpl. split; [lia|]. intros z [<- | []]. lra.
  - destruct IH as [IHlt IHmin]; [discriminate|].
    change (np_argmin (x :: y :: l))
      with (if Qleb x (nth (np_argmin (y :: l)) (y :: l) 0)
            then 0%nat else S (np_argmin (y :: l))).
    destruct (Qleb x (nth (np_argmin (y :: l)) (y :: l) 0)) eqn:E; qbool.
    + split; [simpl; lia|].
      intros z [<- | Hz]; [simpl; lra|].
      specialize (IHmin z Hz). simpl nth at 1. lra.
    + split; [simpl in *; lia|].
      intros z [<- | Hz].
      * change (nth (S (np_argmin (y :: l))) (x :: y :: l) 0)
          with (nth (np_argmin (y :: l)) (y :: l) 0). lra.
      * change (nth (S (np_argmin (y :: l))) (x :: y :: l) 0)
          with (nth (np_argmin (y :: l)) (y :: l) 0).
        apply IHmin. exact Hz.
Qed.

(** What [nearest_latency] keeps is the signed distance to a nearest
    spike, and only when it is within the window. *)
Lemma nearest_latency_spec (tr : list Q) (window_ms time lat : Q) :
  tr <> [] ->
  In lat (nearest_latency tr window_ms time) ->
  Qabs lat <= window_ms
  /\ exists s, In s tr /\ lat = s - time
               /\ forall s', In s' tr -> Qabs lat <= Qabs (s' - time).
Proof.
  intros Hne Hin. unfold nearest_latency in Hin.
  set (latency := map (fun s => s - time) tr) in *.
  set (k := np_argmin (map Qabs latency)) in *.
  assert (Hne' : map Qabs latency <> []).
  { unfold latency. destruct tr; [congruence|discriminate]. }
  destruct (np_argmin_spec _ Hne') as [Hk0 Hmin]. fold k in Hk0, Hmin.
  assert (Hk : (k < List.length tr)%nat).
  { unfold latency in Hk0. rewrite !length_map in Hk0. exact Hk0. }
  assert (Hnth : nth k latency 0 = nth k tr 0 - time).
  { unfold latency.
    rewrite (nth_indep _ 0 ((fun s => s - time) 0))
      by (rewrite length_map; exact Hk).
    apply (map_nth (fun s => s - time)). }
  assert (Habs : nth k (map Qabs latency) 0 = Qabs (nth k latency 0)).
  { rewrite (nth_indep _ 0 (Qabs 0)) by exact Hk0.
    apply (map_nth Qabs). }
  destruct (Qleb (Qabs (nth k latency 0)) window_ms) eqn:E; [|destruct Hin].
  destruct Hin as [<- | []]. qbool. split; [exact E|].
  exists (nth k tr 0). split; [apply nth_In; exact Hk|].
  split; [exact Hnth|].
  intros s' Hs'. rewrite <- Habs. apply Hmin.
  apply in_map. unfold latency. apply (in_map (fun s => s - time)). exact Hs'.
Qed.

Lemma flat_map_at_most_one {A B : Type} (f : A -> list B) (l : list A) :
  (forall x, (List.length (f x) <= 1)%nat) ->
  (List.length (flat_map f l) <= List.length l)%nat.
Proof.
  intro H. induction l as [|x l IH]; simpl; [lia|].
  rewrite length_app. specialize (H x). lia.
Qed.

(** [latencies]: for a non-empty list of times, the row of a unit holds
    at most one latency per time; each is within the window, and is the
    signed distance from one of the times to a spike of the unit that no
    other spike of the unit is closer to. *)
Theorem latencies_nearest_within_window :
  forall (sd : SpikeData) (times : list Q) (window_ms : Q) (i : nat)
         (tr : list Q),
    times <> [] ->
    nth_error (train sd) i = Some tr ->
    exists row : list Q,
      nth_error (latencies sd times window_ms) i = Some row
      /\ (List.length row <= List.length times)%nat
      /\ forall lat, In lat row ->
           Qabs lat <= window_ms
           /\ exists time s,
                In time times /\ In s tr /\ lat = s - time
                /\ forall s', In s' tr -> Qabs lat <= Qabs (s' - time).
Proof.
  intros sd times window_ms i tr Hne Htr. unfold latencies.
  destruct times as [|t0 times'] eqn:Et; [congruence|]. rewrite <- Et.
  rewrite nth_error_map, Htr. cbn [option_map].
  eexists. split; [reflexivity|].
  destruct tr as [|s0 tr'] eqn:Etr.
  - split; [simpl; lia|]. intros lat [].
  - rewrite <- Etr. split.
    + apply flat_map_at_most_one. intro x. unfold nearest_latency.
      destruct (Qleb _ window_ms); simpl; lia.
    + intros lat Hin. apply in_flat_map in Hin.
      destruct Hin as [time [Htime Hlat]].
      assert (Hne' : tr <> []) by (rewrite Etr; discriminate).
      destruct (nearest_latency_spec tr window_ms time lat Hne' Hlat)
        as [Hwin [s [Hs [Heq Hnear]]]].
      split; [exact Hwin|]. exists time, s. auto.
Qed.

Lemma latencies_nearest_within_window_witness :
  exists row : list Q,
    nth_error (latencies (mkSpikeData [[]; [2; 10; 30]] 40) [1; 9; 20] 5) 1
    = Some row
    /\ (List.length row <= List.length [1; 9; 20])%nat
    /\ forall lat, In lat row ->
         Qabs lat <= 5
         /\ exists time s,
              In time [1; 9; 20] /\ In s [2; 10; 30] /\ lat = s - time
              /\ forall s', In s' [2; 10; 30] -> Qabs lat <= Qabs (s' - time).
Proof.
  apply (latencies_nearest_within_window
           (mkSpikeData [[]; [2; 10; 30]] 40) [1; 9; 20] 5 1 [2; 10; 30]).
  - discriminate.
  - reflexivity.
Defined.

Lemma flat_map_singletons {A B : Type} (f : A -> list B) (P : B -> Prop)
    (l : list A) :
  (forall x, In x l -> exists y, f x = [y] /\ P y) ->
  List.length (flat_map f l) = List.length l /\ Forall P (flat_map f l).
Proof.
  induction l as [|x l IH]; intro H; simpl; [split; [reflexivity|constructor]|].
  destruct (H x (or_introl eq_refl)) as [y [Hy HP]].
  destruct IH as [IHlen IHall]; [intros z Hz; apply H; right; exact Hz|].
  rewrite Hy. simpl. split; [lia|]. constructor; assumption.
Qed.

(** A unit's latencies to its own spikes, with a non-negative window.
    When the unit has no spike, [latencies_to_index] returns no row at
    all.  When it has spikes, it returns one row per unit, and the row of
    the unit itself has one latency per spike, every one of them zero. *)
Theorem latencies_to_own_spikes_zero :
  forall (sd : SpikeData) (i : nat) (tr : list Q) (window_ms : Q),
    nth_error (train sd) i = Some tr ->
    0 <= window_ms ->
    (tr = [] -> latencies_to_index sd i window_ms = Ok [])
    /\
    (tr <> [] ->
     exists (M : list (list Q)) (row : list Q),
       latencies_to_index sd i window_ms = Ok M
       /\ List.length M = N sd
       /\ nth_error M i = Some row
       /\ List.length row = List.length tr
       /\ Forall (fun lat => lat == 0) row).
Proof.
  intros sd i tr window_ms Htr Hwin.
  unfold latencies_to_index, get_train. rewrite Htr. cbn [bind].
  unfold latencies. split; [intros ->; reflexivity|]. intro Hne.
  destruct tr as [|s0 tr'] eqn:Etr; [congruence|]. rewrite <- Etr in *.
  eexists. eexists. split; [reflexivity|].
  split; [rewrite length_map; reflexivity|].
  rewrite nth_error_map, Htr. cbn [option_map].
  assert (Erow : match tr with
                 | [] => []
                 | _ :: _ => flat_map (nearest_latency tr window_ms) tr
                 end = flat_map (nearest_latency tr window_ms) tr).
  { rewrite Etr. reflexivity. }
  rewrite Erow. split; [reflexivity|].
  apply flat_map_singletons. intros time Htime.
  unfold nearest_latency.
  set (latency := map (fun s => s - time) tr).
  set (k := np_argmin (map Qabs latency)).
  assert (Hne' : map Qabs latency <> []).
  { unfold latency. rewrite Etr. discriminate. }
  destruct (np_argmin_spec _ Hne') as [Hk Hmin]. fold k in Hk, Hmin.
  assert (Habs : nth k (map Qabs latency) 0 = Qabs (nth k latency 0)).
  { rewrite (nth_indep _ 0 (Qabs 0)) by exact Hk. apply (map_nth Qabs). }
  assert (Hzero : Qabs (nth k latency 0) <= 0).
  { rewrite <- Habs.
    eapply Qle_trans.
    - apply (Hmin (Qabs (time - time))). apply in_map. unfold latency.
      apply (in_map (fun s => s - time)). exact Htime.
    - assert (E0 : time - time == 0) by ring. rewrite E0. simpl. lra. }
  assert (Hlat : nth k latency 0 == 0).
  { apply Qabs_Qle_condition in Hzero. lra. }
  assert (E : Qleb (Qabs (nth k latency 0)) window_ms = true) by (qbool; lra).
  rewrite E. eexists. split; [reflexivity|exact Hlat].
Qed.

Lemma latencies_to_own_spikes_zero_witness :
  latencies_to_index (mkSpikeData [[5]; []; [2; 10; 30]] 40) 1 3 = Ok []
  /\ exists (M : list (list Q)) (row : list Q),
       latencies_to_index (mkSpikeData [[5]; []; [2; 10; 30]] 40) 2 3 = Ok M
       /\ List.length M = N (mkSpikeData [[5]; []; [2; 10; 30]] 40)
       /\ nth_error M 2 = Some row
       /\ List.length row = List.length [2; 10; 30]
       /\ Forall (fun lat => lat == 0) row.
Proof.
  split.
  - apply (proj1 (latencies_to_own_spikes_zero
                    (mkSpikeData [[5]; []; [2; 10; 30]] 40) 1 [] 3
                    eq_refl ltac:(discriminate))).
    reflexivity.
  - apply (proj2 (latencies_to_own_spikes_zero
                    (mkSpikeData [[5]; []; [2; 10; 30]] 40) 2 [2; 10; 30] 3
                    eq_refl ltac:(discriminate))).
    discriminate.
Defined.

(** ** Cumulative moving average *)

Lemma cma_from_running_mean (h : list Q) :
  forall (i : nat) (cma before : Q) (k : nat),
    cma * inject_Z (Z.of_nat i) == before ->
    (k < List.length h)%nat ->
    exists c,
      nth_error (cma_from i cma h) k = Some c
      /\ c == (before + sumQ (firstn (S k) h))
              / inject_Z (Z.of_nat (i + S k)).
Proof.
  induction h as [|x h IH]; intros i cma before k Hinv Hk; [simpl in Hk; lia|].
  assert (Hpos : 0 < inject_Z (Z.of_nat i + 1)).
  { unfold Qlt. simpl. lia. }
  set (c := (cma * inject_Z (Z.of_nat i) + x) / inject_Z (Z.of_nat i + 1)).
  assert (Hc : c * inject_Z (Z.of_nat (S i)) == before + x).
  { unfold c. rewrite Nat2Z.inj_succ, <- Z.add_1_r, Hinv. field.
    intro H0. rewrite H0 in Hpos. lra. }
  destruct k as [|k].
  - exists c. split; [reflexivity|].
    cbn [firstn sumQ fold_right]. unfold c. rewrite Hinv.
    replace (i + 1)%nat with (S i) by lia.
    rewrite Nat2Z.inj_succ, <- Z.add_1_r.
    apply Qdiv_comp; [ring|reflexivity].
  - destruct (IH (S i) c (before + x) k Hc) as [c' [Hnth Hc']];
      [simpl in Hk; lia|].
    exists c'. split; [exact Hnth|].
    rewrite Hc'. rewrite firstn_cons.
    replace (S i + S k)%nat with (i + S (S k))%nat by lia.
    apply Qdiv_comp; [|reflexivity].
    change (sumQ (x :: firstn (S k) h)) with (x + sumQ (firstn (S k) h)).
    ring.
Qed.

(** [cumulative_moving_average]: entry [k] of a row is the mean of the
    first [k + 1] entries of the histogram row. *)
Theorem cumulative_moving_average_is_running_mean :
  forall (hist : list (list Q)) (r k : nat) (h : list Q),
    nth_error hist r = Some h ->
    (k < List.length h)%nat ->
    exists (row : list Q) (c : Q),
      nth_error (cumulative_moving_average hist) r = Some row
      /\ nth_error row k = Some c
      /\ c == sumQ (firstn (S k) h) / inject_Z (Z.of_nat (S k)).
Proof.
  intros hist r k h Hh Hk. unfold cumulative_moving_average.
  rewrite nth_error_map, Hh. cbn [option_map].
  assert (Hinv : 0 * inject_Z (Z.of_nat 0) == 0) by ring.
  destruct (cma_from_running_mean h 0 0 0 k Hinv Hk) as [c [Hnth Hc]].
  exists (cma_from 0 0 h), c. split; [reflexivity|]. split; [exact Hnth|].
  rewrite Hc. apply Qdiv_comp; [ring|reflexivity].
Qed.

Lemma cumulative_moving_average_is_running_mean_witness :
  exists (row : list Q) (c : Q),
    nth_error (cumulative_moving_average [[4]; [3; 6; 0; 7]]) 1 = Some row
    /\ nth_error row 2 = Some c
    /\ c == sumQ (firstn 3 [3; 6; 0; 7]) / inject_Z (Z.of_nat 3).
Proof.
  apply (cumulative_moving_average_is_running_mean
           [[4]; [3; 6; 0; 7]] 1 2 [3; 6; 0; 7]).
  - reflexivity.
  - simpl. lia.
Defined.

(** ** Burst detection *)





Lemma burst_loop_no_gap (thr : Q) (n : Z) (rest : list Q) :
  forall i cur : Z,
    (forall k : nat, (S k < List.length rest)%nat ->
                     nth (S k) rest 0 - nth k rest 0 <= thr) ->
    burst_loop thr n i cur rest = [].
Proof.
  induction rest as [|t0 rest IH]; intros i cur Hgaps; [reflexivity|].
  destruct rest as [|t1 r]; [reflexivity|].
  assert (E : Qleb (t1 - t0) thr = true).
  { qbool. apply (Hgaps 0%nat). simpl. lia. }
  simpl. rewrite E. apply IH.
  intros k Hk. apply (Hgaps (S k)). simpl in *. lia.
Qed.

(** A train whose spikes are all within the threshold of their
    neighbours is one unbroken run to the end, and [burst_detection]
    reports no burst at all for it, however many spikes it has. *)
Theorem burst_detection_unbroken_run_unreported :
  forall (spike_times : list Q) (burst_threshold : Q) (spike_num_thr : Z),
    (forall k : nat, (S k < List.length spike_times)%nat ->
       nth (S k) spike_times 0 - nth k spike_times 0 <= burst_threshold) ->
    burst_detection spike_times burst_threshold spike_num_thr = ([], []).
Proof.
  intros spike_times thr n Hgaps. unfold burst_detection.
  rewrite (burst_loop_no_gap thr n spike_times 0 1 Hgaps). reflexivity.
Qed.

Lemma burst_detection_unbroken_run_unreported_witness :
  burst_detection [1; 2; 3; 4; 5] 2 3%Z = ([], []).
Proof.
  apply (burst_detection_unbroken_run_unreported [1; 2; 3; 4; 5] 2 3%Z).
  intros k Hk. simpl in Hk.
  destruct k as [|[|[|[|k]]]]; simpl; try discriminate; lia.
Defined.

(** ** Burstiness *)





(** ** The sparse Pearson matrix is symmetric *)

Lemma dotZ_comm (a b : list Z) : dotZ a b = dotZ b a.
Proof.
  unfold dotZ, zip_with. revert b.
  induction a as [|x a IH]; intros [|y b]; simpl; try reflexivity.
  rewrite IH. lia.
Qed.

Lemma fl_mul_comm (x y : fl) : fl_same (Fl.mul x y) (Fl.mul y x).
Proof.
  destruct x as [a| | |], y as [b| | |]; simpl; try exact I;
    try apply fl_same_refl.
  ring.
Qed.

Lemma Qeqb_zero_comp (a b : Q) : a == b -> Qeqb a 0 = Qeqb b 0.
Proof.
  intro H. destruct (Qeqb a 0) eqn:E1, (Qeqb b 0) eqn:E2; try reflexivity;
    qbool; exfalso; lra.
Qed.

Lemma Qltb_zero_l_comp (a b : Q) : a == b -> Qltb 0 a = Qltb 0 b.
Proof.
  intro H. destruct (Qltb 0 a) eqn:E1, (Qltb 0 b) eqn:E2; try reflexivity;
    qbool; exfalso; lra.
Qed.

Lemma Qltb_zero_r_comp (a b : Q) : a == b -> Qltb a 0 = Qltb b 0.
Proof.
  intro H. destruct (Qltb a 0) eqn:E1, (Qltb b 0) eqn:E2; try reflexivity;
    qbool; exfalso; lra.
Qed.

Lemma fl_div_same (x x' y y' : fl) :
  fl_same x x' -> fl_same y y' -> fl_same (Fl.div x y) (Fl.div x' y').
Proof.
  destruct x as [a| | |], x' as [a'| | |]; simpl; try tauto;
    destruct y as [b| | |], y' as [b'| | |]; simpl; try tauto; intros Ha Hb.
  - rewrite (Qeqb_zero_comp b b' Hb), (Qeqb_zero_comp a a' Ha),
      (Qltb_zero_l_comp a a' Ha).
    destruct (Qeqb b' 0) eqn:Eb.
    + apply fl_same_refl.
    + simpl. apply Qdiv_comp; assumption.
  - reflexivity.
  - reflexivity.
  - rewrite (Qltb_zero_r_comp b b' Hb). apply fl_same_refl.
  - rewrite (Qltb_zero_r_comp b b' Hb). apply fl_same_refl.
Qed.

Lemma fl_sub_same (x x' y y' : fl) :
  fl_same x x' -> fl_same y y' -> fl_same (Fl.sub x y) (Fl.sub x' y').
Proof.
  destruct x as [a| | |], x' as [a'| | |]; simpl; try tauto;
    destruct y as [b| | |], y' as [b'| | |]; simpl; try tauto; intros Ha Hb.
  rewrite Ha, Hb. reflexivity.
Qed.

Lemma fround_same {F : Float64} (x y : fl) :
  (forall q q' : Q, q == q' -> fl_same (rnd q) (rnd q')) ->
  fl_same x y -> fl_same (fround x) (fround y).
Proof.
  intro Hp. destruct x as [a| | |], y as [b| | |]; simpl; try tauto.
  apply Hp.
Qed.

(** The sparse path of [pearson] raises ZeroDivisionError exactly when
    the raster has no bin.  Otherwise it returns a symmetric matrix:
    entries [(i, j)] and [(j, i)] are the same number, whatever the
    square root and the row means do, in any arithmetic whose rounding
    depends on the number rounded only. *)
Theorem pearson_sparse_symmetric :
  forall (F : Float64) (M : SparseMean) (r : csr),
    (forall q q' : Q, q == q' -> fl_same (rnd q) (rnd q')) ->
    match pearson (SparseRaster r) with
    | Err e => e = ZeroDivisionError /\ n_cols r = 0%nat
    | Ok C =>
        n_cols r <> 0%nat
        /\ forall i j, (i < n_rows r)%nat -> (j < n_rows r)%nat ->
             exists x y, entry C i j = Some x /\ entry C j i = Some y
                         /\ fl_same x y
    end.
Proof.
  intros F M r Hp.
  destruct (Nat.eq_dec (n_cols r) 0) as [Hz | Hw].
  - unfold pearson, pearson_sparse. rewrite Hz. simpl. auto.
  - destruct (pearson_sparse_entries r Hw) as [C [HC Hentries]].
    unfold pearson. rewrite HC. split; [exact Hw|].
    intros i j Hi Hj.
    rewrite (Hentries i j Hi Hj), (Hentries j i Hj Hi).
    rewrite (Nat.eqb_sym i j).
    destruct (Nat.eqb j i).
    + exists (Fin 1), (Fin 1). repeat split; reflexivity.
    + eexists. eexists. split; [reflexivity|]. split; [reflexivity|].
      rewrite (dotZ_comm (unit_row r j)).
      unfold Fp.div, Fp.sub, Fp.mul. apply (fround_same _ _ Hp).
      apply fl_div_same.
      * apply (fround_same _ _ Hp).
        apply fl_sub_same; [apply fl_same_refl|].
        apply (fround_same _ _ Hp). apply fl_mul_comm.
      * apply (fround_same _ _ Hp). apply fl_mul_comm.
Qed.

Lemma pearson_sparse_symmetric_witness :
  match @pearson binary64 (mean_in_row_order binary64)
                 (SparseRaster (mkCsr [1; 1; 1]%Z [0; 2; 2]%Z [0; 1; 3]%nat 2 3))
  with
  | Err e => e = ZeroDivisionError /\ 3%nat = 0%nat
  | Ok C =>
      3%nat <> 0%nat
      /\ forall i j, (i < 2)%nat -> (j < 2)%nat ->
           exists x y, entry C i j = Some x /\ entry C j i = Some y
                       /\ fl_same x y
  end.
Proof.
  apply (pearson_sparse_symmetric binary64 (mean_in_row_order binary64)
           (mkCsr [1; 1; 1]%Z [0; 2; 2]%Z [0; 1; 3]%nat 2 3)).
  exact (rnd_proper binary64 binary64_ieee).
Defined.

(** ** The older module *)

Lemma all_len_2_false (l : list (list Q)) :
  all_len_2 l = false -> Exists (fun ts => List.length ts <> 2%nat) l.
Proof.
  unfold all_len_2. induction l as [|ts l IH]; simpl; [discriminate|].
  destruct (Nat.eqb_spec (List.length ts) 2) as [E | E]; simpl.
  - intro H. apply Exists_cons_tl. apply IH. exact H.
  - intros _. apply Exists_cons_hd. exact E.
Qed.

(** [subtime] of the older module keeps the spikes in [[start, end)].  It
    raises TypeError exactly when the store has units and every one of
    them has two spikes in the range: the constructor then reads the
    trains as (index, time) pairs and the float index reaches [range].
    Otherwise it returns the sorted slices, one per unit. *)
Theorem legacy_subtime_two_spike_slices_raise :
  forall (sd : SpikeData) (start stop : Q),
    match Legacy.subtime sd start stop with
    | Err e =>
        e = TypeError
        /\ train sd <> []
        /\ Forall (fun ts => List.length (Legacy.slice_train start stop ts)
                             = 2%nat) (train sd)
    | Ok sd' =>
        train sd'
        = map (fun ts => np_sort (Legacy.slice_train start stop ts)) (train sd)
        /\ length sd' = stop - start
        /\ (train sd = []
            \/ Exists (fun ts => List.length (Legacy.slice_train start stop ts)
                                 <> 2%nat) (train sd))
    end.
Proof.
  intros sd start stop. unfold Legacy.subtime, Legacy.SpikeData_init.
  unfold SpikeData_init.
  destruct (train sd) as [|t0 rest] eqn:Etrain.
  - simpl. auto.
  - rewrite <- Etrain.
    set (sliced := map (Legacy.slice_train start stop) (train sd)).
    assert (Hp : parse_arg (Trains sliced) None
                 = if all_len_2 sliced
                   then _train_from_i_t_list
                          (FloatIdx (map (fun ts => nth 0 ts 0) sliced))
                          (map (fun ts => nth 1 ts 0) sliced) None
                   else Ok sliced).
    { unfold sliced. rewrite Etrain. reflexivity. }
    rewrite Hp. destruct (all_len_2 sliced) eqn:Esniff.
    + assert (Herr : _train_from_i_t_list
                       (FloatIdx (map (fun ts => nth 0 ts 0) sliced))
                       (map (fun ts => nth 1 ts 0) sliced) None
                     = Err TypeError).
      { unfold sliced. rewrite Etrain. reflexivity. }
      rewrite Herr. cbn [bind]. split; [reflexivity|].
      split; [rewrite Etrain; discriminate|].
      apply Forall_forall. intros ts Hts.
      apply (all_len_2_In sliced _ Esniff). unfold sliced.
      apply in_map. exact Hts.
    + cbn [bind pad_units train length]. unfold sliced. rewrite map_map.
      split; [reflexivity|]. split; [reflexivity|]. right.
      apply all_len_2_false in Esniff. unfold sliced in Esniff.
      apply Exists_exists in Esniff. destruct Esniff as [sl [Hsl Hlen]].
      apply in_map_iff in Hsl. destruct Hsl as [ts [<- Hts]].
      apply Exists_exists. exists ts. auto.
Qed.

Lemma legacy_loop_concat (thresh : fl) (counts : list Z) :
  forall this_av,
    concat (Legacy.avalanches_loop thresh this_av counts)
    = this_av ++ filter (is_active thresh) counts.
Proof.
  induction counts as [|c counts IH]; intro this_av; simpl.
  - destruct this_av; simpl; rewrite ?app_nil_r; reflexivity.
  - destruct (is_active thresh c).
    + rewrite IH, <- app_assoc. reflexivity.
    + destruct this_av; simpl; rewrite IH; reflexivity.
Qed.

Lemma legacy_loop_vs_segmenter (thresh : fl) (counts : list Z) :
  (exists trail,
      Legacy.avalanches_loop thresh [] counts
      = seg_run thresh INACTIVE counts ++ trail
      /\ (List.length trail <= 1)%nat)
  /\ (forall run, run <> [] ->
        exists trail,
          Legacy.avalanches_loop thresh run counts
          = seg_run thresh (ACTIVE true run) counts ++ trail
          /\ (List.length trail <= 1)%nat)
  /\ (forall run, run <> [] ->
        exists lead trail,
          Legacy.avalanches_loop thresh run counts
          = lead ++ seg_run thresh (ACTIVE false run) counts ++ trail
          /\ (List.length lead <= 1)%nat /\ (List.length trail <= 1)%nat).
Proof.
  induction counts as [|c counts [IHi [IHo IHu]]].
  - split; [|split].
    + exists []. split; [reflexivity|simpl; lia].
    + intros run Hne. exists [run]. destruct run; [congruence|].
      split; [reflexivity|simpl; lia].
    + intros run Hne. exists [], [run]. destruct run; [congruence|].
      split; [reflexivity|simpl; lia].
  - assert (Hsnoc : forall run : list Z, run ++ [c] <> []).
    { intros run H. apply app_eq_nil in H. destruct H; discriminate. }
    split; [|split].
    + cbn [Legacy.avalanches_loop seg_run]. unfold seg_step.
      destruct (is_active thresh c); cbn [fst snd app].
      * apply IHo. discriminate.
      * exact IHi.
    + intros run Hne. cbn [Legacy.avalanches_loop seg_run]. unfold seg_step.
      destruct (is_active thresh c); cbn [fst snd app].
      * apply IHo. apply Hsnoc.
      * destruct IHi as [trail [Heq Hlen]]. exists trail.
        destruct run; [congruence|]. rewrite Heq. split; [reflexivity|exact Hlen].
    + intros run Hne. cbn [Legacy.avalanches_loop seg_run]. unfold seg_step.
      destruct (is_active thresh c); cbn [fst snd app].
      * apply IHu. apply Hsnoc.
      * destruct IHi as [trail [Heq Hlen]]. exists [run], trail.
        destruct run; [congruence|]. rewrite Heq.
        split; [reflexivity|]. split; [simpl; lia|exact Hlen].
Qed.

(** The older [avalanches] and the package's, on the same bin counts:
    the older one yields every run of active bins, so its runs together
    are exactly the active bins; the package's result is the same list
    without, at most, one run at the start and one at the end. *)
Theorem legacy_avalanches_extend_current :
  forall (thresh : fl) (counts : list Z) (avs : list (list Z)),
    avalanches_of_counts thresh counts = Ok avs ->
    concat (Legacy.avalanches_of_counts thresh counts)
    = filter (is_active thresh) counts
    /\ exists lead trail,
         Legacy.avalanches_of_counts thresh counts = lead ++ avs ++ trail
         /\ (List.length lead <= 1)%nat /\ (List.length trail <= 1)%nat.
Proof.
  intros thresh counts avs H. split.
  - unfold Legacy.avalanches_of_counts. apply legacy_loop_concat.
  - rewrite avalanches_of_counts_runs in H.
    destruct counts as [|c rest]; [discriminate|].
    assert (Havs : code_runs thresh (c :: rest) = avs) by congruence.
    clear H.
    destruct (seg_run_code_runs thresh rest c) as [Hi [Hu _]].
    destruct (legacy_loop_vs_segmenter thresh rest) as [Li [_ Lu]].
    set (cr := code_runs thresh (c :: rest)) in *.
    unfold Legacy.avalanches_of_counts. cbn [Legacy.avalanches_loop].
    destruct (is_active thresh c) eqn:Ec; cbn [app].
    + destruct (Lu [c]) as [lead [trail [Heq Hlen]]]; [discriminate|].
      exists lead, trail. rewrite <- Havs, <- (Hu eq_refl [c]). auto.
    + destruct Li as [trail [Heq Hlen]].
      exists [], trail. rewrite <- Havs, <- (Hi eq_refl).
      split; [exact Heq|]. split; [simpl; lia|exact Hlen].
Qed.

Lemma legacy_avalanches_extend_current_witness :
  concat (Legacy.avalanches_of_counts (Fin 3) [5; 0; 5; 6; 2; 0; 0; 4; 4]%Z)
  = filter (is_active (Fin 3)) [5; 0; 5; 6; 2; 0; 0; 4; 4]%Z
  /\ exists lead trail,
       Legacy.avalanches_of_counts (Fin 3) [5; 0; 5; 6; 2; 0; 0; 4; 4]%Z
       = lead ++ [[5; 6]]%Z ++ trail
       /\ (List.length lead <= 1)%nat /\ (List.length trail <= 1)%nat.
Proof.
  apply (legacy_avalanches_extend_current
           (Fin 3) [5; 0; 5; 6; 2; 0; 0; 4; 4]%Z [[5; 6]]%Z).
  vm_compute. reflexivity.
Defined.

(** ** A unit against itself *)





